(** * Imrohoroglu (1989): cost of business cycles -- the solver notebook

    A shallow embedding of [Macro/Imrohoroglu1989/Imrohoroglu1989.ipynb]:
    the model object, the tabulated budget/utility evaluator, the Bellman
    operator, the Euler (time-iteration) operator, the three fixed-point
    drivers, the direct stationary-distribution sweep and the welfare
    comparison.

    Conventions of the embedding.
    - A float is idealised as an exact rational ([Q]); equalities between
      computed reals are therefore stated up to [==] where the order of the
      additions differs.
    - NumPy arrays are lists (of lists); an in-range read [x[i]] is
      [nth i x 0].  The jitted kernels do no bounds checking, so every
      theorem about them carries the shapes of its arrays as hypotheses.
    - Python exceptions are values of [exn]; fallible code lives in the
      [result] monad, printing code in the [io] monad (the printed lines
      paired with the result).
    - A kernel that Numba compiles with [parallel=True] does not hand on an
      exception raised inside its loops: the call returns its arrays as
      they are, with cells that no iteration wrote or that hold a
      non-finite float.  Such a call, and whatever the program goes on to
      do with what it returned, has the outcome [Unspecified]: the
      embedding describes the runs that return a determined value ([Ok])
      and those that raise ([Raise]).
    - Functions of foreign libraries ([np.log], float [**],
      [interpolation.interp], [quantecon.optimize.brentq]) are fields of a
      [Library] record taken as a section variable.  So is the one float
      sum whose rounding decides control flow, the [tol + 1] that starts
      each loop: a binary64 sum absorbs the 1 from [2^53] on. *)

From Stdlib Require Import String List ZArith QArith Qabs Qminmax Lia Lqa Bool.
From Stdlib Require Import Setoid Morphisms.
Import ListNotations.
Open Scope Q_scope.

(** ** Exceptions, fallible results and printed output *)

Inductive exn : Type :=
| ZeroDivisionError
| ValueError (msg : string)
| UnboundLocalError (name : string)
| RuntimeError (msg : string).

Inductive result (A : Type) : Type :=
| Ok (a : A)
| Raise (e : exn)
| Unspecified.
Arguments Ok {A} a.
Arguments Raise {A} e.
Arguments Unspecified {A}.

Definition bind {A B} (r : result A) (k : A -> result B) : result B :=
  match r with
  | Ok a => k a
  | Raise e => Raise e
  | Unspecified => Unspecified
  end.

Notation "x <- e ;; k" := (bind e (fun x => k))
  (at level 61, e at next level, right associativity).
Notation "' pat <- e ;; k" := (bind e (fun x => match x with pat => k end))
  (at level 61, pat pattern, e at next level, right associativity).

Fixpoint mapM {A B} (f : A -> result B) (l : list A) : result (list B) :=
  match l with
  | [] => Ok []
  | x :: t => y <- f x ;; ys <- mapM f t ;; Ok (y :: ys)
  end.

(** The lines the notebook prints. *)
Inductive line : Type :=
| ConstructWithCycle          (* 'Construct model with business cycle.' *)
| ConstructWithoutCycle       (* 'Construct model without business cycle.' *)
| SolveValueIteration         (* 'Solve model with value function iteration.' *)
| SolvePolicyIteration        (* 'Solve model with policy function iteration.' *)
| ErrorAtIteration (i : nat) (error : Q)
| FailedToConverge            (* 'Failed to converge!' *)
| ConvergedIn (i : nat).      (* 'Converged in {i} iterations.' *)

Definition io (A : Type) : Type := (list line * result A)%type.

Definition io_ret {A} (a : A) : io A := ([], Ok a).
Definition lift {A} (r : result A) : io A := ([], r).
Definition print (l : line) : io unit := ([l], Ok tt).
Definition when (b : bool) (m : io unit) : io unit := if b then m else io_ret tt.

Definition io_bind {A B} (m : io A) (k : A -> io B) : io B :=
  match m with
  | (out, Ok a) => let (out', r) := k a in (out ++ out', r)
  | (out, Raise e) => (out, Raise e)
  | (out, Unspecified) => (out, Unspecified)
  end.

Notation "x <~ e ;; k" := (io_bind e (fun x => k))
  (at level 61, e at next level, right associativity).
Notation "' pat <~ e ;; k" := (io_bind e (fun x => match x with pat => k end))
  (at level 61, pat pattern, e at next level, right associativity).
Notation "e ;;; k" := (io_bind e (fun _ => k))
  (at level 61, right associativity).

Definition stdout {A} (m : io A) : list line := fst m.
Definition outcome {A} (m : io A) : result A := snd m.

(** ** Float arithmetic, idealised *)

Definition Qlt_bool (x y : Q) : bool := negb (Qle_bool y x).

(** Float division: Python raises on a zero divisor, and so does a kernel
    that Numba compiled sequentially (see [njit] for the parallel one). *)
Definition fdiv (x y : Q) : result Q :=
  if Qeq_bool y 0 then Raise ZeroDivisionError else Ok (x / y).

(** Python's [max(x, y)]: the second argument only when it is larger. *)
Definition py_max (x y : Q) : Q := if Qlt_bool x y then y else x.

Definition Qsum (l : list Q) : Q := fold_right Qplus 0 l.

Fixpoint map2 {A B C} (f : A -> B -> C) (l : list A) (l' : list B) : list C :=
  match l, l' with
  | x :: t, y :: t' => f x y :: map2 f t t'
  | _, _ => []
  end.

(** [x @ y] on two vectors of the same length. *)
Definition dot (x y : list Q) : Q := Qsum (map2 Qmult x y).

(** [np.sum] of a matrix. *)
Definition np_sum (m : list (list Q)) : Q := Qsum (map Qsum m).

(** One left-to-right scan computing [np.max] and [np.argmax] (the first
    index at which the maximum is attained). *)
Fixpoint max_scan (l : list Q) (i : nat) (best : Q) (bi : nat) : Q * nat :=
  match l with
  | [] => (best, bi)
  | x :: t => if Qlt_bool best x then max_scan t (S i) x i
              else max_scan t (S i) best bi
  end.

Definition empty_reduction : exn :=
  ValueError "zero-size array to reduction operation maximum which has no identity".

Definition np_max (l : list Q) : result Q :=
  match l with
  | [] => Raise empty_reduction
  | x :: t => Ok (fst (max_scan t 1 x 0))
  end.

Definition np_argmax (l : list Q) : result nat :=
  match l with
  | [] => Raise empty_reduction
  | x :: t => Ok (snd (max_scan t 1 x 0))
  end.

(** [np.argwhere(row > 0).max()]: the largest index of a positive entry. *)
Definition argwhere (row : list Q) : list nat :=
  filter (fun i => Qlt_bool 0 (nth i row 0)) (seq 0 (length row)).

Definition argwhere_max (row : list Q) : result nat :=
  match argwhere row with
  | [] => Raise empty_reduction
  | i :: l => Ok (fold_left Nat.max l i)
  end.

(** [np.max(np.abs(x - y))] on two matrices of one shape. *)
Definition sup_error (x y : list (list Q)) : result Q :=
  np_max (concat (map2 (map2 (fun a b => Qabs (a - b))) x y)).

(** [np.linspace(start, stop, num)]. *)
Definition linspace (start stop : Q) (num : Z) : result (list Q) :=
  if (num <? 0)%Z then Raise (ValueError "Number of samples must be non-negative.")
  else
    let n := Z.to_nat num in
    let step := (stop - start) / inject_Z (num - 1) in
    let y := map (fun i => inject_Z (Z.of_nat i) * step + start) (seq 0 n) in
    Ok (if (1 <? num)%Z then removelast y ++ [stop] else y).

(** The float constant [np.e], exactly. *)
Definition np_e : Q := 6121026514868073 # 2251799813685248.

(** ** Foreign functions *)

Record Library : Type := {
  np_log : Q -> Q;                         (* np.log *)
  pow : Q -> Q -> Q;                       (* float x ** y *)
  float_add : Q -> Q -> Q;                 (* float x + y, rounded *)
  interp : list Q -> list Q -> Q -> Q;     (* interpolation.interp(x, y, u) *)
  brentq : (Q -> Q) -> Q -> Q -> result Q  (* brentq(f, a, b).root *)
}.

(** ** Compiled kernels

    [@njit(parallel=parallel_flag)] around a loop nest.  Compiled
    sequentially, an exception raised in the body of the loops leaves the
    kernel as it would leave the Python function.  Compiled in parallel,
    the kernel drops it and returns. *)
Definition njit {A} (parallel_flag : bool) (loops : result A) : result A :=
  match loops with
  | Raise e => if parallel_flag then Unspecified else Raise e
  | r => r
  end.

(** ** The model object *)

Record BusinessCycleModel : Type := {
  period : Q;
  beta : Q;
  periods_in_a_year : Q;
  R_save : Q;
  R_borrow : Q;
  sigma : Q;
  Na : nat;
  a_min : Q;
  a_max : Q;
  P : list (list Q);
  Ns : nat;
  Ns_label : list string;
  a_vals : list Q;
  y_vals : list Q
}.

(** Keyword arguments of the constructor, with the defaults of the source. *)
Record Options : Type := {
  o_period : Q;
  o_r_save : Q;
  o_r_borrow : Q;
  o_y : Q;
  o_theta : Q;
  o_beta : Q;
  o_sigma : Q;
  o_business_cycle : bool;
  o_a_max : Q;
  o_a_min : Q;
  o_Na : Z;
  o_verbose : bool
}.

Definition defaults : Options := {|
  o_period := 6;
  o_r_save := 0.00;
  o_r_borrow := 0.08;
  o_y := 1;
  o_theta := 0.25;
  o_beta := 0.995;
  o_sigma := 1.5;
  o_business_cycle := true;
  o_a_max := 8;
  o_a_min := 0;
  o_Na := 301;
  o_verbose := true
|}.

Definition P_cycle : list (list Q) :=
  [ [0.9141; 0.0234; 0.0587; 0.0038];
    [0.5625; 0.3750; 0.0269; 0.0356];
    [0.0608; 0.0016; 0.8813; 0.0563];
    [0.0375; 0.0250; 0.4031; 0.5344] ].

Definition P_no_cycle : list (list Q) :=
  [ [0.9565; 0.0435];
    [0.5000; 0.5000] ].

Section Notebook.

Variable lib : Library.

(** [BusinessCycleModel.__init__] *)
Definition __init__ (o : Options) : io BusinessCycleModel :=
  periods <~ lift (fdiv 52 (o_period o)) ;;
  let R_save := 1 + o_r_save o in
  e <~ lift (fdiv 1 periods) ;;
  let R_borrow := pow lib (1 + o_r_borrow o) e in
  '(P, Ns, label) <~
    (if o_business_cycle o then
       when (o_verbose o) (print ConstructWithCycle) ;;;
       io_ret (P_cycle, 4%nat, ["ge"; "gu"; "be"; "bu"]%string)
     else
       when (o_verbose o) (print ConstructWithoutCycle) ;;;
       io_ret (P_no_cycle, 2%nat, ["e"; "u"]%string)) ;;
  a_vals <~ lift (linspace (o_a_min o) (o_a_max o) (o_Na o)) ;;
  io_ret {|
    period := o_period o;
    beta := o_beta o;
    periods_in_a_year := periods;
    R_save := R_save;
    R_borrow := R_borrow;
    sigma := o_sigma o;
    Na := Z.to_nat (o_Na o);
    a_min := o_a_min o;
    a_max := o_a_max o;
    P := P;
    Ns := Ns;
    Ns_label := label;
    a_vals := a_vals;
    y_vals := concat (repeat [o_y o; o_y o * o_theta o] (Nat.div Ns 2))
  |}.

(** ** Value function iteration: [operator_factory_value_iteration] *)

Section ValueIteration.

Variable bcm : BusinessCycleModel.
Variable parallel_flag : bool.

Definition R_func (a : Q) : Q :=
  if Qle_bool 0 a then R_save bcm else R_borrow bcm.

Definition U_func (c sigma : Q) : Q :=
  if Qeq_bool sigma 1 then np_log lib c
  else pow lib c (1 - sigma) / (1 - sigma).

(** The body of the three nested loops of [util]: the pair
    ([c[a0, s0, a1]], [u[a0, s0, a1]]). *)
Definition util_cell (a0 s0 a1 : nat) : result (Q * Q) :=
  let R := R_func (nth a1 (a_vals bcm) 0) in
  q <- fdiv (nth a1 (a_vals bcm) 0) R ;;
  let c0 := nth a0 (a_vals bcm) 0 + nth s0 (y_vals bcm) 0 - q in
  Ok (c0, if Qle_bool c0 0 then - 1e20 else U_func c0 (sigma bcm)).

Definition util : result (list (list (list Q)) * list (list (list Q))) :=
  njit parallel_flag
    (cells <- mapM (fun a0 =>
                mapM (fun s0 =>
                  mapM (fun a1 => util_cell a0 s0 a1) (seq 0 (Na bcm)))
                  (seq 0 (Ns bcm)))
                (seq 0 (Na bcm)) ;;
     Ok (map (map (map fst)) cells, map (map (map snd)) cells)).

(** The body of the two outer loops of [T]: new value, greedy index and
    implied consumption of one cell. *)
Definition T_cell (v : list (list Q)) (u c : list (list (list Q)))
    (a0 s0 : nat) : result (Q * nat * Q) :=
  Na1 <- argwhere_max (nth s0 (nth a0 c []) []) ;;
  let v_vals :=
    map (fun a1 =>
           let u0 := nth a1 (nth s0 (nth a0 u []) []) 0 in
           u0 + dot (map (Qmult (beta bcm)) (nth s0 (P bcm) [])) (nth a1 v []))
        (seq 0 (Na1 + 1)) in
  v_max <- np_max v_vals ;;
  a1 <- np_argmax v_vals ;;
  let R := R_func (nth a1 (a_vals bcm) 0) in
  q <- fdiv (nth a1 (a_vals bcm) 0) R ;;
  Ok (v_max, a1, nth a0 (a_vals bcm) 0 + nth s0 (y_vals bcm) 0 - q).

(** The Bellman operator: [(v_new, policy, gamma)]. *)
Definition T (v : list (list Q)) (u c : list (list (list Q)))
  : result (list (list Q) * list (list nat) * list (list Q)) :=
  njit parallel_flag
    (cells <- mapM (fun a0 =>
                mapM (fun s0 => T_cell v u c a0 s0) (seq 0 (Ns bcm)))
                (seq 0 (Na bcm)) ;;
     Ok (map (map (fun x => fst (fst x))) cells,
         map (map (fun x => snd (fst x))) cells,
         map (map snd) cells)).

End ValueIteration.

(** ** The fixed-point drivers

    The three [while i < max_iter and error > tol] loops of the notebook
    have one shape; [while_loop] is that loop.  [remaining] stands for
    [max_iter - i], so that the test [i < max_iter] is [remaining <> 0];
    [last] holds the variables bound by the last pass through the body
    (unbound, [None], before the first). *)

Section Driver.

Context {X Y : Type}.
Variable step : X -> result (X * Y).
Variable err : X -> X -> result Q.
Variable tol : Q.
Variable verbose : bool.
Variable print_skip : Z.

Definition progress (i : nat) (error : Q) : io unit :=
  if verbose then
    if (print_skip =? 0)%Z then lift (Raise ZeroDivisionError)
    else when (Z.of_nat i mod print_skip =? 0)%Z (print (ErrorAtIteration i error))
  else io_ret tt.

Fixpoint while_loop (remaining i : nat)
    (error : Q) (x : X) (last : option (X * Y)) : io (nat * X * option (X * Y)) :=
  match remaining with
  | O => io_ret (i, x, last)
  | S r =>
      if Qlt_bool tol error then
        ' (x_new, y) <~ lift (step x) ;;
        error' <~ lift (err x x_new) ;;
        progress (S i) error' ;;;
        while_loop r (S i) error' x_new (Some (x_new, y))
      else io_ret (i, x, last)
  end.

(** One pass through the body of the loop, as a step on the loop
    variables [(i, error, x, last)]; [passes n] is [n] passes in a row. *)
Definition loop_state : Type := (nat * Q * X * option (X * Y))%type.

Inductive pass : loop_state -> loop_state -> Prop :=
| pass_body (i : nat) (error error' : Q) (x x_new : X) (y : Y)
    (last : option (X * Y)) :
    tol < error ->
    step x = Ok (x_new, y) ->
    err x x_new = Ok error' ->
    pass (i, error, x, last) (S i, error', x_new, Some (x_new, y)).

Inductive passes : nat -> loop_state -> loop_state -> Prop :=
| passes_O (st : loop_state) : passes 0 st st
| passes_S (n : nat) (st st' st'' : loop_state) :
    pass st st' -> passes n st' st'' -> passes (S n) st st''.

End Driver.

(** The loop body of value iteration: [v_new, policy, gamma = T(v, u, c)]. *)
Definition T_step (bcm : BusinessCycleModel) (parallel_flag : bool)
    (u c : list (list (list Q))) (v : list (list Q))
  : result (list (list Q) * (list (list nat) * list (list Q))) :=
  ' (v_new, policy, gamma) <- T bcm parallel_flag v u c ;;
  Ok (v_new, (policy, gamma)).

Definition zeros (n m : nat) : list (list Q) := repeat (repeat 0 m) n.

Definition solve_model_value_iteration (bcm : BusinessCycleModel)
    (use_parallel : bool)
    (tol : Q) (max_iter : Z) (verbose : bool) (print_skip : Z)
  : io (list (list Q) * list (list nat) * list (list Q)) :=
  when verbose (print SolveValueIteration) ;;;
  ' (c, u) <~ lift (util bcm use_parallel) ;;
  let v := zeros (Na bcm) (Ns bcm) in
  ' (i, v, last) <~
    while_loop (T_step bcm use_parallel u c) sup_error tol verbose print_skip
               (Z.to_nat max_iter) 0 (float_add lib tol 1) v None ;;
  when (Z.of_nat i =? max_iter)%Z (print FailedToConverge) ;;;
  when ((Z.of_nat i <? max_iter)%Z && verbose) (print (ConvergedIn i)) ;;;
  match last with
  | Some (_, (policy, gamma)) => io_ret (v, policy, gamma)
  | None => lift (Raise (UnboundLocalError "policy"))
  end.

(** ** Policy function iteration: [operator_factory_time_iteration] *)

Section TimeIteration.

Variable bcm : BusinessCycleModel.

Definition u_prime (c : Q) : Q := pow lib c (- sigma bcm).

Definition column (s : nat) (m : list (list Q)) : list Q :=
  map (fun row => nth s row 0) m.

Definition euler_diff (c a : Q) (s : nat) (gamma_vals : list (list Q)) : Q :=
  let R := R_save bcm in
  let gamma := fun a s => interp lib (a_vals bcm) (column s gamma_vals) a in
  let expect :=
    fold_left (fun expect s1 =>
                 expect + u_prime (gamma (R * (a - c + nth s (y_vals bcm) 0)) s1)
                          * nth s1 (nth s (P bcm) []) 0)
              (seq 0 (Ns bcm)) 0 in
  u_prime c - py_max (beta bcm * R * expect) (u_prime (a + nth s (y_vals bcm) 0)).

(** The body of the two loops of [K]: consumption and next assets of one cell. *)
Definition K_cell (gamma : list (list Q)) (a : Q) (s : nat) : result (Q * Q) :=
  let R := R_save bcm in
  c <- brentq lib (fun c => euler_diff c a s gamma)
                  1e-8 (a + nth s (y_vals bcm) 0) ;;
  Ok (c, R * (a - c + nth s (y_vals bcm) 0)).

Definition K (gamma : list (list Q)) : result (list (list Q) * list (list Q)) :=
  cells <- mapM (fun a => mapM (fun s => K_cell gamma a s) (seq 0 (Ns bcm)))
                (a_vals bcm) ;;
  Ok (map (map fst) cells, map (map snd) cells).

End TimeIteration.

(** [np.repeat(bcm.a_vals.reshape(bcm.Na, 1), bcm.Ns, axis=1)] *)
Definition gamma_init (bcm : BusinessCycleModel) : list (list Q) :=
  map (fun a => repeat a (Ns bcm)) (a_vals bcm).

Definition solve_model_time_iter (bcm : BusinessCycleModel)
    (tol : Q) (max_iter : Z) (verbose : bool) (print_skip : Z)
  : io (list (list Q) * list (list Q)) :=
  when verbose (print SolvePolicyIteration) ;;;
  let gamma := gamma_init bcm in
  ' (i, gamma, last) <~
    while_loop (K bcm) sup_error tol verbose print_skip
               (Z.to_nat max_iter) 0 (float_add lib tol 1) gamma None ;;
  when (Z.of_nat i =? max_iter)%Z (print FailedToConverge) ;;;
  when verbose (print (ConvergedIn i)) ;;;
  match last with
  | Some (gamma_new, asset_policy) => io_ret (gamma_new, asset_policy)
  | None => lift (Raise (UnboundLocalError "gamma_new"))
  end.

(** ** Stationary distribution by iteration: [solve_invariant_dist] *)

Fixpoint update {A} (l : list A) (i : nat) (f : A -> A) : list A :=
  match l, i with
  | [], _ => []
  | x :: t, O => f x :: t
  | x :: t, S j => x :: update t j f
  end.

(** [m[i, j] += x] *)
Definition add_at (m : list (list Q)) (i j : nat) (x : Q) : list (list Q) :=
  update m i (fun row => update row j (fun y => y + x)).

Definition zeros_like (m : list (list Q)) : list (list Q) :=
  map (map (fun _ => 0)) m.

Definition dist_iter (bcm : BusinessCycleModel) (policy : list (list nat))
    (pmf : list (list Q)) : list (list Q) :=
  fold_left (fun pmf_new a0 =>
    fold_left (fun pmf_new s0 =>
      let a1 := nth s0 (nth a0 policy []) 0%nat in
      fold_left (fun pmf_new s1 =>
        add_at pmf_new a1 s1
               (nth s1 (nth s0 (P bcm) []) 0 * nth s0 (nth a0 pmf []) 0))
        (seq 0 (Ns bcm)) pmf_new)
      (seq 0 (Ns bcm)) pmf_new)
    (seq 0 (Na bcm)) (zeros_like pmf).

(** The loop body of the distribution iteration: [pmf_new = dist_iter(pmf)]. *)
Definition dist_step (bcm : BusinessCycleModel) (policy : list (list nat))
    (pmf : list (list Q)) : result (list (list Q) * unit) :=
  Ok (dist_iter bcm policy pmf, tt).

(** [np.ones_like(policy) * (1/(Na*Ns))]; the quotient is one of Python
    integers. *)
Definition uniform_pmf (bcm : BusinessCycleModel) (policy : list (list nat))
  : result (list (list Q)) :=
  w <- fdiv 1 (inject_Z (Z.of_nat (Na bcm * Ns bcm))) ;;
  Ok (map (map (fun _ => 1 * w)) policy).

Definition solve_invariant_dist (bcm : BusinessCycleModel)
    (policy : list (list nat))
    (tol : Q) (max_iter : Z) (verbose : bool) (print_skip : Z)
  : io (list (list Q)) :=
  pmf <~ lift (uniform_pmf bcm policy) ;;
  ' (i, pmf, _) <~
    while_loop (dist_step bcm policy) sup_error tol verbose print_skip
               (Z.to_nat max_iter) 0 (float_add lib 1 tol) pmf None ;;
  when (Z.of_nat i =? max_iter)%Z (print FailedToConverge) ;;;
  when ((Z.of_nat i <? max_iter)%Z && verbose) (print (ConvergedIn i)) ;;;
  io_ret pmf.

(** ** Welfare comparison: [compute_consumption_loss] *)

Definition loss_options (sigma a_max : Q) (Na : Z) (business_cycle : bool)
  : Options := {|
  o_period := o_period defaults;
  o_r_save := o_r_save defaults;
  o_r_borrow := o_r_borrow defaults;
  o_y := o_y defaults;
  o_theta := o_theta defaults;
  o_beta := o_beta defaults;
  o_sigma := sigma;
  o_business_cycle := business_cycle;
  o_a_max := a_max;
  o_a_min := o_a_min defaults;
  o_Na := Na;
  o_verbose := false
|}.

(** The four lines that build one economy and aggregate its value function
    under its stationary distribution: [np.sum(pmf * v)].  The solvers run
    with their defaults but for [verbose]. *)
Definition lifetime_utility (o : Options) : io (BusinessCycleModel * Q) :=
  bc <~ __init__ o ;;
  ' (v, policy, _) <~ solve_model_value_iteration bc true 1e-5 5000 false 100 ;;
  pmf <~ solve_invariant_dist bc policy 1e-7 2000 false 50 ;;
  io_ret (bc, np_sum (map2 (map2 Qmult) pmf v)).

(** [v_nbc / v_bc] divides NumPy scalars, which yields [inf] or [nan]
    rather than an exception on a zero divisor; the rational quotient
    stands for it wherever [v_bc] is not zero. *)
Definition compute_consumption_loss (sigma a_max : Q) (Na : Z) : io Q :=
  ' (bc, v_bc) <~ lifetime_utility (loss_options sigma a_max Na true) ;;
  ' (nbc, v_nbc) <~ lifetime_utility (loss_options sigma a_max Na false) ;;
  io_ret (if Qeq_bool sigma 1
          then pow lib np_e ((v_nbc - v_bc) * (1 - beta bc)) - 1
          else pow lib (v_nbc / v_bc) (1 / (1 - sigma)) - 1).

End Notebook.

(** ** Stationary distribution by simulation: [compute_asset_series]

    [s_seq] stands for what [MarkovChain(P).simulate(T, random_state=seed)]
    returned.  This function is plain Python: reading [s_seq[t]] or
    [y_vals[s]] past the end raises [IndexError], here [None];
    [gamma_star] is taken to have one column per entry of [y_vals]. *)

Definition asset_step (lib : Library) (bcm : BusinessCycleModel)
    (gamma_star : list (list Q)) (s_seq : list nat)
    (paths : option (list Q * list Q)) (t : nat) : option (list Q * list Q) :=
  match paths with
  | None => None
  | Some (a_path, c_path) =>
      match nth_error s_seq t with
      | None => None
      | Some s =>
          match nth_error (y_vals bcm) s with
          | None => None
          | Some y =>
              let R := R_save bcm in
              let gamma := fun a s =>
                interp lib (a_vals bcm) (column s gamma_star) a in
              let c_path := update c_path t (fun _ => gamma (nth t a_path 0) s) in
              let a_path :=
                update a_path (t + 1)
                  (fun _ => R * (nth t a_path 0 - gamma (nth t a_path 0) s + y)) in
              Some (a_path, c_path)
          end
      end
  end.

Definition compute_asset_series (lib : Library) (bcm : BusinessCycleModel)
    (gamma_star : list (list Q)) (T : nat) (s_seq : list nat)
  : option (list Q * list Q * list nat) :=
  match fold_left (asset_step lib bcm gamma_star s_seq) (seq 0 T)
                  (Some (repeat 0 (T + 1), repeat 0 T)) with
  | Some (a_path, c_path) => Some (a_path, c_path, s_seq)
  | None => None
  end.

(** ** Stand-ins for the foreign functions, used to run the model on
    concrete inputs *)

(** [x ** e], exact whenever the exponent is an integer. *)
Definition pow_int (x e : Q) : Q :=
  let e' := Qred e in
  if (Zpos (Qden e') =? 1)%Z then Qpower x (Qnum e') else 0.

(** Piecewise-linear interpolation through the points [(xs[i], ys[i])],
    constant outside the grid. *)
Fixpoint interp_lin (xs ys : list Q) (u : Q) : Q :=
  match xs, ys with
  | x0 :: ((x1 :: _) as xs'), y0 :: ((y1 :: _) as ys') =>
      if Qle_bool u x0 then y0
      else if Qle_bool u x1 then y0 + (u - x0) * ((y1 - y0) / (x1 - x0))
      else interp_lin xs' ys' u
  | _, y0 :: _ => y0
  | _, [] => 0
  end.

Definition no_sign_change : exn :=
  ValueError "f(a) and f(b) must have different signs".

(** The entry checks of a bracketing root finder: a [ValueError] when the
    function has one strict sign at both ends, an end point when it is
    already a root; it gives up otherwise. *)
Definition brentq_ends (f : Q -> Q) (a b : Q) : result Q :=
  if Qlt_bool 0 (f a * f b)
  then Raise no_sign_change
  else if Qeq_bool (f b) 0 then Ok b
  else if Qeq_bool (f a) 0 then Ok a
  else Raise (RuntimeError "Failed to converge").

Definition lib0 : Library := {|
  np_log := fun _ => 0;
  pow := pow_int;
  float_add := Qplus;
  interp := interp_lin;
  brentq := brentq_ends
|}.

(** A float sum that, like a binary64 one, absorbs a summand of magnitude
    at most 1 next to one of magnitude [2^54] or more, and is exact
    otherwise; [lib54] is [lib0] with that sum. *)
Definition absorbing_add (x y : Q) : Q :=
  if Qle_bool (2 ^ 54) (Qabs x) && Qle_bool (Qabs y) 1 then x
  else if Qle_bool (2 ^ 54) (Qabs y) && Qle_bool (Qabs x) 1 then y
  else x + y.

Definition lib54 : Library := {|
  np_log := np_log lib0;
  pow := pow lib0;
  float_add := absorbing_add;
  interp := interp lib0;
  brentq := brentq lib0
|}.

(** ** The vocabulary of the specification *)

(** An array over the [(n, k)] grid. *)
Definition shape {A} (m : list (list A)) (n k : nat) : Prop :=
  length m = n /\ forall i, (i < n)%nat -> length (nth i m []) = k.

(** The expectation of [v[a1, .]] over next states, weighted by the row
    [P[s0]]. *)
Definition expectation (bcm : BusinessCycleModel) (v : list (list Q))
    (s0 a1 : nat) : Q :=
  Qsum (map (fun s1 => nth s1 (nth s0 (P bcm) []) 0 * nth s1 (nth a1 v []) 0)
            (seq 0 (Ns bcm))).

(** The candidate value of choosing next-asset index [a1] in cell
    [(a0, s0)]: [u(a0, s0, a1) + beta * (P[s0] . v[a1, :])]. *)
Definition candidate (bcm : BusinessCycleModel) (v : list (list Q))
    (u : list (list (list Q))) (a0 s0 a1 : nat) : Q :=
  nth a1 (nth s0 (nth a0 u []) []) 0 + beta bcm * expectation bcm v s0 a1.

(** Consumption implied by the budget identity. *)
Definition budget (bcm : BusinessCycleModel) (a0 s0 a1 : nat) : Q :=
  nth a0 (a_vals bcm) 0 + nth s0 (y_vals bcm) 0
  - nth a1 (a_vals bcm) 0 / R_func bcm (nth a1 (a_vals bcm) 0).


(** Expected lifetime utility under the stationary measure: the sum over
    all [(a, s)] of [pmf(a, s) * v(a, s)]. *)
Definition expected_lifetime_utility (pmf v : list (list Q)) (n k : nat) : Q :=
  Qsum (map (fun a =>
          Qsum (map (fun s => nth s (nth a pmf []) 0 * nth s (nth a v []) 0)
                    (seq 0 k)))
        (seq 0 n)).

(** One economy of the welfare comparison, solved with the default
    tolerances, and its expected lifetime utility. *)
Definition economy (lib : Library) (o : Options) : result (BusinessCycleModel * Q) :=
  bc <- outcome (__init__ lib o) ;;
  ' (v, policy, _) <-
    outcome (solve_model_value_iteration lib bc true 1e-5 5000 false 100) ;;
  pmf <- outcome (solve_invariant_dist lib bc policy 1e-7 2000 false 50) ;;
  Ok (bc, expected_lifetime_utility pmf v (Na bc) (Ns bc)).

(** The consumption-equivalent compensation between two lifetime
    utilities. *)
Definition welfare_loss (lib : Library) (sigma beta V_no_risk V_risk : Q) : Q :=
  if Qeq_bool sigma 1
  then pow lib np_e ((V_no_risk - V_risk) * (1 - beta)) - 1
  else pow lib (V_no_risk / V_risk) (1 / (1 - sigma)) - 1.

(** The mass that the Markov operator induced by [P] and [policy] sends
    into the cell [(a1, s1)]: the sum, over the cells [(a0, s0)] whose
    policy is [a1], of [P[s0, s1] * pmf[a0, s0]]. *)
Definition inflow (bcm : BusinessCycleModel) (policy : list (list nat))
    (pmf : list (list Q)) (a1 s1 : nat) : Q :=
  Qsum (map (fun a0 =>
          Qsum (map (fun s0 =>
                  if Nat.eqb (nth s0 (nth a0 policy []) 0%nat) a1
                  then nth s1 (nth s0 (P bcm) []) 0 * nth s0 (nth a0 pmf []) 0
                  else 0)
                (seq 0 (Ns bcm))))
        (seq 0 (Na bcm))).

(** Every entry of an array is non-negative. *)
Definition nonneg (m : list (list Q)) : Prop :=
  forall i j, 0 <= nth j (nth i m []) 0.

(** Two arrays over the [(n, k)] grid differ by at most [d] in every cell. *)
Definition within (d : Q) (x y : list (list Q)) (n k : nat) : Prop :=
  forall i j, (i < n)%nat -> (j < k)%nat ->
    Qabs (nth j (nth i x []) 0 - nth j (nth i y []) 0) <= d.

(** Total mass of a distribution over the grid. *)
Definition mass (pmf : list (list Q)) : Q := np_sum pmf.

Definition from_Ok {A} (d : A) (r : result A) : A :=
  match r with Ok a => a | _ => d end.

(** ** Small concrete economies *)

(** A two-state economy on the grid 0, 1, 2 with integer exponents
    ([sigma = 2], one period a year), so that [pow_int] is exact on it. *)
Definition toy_options : Options := {|
  o_period := 52;
  o_r_save := 0;
  o_r_borrow := 1;
  o_y := 1;
  o_theta := 0.25;
  o_beta := 0.5;
  o_sigma := 2;
  o_business_cycle := false;
  o_a_max := 2;
  o_a_min := 0;
  o_Na := 3;
  o_verbose := false
|}.

Definition toy : BusinessCycleModel := {|
  period := 52;
  beta := 0.5;
  periods_in_a_year := 1;
  R_save := 1;
  R_borrow := 2;
  sigma := 2;
  Na := 3;
  a_min := 0;
  a_max := 2;
  P := P_no_cycle;
  Ns := 2;
  Ns_label := ["e"; "u"]%string;
  a_vals := [0; 1; 2];
  y_vals := [1; 0.25]
|}.

(** The same economy asked for with its grid bounds the wrong way round. *)
Definition reversed_options : Options := {|
  o_period := 52;
  o_r_save := 0;
  o_r_borrow := 1;
  o_y := 1;
  o_theta := 0.25;
  o_beta := 0.5;
  o_sigma := 2;
  o_business_cycle := false;
  o_a_max := - 8;
  o_a_min := 0;
  o_Na := 2;
  o_verbose := false
|}.

(** The tables of the toy economy: [c, u = util()]. *)
Definition toy_c : list (list (list Q)) :=
  fst (from_Ok ([], []) (util lib0 toy true)).
Definition toy_u : list (list (list Q)) :=
  snd (from_Ok ([], []) (util lib0 toy true)).

(** A policy on the toy grid and a distribution over it. *)
Definition toy_policy : list (list nat) := [[0; 0]; [0; 1]; [1; 2]]%nat.
Definition toy_pmf : list (list Q) := [[0.5; 0]; [0; 0.25]; [0.25; 0]].

(** A two-state economy on the grid 10, 11, 12: rich enough for the
    borrowing constraint to bind at the identity policy. *)
Definition rich : BusinessCycleModel := {|
  period := 52;
  beta := 0.5;
  periods_in_a_year := 1;
  R_save := 1;
  R_borrow := 2;
  sigma := 2;
  Na := 3;
  a_min := 10;
  a_max := 12;
  P := P_no_cycle;
  Ns := 2;
  Ns_label := ["e"; "u"]%string;
  a_vals := [10; 11; 12];
  y_vals := [1; 0.25]
|}.

(** Two-point grids on which the stand-in root finder refuses a bracket:
    a grid of tiny assets, and a wide one with a policy that consumes
    almost nothing at the top. *)
Definition tiny : BusinessCycleModel := {|
  period := 52;
  beta := 0.5;
  periods_in_a_year := 1;
  R_save := 1;
  R_borrow := 2;
  sigma := 2;
  Na := 2;
  a_min := 1e-9;
  a_max := 2e-9;
  P := P_no_cycle;
  Ns := 2;
  Ns_label := ["e"; "u"]%string;
  a_vals := [1e-9; 2e-9];
  y_vals := [1; 0.25]
|}.

Definition wide : BusinessCycleModel := {|
  period := 52;
  beta := 0.5;
  periods_in_a_year := 1;
  R_save := 1;
  R_borrow := 2;
  sigma := 2;
  Na := 2;
  a_min := 0;
  a_max := 200;
  P := P_no_cycle;
  Ns := 2;
  Ns_label := ["e"; "u"]%string;
  a_vals := [0; 200];
  y_vals := [1; 0.25]
|}.

Definition wide_gamma : list (list Q) := [[100; 100]; [1e-9; 1e-9]].

(** A second value function on the toy grid. *)
Definition toy_ones : list (list Q) := [[1; 1]; [1; 1]; [1; 1]].

(** * Properties *)

(** ** Comparisons *)

Lemma Qlt_bool_iff (x y : Q) : Qlt_bool x y = true <-> x < y.
Proof.
  unfold Qlt_bool. rewrite negb_true_iff.
  split; intro H.
  - apply Qnot_le_lt. intro Hle. apply Qle_bool_iff in Hle. congruence.
  - destruct (Qle_bool y x) eqn:E; trivial.
    apply Qle_bool_iff in E. exfalso. apply (Qlt_not_le _ _ H E).
Qed.

Lemma Qlt_bool_false (x y : Q) : Qlt_bool x y = false <-> y <= x.
Proof.
  unfold Qlt_bool. rewrite negb_false_iff. apply Qle_bool_iff.
Qed.

Lemma Qle_bool_false (x y : Q) : Qle_bool x y = false <-> y < x.
Proof.
  rewrite <- Qlt_bool_iff. unfold Qlt_bool.
  destruct (Qle_bool x y); simpl; intuition congruence.
Qed.

Lemma Qeq_bool_false (x y : Q) : Qeq_bool x y = false <-> ~ x == y.
Proof.
  split.
  - intros H E. apply Qeq_bool_iff in E. congruence.
  - intro H. destruct (Qeq_bool x y) eqn:E; trivial.
    apply Qeq_bool_iff in E. contradiction.
Qed.

(** ** The result monad *)

Lemma bind_Ok {A B} (r : result A) (k : A -> result B) (b : B) :
  bind r k = Ok b -> exists a, r = Ok a /\ k a = Ok b.
Proof.
  destruct r as [a|e|]; simpl; intro H; [eauto | discriminate | discriminate].
Qed.

(** A kernel returns a determined value exactly when its loops do,
    however it was compiled. *)
Lemma njit_Ok {A} (parallel_flag : bool) (loops : result A) (a : A) :
  njit parallel_flag loops = Ok a <-> loops = Ok a.
Proof.
  destruct loops as [a'|e|]; simpl; [tauto| |tauto].
  destruct parallel_flag; split; discriminate.
Qed.

Lemma mapM_Ok_length {A B} (f : A -> result B) l l' :
  mapM f l = Ok l' -> length l' = length l.
Proof.
  revert l'. induction l as [|x t IH]; simpl; intros l' H.
  - now inversion H.
  - apply bind_Ok in H as (y & _ & H).
    apply bind_Ok in H as (ys & Hys & H).
    inversion H; subst. simpl. f_equal. now apply IH.
Qed.

Lemma mapM_Ok_nth {A B} (f : A -> result B) l l' d d' i :
  mapM f l = Ok l' -> (i < length l)%nat ->
  f (nth i l d) = Ok (nth i l' d').
Proof.
  revert l' i. induction l as [|x t IH]; simpl; intros l' i H Hi.
  - lia.
  - apply bind_Ok in H as (y & Hy & H).
    apply bind_Ok in H as (ys & Hys & H).
    inversion H; subst.
    destruct i as [|i]; simpl; trivial.
    apply IH; trivial. lia.
Qed.

Lemma mapM_total {A B} (f : A -> result B) l :
  (forall x, In x l -> exists y, f x = Ok y) ->
  exists l', mapM f l = Ok l'.
Proof.
  induction l as [|x t IH]; simpl; intro H.
  - eauto.
  - destruct (H x (or_introl eq_refl)) as (y & Hy).
    destruct IH as (ys & Hys); [intros; apply H; auto|].
    rewrite Hy, Hys. simpl. eauto.
Qed.

Lemma mapM_first_raise {A B} (f : A -> result B) l1 x l2 e :
  (forall y, In y l1 -> exists z, f y = Ok z) ->
  f x = Raise e ->
  mapM f (l1 ++ x :: l2) = Raise e.
Proof.
  induction l1 as [|y t IH]; simpl; intros H Hx.
  - now rewrite Hx.
  - destruct (H y (or_introl eq_refl)) as (z & Hz).
    rewrite Hz. simpl. rewrite IH; auto.
Qed.

Lemma mapM_seq_nth {B} (f : nat -> result B) n l' d i :
  mapM f (seq 0 n) = Ok l' -> (i < n)%nat -> f i = Ok (nth i l' d).
Proof.
  intros H Hi.
  pose proof (@seq_nth n 0%nat i 0%nat Hi) as E. simpl in E.
  rewrite <- E at 1.
  apply mapM_Ok_nth; trivial. now rewrite length_seq.
Qed.

Lemma fdiv_Ok (x y : Q) : ~ y == 0 -> fdiv x y = Ok (x / y).
Proof.
  intro H. unfold fdiv. apply Qeq_bool_false in H. now rewrite H.
Qed.

Lemma fdiv_Ok_inv (x y q : Q) : fdiv x y = Ok q -> ~ y == 0 /\ q = x / y.
Proof.
  unfold fdiv. destruct (Qeq_bool y 0) eqn:E; intro H; inversion H.
  split; trivial. now apply Qeq_bool_false.
Qed.

Lemma nth_map_in {A B} (f : A -> B) l i d d' :
  (i < length l)%nat -> nth i (map f l) d' = f (nth i l d).
Proof.
  intro H. rewrite (nth_indep _ d' (f d)); [apply map_nth | now rewrite length_map].
Qed.

Lemma mapM2_seq_nth {B} (f : nat -> nat -> result B) n m l' d i j :
  mapM (fun i => mapM (fun j => f i j) (seq 0 m)) (seq 0 n) = Ok l' ->
  (i < n)%nat -> (j < m)%nat ->
  f i j = Ok (nth j (nth i l' []) d).
Proof.
  intros H Hi Hj.
  apply (mapM_seq_nth _ _ _ [] i) in H; trivial.
  now apply (mapM_seq_nth _ _ _ d j) in H.
Qed.

Lemma mapM2_seq_total {B} (f : nat -> nat -> result B) n m :
  (forall i j, (i < n)%nat -> (j < m)%nat -> exists y, f i j = Ok y) ->
  exists l', mapM (fun i => mapM (fun j => f i j) (seq 0 m)) (seq 0 n) = Ok l'.
Proof.
  intro H. apply mapM_total. intros i Hi. apply in_seq in Hi.
  apply mapM_total. intros j Hj. apply in_seq in Hj.
  apply H; lia.
Qed.

Lemma mapM2_seq_shape {B} (f : nat -> nat -> result B) n m l' :
  mapM (fun i => mapM (fun j => f i j) (seq 0 m)) (seq 0 n) = Ok l' ->
  length l' = n /\ forall i, (i < n)%nat -> length (nth i l' []) = m.
Proof.
  intro H. split.
  - apply mapM_Ok_length in H. now rewrite length_seq in H.
  - intros i Hi. apply (mapM_seq_nth _ _ _ [] i) in H; trivial.
    apply mapM_Ok_length in H. now rewrite length_seq in H.
Qed.

Lemma nth_map2_in {A B} (f : A -> B) (l : list (list A)) i j d d' :
  (i < length l)%nat -> (j < length (nth i l []))%nat ->
  nth j (nth i (map (map f) l) []) d' = f (nth j (nth i l []) d).
Proof.
  intros Hi Hj.
  rewrite (nth_map_in (map f) l i []); trivial.
  now apply nth_map_in.
Qed.

(** ** The utility and budget evaluator *)

Section Evaluator.

Variable lib : Library.
Variable bcm : BusinessCycleModel.
Variable parallel_flag : bool.

Lemma R_func_cases (a : Q) :
  (0 <= a -> R_func bcm a = R_save bcm) /\ (a < 0 -> R_func bcm a = R_borrow bcm).
Proof.
  unfold R_func. split; intro H.
  - apply Qle_bool_iff in H. now rewrite H.
  - apply Qle_bool_false in H. now rewrite H.
Qed.

Lemma R_func_nonzero (a : Q) :
  ~ R_save bcm == 0 -> ~ R_borrow bcm == 0 -> ~ R_func bcm a == 0.
Proof.
  unfold R_func. now destruct (Qle_bool 0 a).
Qed.

Lemma U_func_cases (c s : Q) :
  (s == 1 -> U_func lib c s = np_log lib c) /\
  (~ s == 1 -> U_func lib c s = pow lib c (1 - s) / (1 - s)).
Proof.
  unfold U_func. split; intro H.
  - apply Qeq_bool_iff in H. now rewrite H.
  - apply Qeq_bool_false in H. now rewrite H.
Qed.

Lemma util_cell_Ok (a0 s0 a1 : nat) (c0 u0 : Q) :
  util_cell lib bcm a0 s0 a1 = Ok (c0, u0) ->
  let a := nth a1 (a_vals bcm) 0 in
  ~ R_func bcm a == 0 /\
  c0 = nth a0 (a_vals bcm) 0 + nth s0 (y_vals bcm) 0 - a / R_func bcm a /\
  (c0 <= 0 -> u0 = - 1e20) /\
  (0 < c0 -> u0 = U_func lib c0 (sigma bcm)).
Proof.
  unfold util_cell. intro H.
  apply bind_Ok in H as (q & Hq & H).
  apply fdiv_Ok_inv in Hq as (HR & ->).
  inversion H; subst; clear H.
  repeat split; trivial; intro Hc0.
  - apply Qle_bool_iff in Hc0. now rewrite Hc0.
  - apply Qle_bool_false in Hc0. now rewrite Hc0.
Qed.

Lemma util_total :
  (forall a1, (a1 < Na bcm)%nat -> ~ R_func bcm (nth a1 (a_vals bcm) 0) == 0) ->
  exists c u, util lib bcm parallel_flag = Ok (c, u).
Proof.
  intro HR. unfold util.
  destruct (mapM_total
    (fun a0 => mapM (fun s0 => mapM (fun a1 => util_cell lib bcm a0 s0 a1)
       (seq 0 (Na bcm))) (seq 0 (Ns bcm))) (seq 0 (Na bcm))) as (cells & E).
  - intros a0 _. apply mapM_total. intros s0 _. apply mapM_total.
    intros a1 Ha1. apply in_seq in Ha1.
    unfold util_cell. rewrite fdiv_Ok by (apply HR; lia). simpl. eauto.
  - rewrite E. simpl. eauto.
Qed.

Lemma util_cells (c u : list (list (list Q))) (a0 s0 a1 : nat) :
  util lib bcm parallel_flag = Ok (c, u) ->
  (a0 < Na bcm)%nat -> (s0 < Ns bcm)%nat -> (a1 < Na bcm)%nat ->
  util_cell lib bcm a0 s0 a1 =
    Ok (nth a1 (nth s0 (nth a0 c []) []) 0, nth a1 (nth s0 (nth a0 u []) []) 0).
Proof.
  unfold util. intros H Ha0 Hs0 Ha1. apply njit_Ok in H.
  apply bind_Ok in H as (cells & Hcells & H). inversion H; subst; clear H.
  pose proof Hcells as Hlen. apply mapM_Ok_length in Hlen. rewrite length_seq in Hlen.
  apply (mapM_seq_nth _ _ _ [] a0) in Hcells; trivial.
  pose proof (mapM2_seq_shape _ _ _ _ Hcells) as (Hl1 & Hl2).
  apply (mapM2_seq_nth _ _ _ _ (0, 0) s0 a1) in Hcells; trivial.
  rewrite Hcells. f_equal.
  rewrite !(nth_map_in _ _ a0 []) by lia.
  rewrite !(nth_map2_in _ _ s0 a1 (0, 0)); try lia.
  - now destruct (nth a1 (nth s0 (nth a0 cells []) []) (0, 0)).
  - rewrite Hl2; lia.
  - rewrite Hl2; lia.
Qed.

Lemma util_shape (c u : list (list (list Q))) :
  util lib bcm parallel_flag = Ok (c, u) ->
  length c = Na bcm /\
  forall a0 s0, (a0 < Na bcm)%nat -> (s0 < Ns bcm)%nat ->
    length (nth s0 (nth a0 c []) []) = Na bcm.
Proof.
  unfold util. intro H. apply njit_Ok in H.
  apply bind_Ok in H as (cells & Hcells & H). inversion H; subst; clear H.
  pose proof Hcells as Hlen. apply mapM_Ok_length in Hlen. rewrite length_seq in Hlen.
  split; [now rewrite length_map|].
  intros a0 s0 Ha0 Hs0.
  apply (mapM_seq_nth _ _ _ [] a0) in Hcells; trivial.
  pose proof (mapM2_seq_shape _ _ _ _ Hcells) as (Hl1 & Hl2).
  rewrite (nth_map_in _ _ a0 []) by lia.
  rewrite (nth_map_in _ _ s0 []) by lia.
  rewrite length_map. now apply Hl2.
Qed.

End Evaluator.

(** C1.  On every cell of the table, [util] stores the consumption
    [a_vals[a0] + y_vals[s0] - a_vals[a1] / R] with [R] the saving rate for
    a non-negative next asset and the borrowing rate otherwise; the utility
    is the sentinel [-1e20] when that consumption is not positive, and
    otherwise [log c] for [sigma = 1] and [c ** (1 - sigma) / (1 - sigma)]
    for any other [sigma].  With non-zero gross rates the tabulation raises
    nothing, however the kernel was compiled. *)
Theorem util_tabulates_budget_and_utility (lib : Library) (bcm : BusinessCycleModel)
    (parallel_flag : bool) :
  ~ R_save bcm == 0 -> ~ R_borrow bcm == 0 ->
  exists c u, util lib bcm parallel_flag = Ok (c, u) /\
    forall a0 s0 a1, (a0 < Na bcm)%nat -> (s0 < Ns bcm)%nat -> (a1 < Na bcm)%nat ->
      let a := nth a1 (a_vals bcm) 0 in
      let c0 := nth a1 (nth s0 (nth a0 c []) []) 0 in
      let u0 := nth a1 (nth s0 (nth a0 u []) []) 0 in
      exists R,
        (0 <= a /\ R = R_save bcm \/ a < 0 /\ R = R_borrow bcm) /\
        c0 = nth a0 (a_vals bcm) 0 + nth s0 (y_vals bcm) 0 - a / R /\
        (c0 <= 0 -> u0 = - 1e20) /\
        (0 < c0 -> sigma bcm == 1 -> u0 = np_log lib c0) /\
        (0 < c0 -> ~ sigma bcm == 1 ->
           u0 = pow lib c0 (1 - sigma bcm) / (1 - sigma bcm)).
Proof.
  intros Hs Hb.
  destruct (util_total lib bcm parallel_flag) as (c & u & E).
  { intros. now apply R_func_nonzero. }
  exists c, u. split; trivial.
  intros a0 s0 a1 Ha0 Hs0 Ha1 a c0 u0.
  pose proof (util_cells lib bcm parallel_flag c u a0 s0 a1 E Ha0 Hs0 Ha1) as Hcell.
  apply util_cell_Ok in Hcell as (_ & Hc & Hneg & Hpos).
  fold a c0 u0 in Hc, Hneg, Hpos.
  exists (R_func bcm a). repeat split; trivial.
  - destruct (Qlt_le_dec a 0) as [Hlt|Hge]; [right|left]; split; trivial;
      now apply R_func_cases.
  - intros Hc0 Hsig. rewrite (Hpos Hc0). now apply U_func_cases.
  - intros Hc0 Hsig. rewrite (Hpos Hc0). now apply U_func_cases.
Qed.

Lemma util_tabulates_budget_and_utility_witness :
  exists c u, util lib0 toy true = Ok (c, u) /\
    nth 2 (nth 1 (nth 0 c []) []) 0 == - 1.75 /\
    nth 2 (nth 1 (nth 0 u []) []) 0 = - 1e20.
Proof.
  destruct (util_tabulates_budget_and_utility lib0 toy true) as (c & u & E & H).
  - vm_compute. discriminate.
  - vm_compute. discriminate.
  - exists c, u. split; trivial.
    destruct (H 0%nat 1%nat 2%nat) as (R & HR & Hc & Hu & _); try (simpl; lia).
    assert (ER : R = 1).
    { destruct HR as [[_ ->]|[Hlt _]]; [reflexivity|].
      vm_compute in Hlt. discriminate. }
    subst R. simpl in Hc.
    assert (Hv : nth 2 (nth 1 (nth 0 c []) []) 0 == - 1.75)
      by (rewrite Hc; reflexivity).
    split; trivial. apply Hu. rewrite Hv. vm_compute. discriminate.
Defined.

(** ** Printing code *)

Lemma outcome_bind {A B} (m : io A) (k : A -> io B) :
  outcome (io_bind m k) =
  match outcome m with
  | Ok a => outcome (k a)
  | Raise e => Raise e
  | Unspecified => Unspecified
  end.
Proof.
  destruct m as [out [a|e|]]; simpl; trivial. now destruct (k a).
Qed.

Lemma stdout_bind {A B} (m : io A) (k : A -> io B) :
  stdout (io_bind m k) =
  stdout m ++ match outcome m with Ok a => stdout (k a) | _ => [] end.
Proof.
  destruct m as [out [a|e|]]; simpl.
  - now destruct (k a).
  - now rewrite app_nil_r.
  - now rewrite app_nil_r.
Qed.

Lemma outcome_lift {A} (r : result A) : outcome (lift r) = r.
Proof. reflexivity. Qed.

(** ** The constructor *)





Section Constructor.

Variable lib : Library.
Variable o : Options.

(** The part of [__init__] that selects the chain. *)
Lemma init_outcome :
  outcome (__init__ lib o) =
    (periods <- fdiv 52 (o_period o) ;;
     e <- fdiv 1 periods ;;
     a_vals <- linspace (o_a_min o) (o_a_max o) (o_Na o) ;;
     Ok {|
       period := o_period o;
       beta := o_beta o;
       periods_in_a_year := periods;
       R_save := 1 + o_r_save o;
       R_borrow := pow lib (1 + o_r_borrow o) e;
       sigma := o_sigma o;
       Na := Z.to_nat (o_Na o);
       a_min := o_a_min o;
       a_max := o_a_max o;
       P := if o_business_cycle o then P_cycle else P_no_cycle;
       Ns := if o_business_cycle o then 4 else 2;
       Ns_label := if o_business_cycle o
                   then ["ge"; "gu"; "be"; "bu"]%string else ["e"; "u"]%string;
       a_vals := a_vals;
       y_vals := concat (repeat [o_y o; o_y o * o_theta o]
                           (if o_business_cycle o then 2 else 1))
     |}).
Proof.
  unfold __init__.
  destruct (fdiv 52 (o_period o)) as [periods|e|]; [|reflexivity|reflexivity].
  cbn. destruct (fdiv 1 periods) as [ex|e|]; [|reflexivity|reflexivity].
  destruct (o_business_cycle o), (o_verbose o); cbn;
    destruct (linspace (o_a_min o) (o_a_max o) (o_Na o)); reflexivity.
Qed.

Lemma init_fields (m : BusinessCycleModel) :
  outcome (__init__ lib o) = Ok m ->
  linspace (o_a_min o) (o_a_max o) (o_Na o) = Ok (a_vals m) /\
  a_min m = o_a_min o /\ a_max m = o_a_max o /\ Na m = Z.to_nat (o_Na o) /\
  R_save m = 1 + o_r_save o /\
  P m = (if o_business_cycle o then P_cycle else P_no_cycle) /\
  Ns m = (if o_business_cycle o then 4 else 2)%nat /\
  y_vals m = concat (repeat [o_y o; o_y o * o_theta o]
                       (if o_business_cycle o then 2 else 1)).
Proof.
  rewrite init_outcome. intro H.
  apply bind_Ok in H as (periods & _ & H).
  apply bind_Ok in H as (e & _ & H).
  apply bind_Ok in H as (av & Hav & H).
  inversion H; subst; clear H. simpl. repeat split; trivial.
Qed.

End Constructor.




(** ** Reductions: [max], [argmax], [argwhere] *)

Lemma fold_max_spec (l : list nat) (i : nat) :
  In (fold_left Nat.max l i) (i :: l) /\
  forall j, In j (i :: l) -> (j <= fold_left Nat.max l i)%nat.
Proof.
  revert i. induction l as [|x t IH]; intro i; simpl.
  - split; [auto | intros j [<-|[]]; lia].
  - destruct (IH (Nat.max i x)) as (Hin & Hmax). split.
    + destruct Hin as [E|Hin]; [|auto].
      rewrite <- E. destruct (Nat.max_spec i x) as [[_ ->]|[_ ->]]; auto.
    + intros j Hj. assert (Hm : (Nat.max i x <= fold_left Nat.max t (Nat.max i x))%nat)
        by (apply Hmax; simpl; auto).
      destruct Hj as [<-|[<-|Hj]]; [lia | lia |].
      apply Hmax. simpl. auto.
Qed.

Lemma argwhere_In (row : list Q) (i : nat) :
  In i (argwhere row) <-> (i < length row)%nat /\ 0 < nth i row 0.
Proof.
  unfold argwhere. rewrite filter_In, in_seq, Qlt_bool_iff. intuition lia.
Qed.

Lemma argwhere_max_Ok (row : list Q) (k : nat) :
  argwhere_max row = Ok k ->
  (k < length row)%nat /\ 0 < nth k row 0 /\
  forall j, (j < length row)%nat -> 0 < nth j row 0 -> (j <= k)%nat.
Proof.
  unfold argwhere_max. destruct (argwhere row) as [|i l] eqn:E; [discriminate|].
  intro H. inversion H as [Hk]. clear H.
  destruct (fold_max_spec l i) as (Hin & Hmax). rewrite Hk in Hin, Hmax |- *.
  rewrite <- E in Hin, Hmax.
  apply argwhere_In in Hin as (H1 & H2). split; [|split]; trivial.
  intros j Hj Hpos. apply Hmax. now apply argwhere_In.
Qed.

Lemma argwhere_max_total (row : list Q) (i : nat) :
  (i < length row)%nat -> 0 < nth i row 0 -> exists k, argwhere_max row = Ok k.
Proof.
  intros Hi Hpos. unfold argwhere_max.
  destruct (argwhere row) as [|j l] eqn:E; [|eauto].
  assert (Hin : In i (argwhere row)) by now apply argwhere_In.
  rewrite E in Hin. destruct Hin.
Qed.

Lemma argwhere_max_Raise (row : list Q) :
  (forall i, (i < length row)%nat -> nth i row 0 <= 0) ->
  argwhere_max row = Raise empty_reduction.
Proof.
  intro H. unfold argwhere_max.
  destruct (argwhere row) as [|j l] eqn:E; trivial.
  assert (Hin : In j (argwhere row)) by (rewrite E; simpl; auto).
  apply argwhere_In in Hin as (Hj & Hpos).
  exfalso. apply (Qlt_not_le _ _ Hpos). now apply H.
Qed.

(** [max_scan] continues a scan that has read [pre], holding its maximum
    and the first index where it is attained. *)
Lemma max_scan_spec (t pre : list Q) (best : Q) (bi : nat) :
  (bi < length pre)%nat ->
  best = nth bi pre 0 ->
  (forall j, (j < length pre)%nat -> nth j pre 0 <= best) ->
  (forall j, (j < bi)%nat -> nth j pre 0 < best) ->
  let r := max_scan t (length pre) best bi in
  let l := pre ++ t in
  (snd r < length l)%nat /\
  fst r = nth (snd r) l 0 /\
  (forall j, (j < length l)%nat -> nth j l 0 <= fst r) /\
  (forall j, (j < snd r)%nat -> nth j l 0 < fst r).
Proof.
  revert pre best bi. induction t as [|x t IH]; intros pre best bi Hbi Hbest Hle Hlt; simpl.
  - rewrite app_nil_r. auto.
  - assert (Hlen : length (pre ++ [x]) = S (length pre))
      by (rewrite length_app; simpl; lia).
    assert (Hx : nth (length pre) (pre ++ [x]) 0 = x)
      by (rewrite app_nth2, Nat.sub_diag by lia; reflexivity).
    replace (pre ++ x :: t) with ((pre ++ [x]) ++ t)
      by (rewrite <- app_assoc; reflexivity).
    destruct (Qlt_bool best x) eqn:E.
    + apply Qlt_bool_iff in E.
      rewrite <- Hlen. apply IH.
      * lia.
      * now rewrite Hx.
      * intros j Hj. rewrite Hlen in Hj.
        destruct (Nat.eq_dec j (length pre)) as [->|Hne].
        -- rewrite Hx. apply Qle_refl.
        -- rewrite app_nth1 by lia. apply Qlt_le_weak.
           apply Qle_lt_trans with best; trivial. apply Hle. lia.
      * intros j Hj. rewrite app_nth1 by lia.
        apply Qle_lt_trans with best; trivial. now apply Hle.
    + apply Qlt_bool_false in E.
      rewrite <- Hlen. apply IH.
      * lia.
      * rewrite app_nth1 by lia. trivial.
      * intros j Hj. rewrite Hlen in Hj.
        destruct (Nat.eq_dec j (length pre)) as [->|Hne].
        -- now rewrite Hx.
        -- rewrite app_nth1 by lia. apply Hle. lia.
      * intros j Hj. rewrite app_nth1 by lia. now apply Hlt.
Qed.

Lemma np_max_argmax (l : list Q) :
  l <> [] ->
  exists m k, np_max l = Ok m /\ np_argmax l = Ok k /\
    (k < length l)%nat /\ m = nth k l 0 /\
    (forall j, (j < length l)%nat -> nth j l 0 <= m) /\
    (forall j, (j < k)%nat -> nth j l 0 < m).
Proof.
  destruct l as [|x t]; [congruence|]. intros _.
  exists (fst (max_scan t 1 x 0)), (snd (max_scan t 1 x 0)).
  split; [reflexivity|]. split; [reflexivity|].
  apply (max_scan_spec t [x] x 0%nat); simpl.
  - lia.
  - reflexivity.
  - intros [|j] Hj; [apply Qle_refl | lia].
  - intros j Hj. lia.
Qed.

(** ** Sums and dot products *)

Lemma Qsum_map2_index (x y : list Q) :
  length x = length y ->
  Qsum (map2 Qmult x y) =
  Qsum (map (fun s => nth s x 0 * nth s y 0) (seq 0 (length x))).
Proof.
  revert y. induction x as [|a x IH]; intros [|b y] H; simpl in *; try discriminate; trivial.
  rewrite <- seq_shift, map_map. f_equal. apply IH. lia.
Qed.

Lemma Qsum_scale (b : Q) (x y : list Q) :
  Qsum (map2 Qmult (map (Qmult b) x) y) == b * Qsum (map2 Qmult x y).
Proof.
  revert y. induction x as [|a x IH]; intros [|c y]; simpl; try ring.
  rewrite IH. ring.
Qed.

Lemma dot_scaled_row (bcm : BusinessCycleModel) (v : list (list Q)) (s0 a1 : nat) :
  length (nth s0 (P bcm) []) = Ns bcm ->
  length (nth a1 v []) = Ns bcm ->
  dot (map (Qmult (beta bcm)) (nth s0 (P bcm) [])) (nth a1 v [])
  == beta bcm * expectation bcm v s0 a1.
Proof.
  intros HP Hv. unfold dot, expectation.
  rewrite Qsum_scale, Qsum_map2_index by congruence.
  now rewrite HP.
Qed.

(** ** The Bellman operator *)

Section Bellman.

Variable bcm : BusinessCycleModel.
Variable parallel_flag : bool.
Variable v : list (list Q).
Variables u c : list (list (list Q)).

(** What one cell of [T] returns, in the terms of the code. *)
Lemma T_cell_Ok (a0 s0 : nat) (v_max : Q) (a1 : nat) (g : Q) :
  T_cell bcm v u c a0 s0 = Ok (v_max, a1, g) ->
  let row := nth s0 (nth a0 c []) [] in
  let value := fun j =>
    nth j (nth s0 (nth a0 u []) []) 0
    + dot (map (Qmult (beta bcm)) (nth s0 (P bcm) [])) (nth j v []) in
  exists Na1, argwhere_max row = Ok Na1 /\
    (a1 <= Na1)%nat /\ v_max = value a1 /\
    (forall j, (j <= Na1)%nat -> value j <= v_max) /\
    (forall j, (j < a1)%nat -> value j < v_max) /\
    ~ R_func bcm (nth a1 (a_vals bcm) 0) == 0 /\
    g = budget bcm a0 s0 a1.
Proof.
  intros H row value. unfold T_cell in H.
  apply bind_Ok in H as (Na1 & HNa1 & H).
  set (v_vals := map _ (seq 0 (Na1 + 1))) in H.
  assert (Hlen : length v_vals = S Na1)
    by (unfold v_vals; rewrite length_map, length_seq; lia).
  assert (Hnth : forall j, (j <= Na1)%nat -> nth j v_vals 0 = value j).
  { intros j Hj. unfold v_vals.
    rewrite (nth_map_in _ _ j 0%nat) by (rewrite length_seq; lia).
    rewrite seq_nth by lia. reflexivity. }
  destruct (np_max_argmax v_vals) as (m & k & Em & Ek & Hk & Hm & Hle & Hlt).
  { intro E. rewrite E in Hlen. discriminate. }
  rewrite Em, Ek in H. simpl in H.
  apply bind_Ok in H as (q & Hq & H).
  apply fdiv_Ok_inv in Hq as (HR & ->).
  inversion H; subst v_max a1 g; clear H.
  exists Na1. split; trivial.
  split; [lia|]. split; [rewrite Hm; apply Hnth; lia|].
  split; [intros j Hj; rewrite <- Hnth by lia; apply Hle; lia|].
  split; [intros j Hj; rewrite <- Hnth by lia; now apply Hlt|].
  split; trivial.
Qed.

Lemma T_cell_total (a0 s0 : nat) :
  (exists a1, (a1 < length (nth s0 (nth a0 c []) []))%nat
              /\ 0 < nth a1 (nth s0 (nth a0 c []) []) 0) ->
  (forall a1, (a1 < length (nth s0 (nth a0 c []) []))%nat ->
     ~ R_func bcm (nth a1 (a_vals bcm) 0) == 0) ->
  exists r, T_cell bcm v u c a0 s0 = Ok r.
Proof.
  intros (a1 & Ha1 & Hpos) HR. unfold T_cell.
  destruct (argwhere_max_total _ a1 Ha1 Hpos) as (Na1 & E).
  rewrite E. simpl.
  apply argwhere_max_Ok in E as (HNa1 & _).
  set (v_vals := map _ (seq 0 (Na1 + 1))).
  assert (Hlen : length v_vals = S Na1)
    by (unfold v_vals; rewrite length_map, length_seq; lia).
  destruct (np_max_argmax v_vals) as (m & k & Em & Ek & Hk & _).
  { intro E. rewrite E in Hlen. discriminate. }
  rewrite Em, Ek. simpl.
  rewrite fdiv_Ok by (apply HR; lia). simpl. eauto.
Qed.

Lemma T_cells (v_new : list (list Q)) (policy : list (list nat))
    (gamma : list (list Q)) (a0 s0 : nat) :
  T bcm parallel_flag v u c = Ok (v_new, policy, gamma) ->
  (a0 < Na bcm)%nat -> (s0 < Ns bcm)%nat ->
  T_cell bcm v u c a0 s0 =
    Ok (nth s0 (nth a0 v_new []) 0, nth s0 (nth a0 policy []) 0%nat,
        nth s0 (nth a0 gamma []) 0).
Proof.
  unfold T. intros H Ha0 Hs0. apply njit_Ok in H.
  apply bind_Ok in H as (cells & Hcells & H). inversion H; subst; clear H.
  pose proof (mapM2_seq_shape _ _ _ _ Hcells) as (Hl1 & Hl2).
  apply (mapM2_seq_nth _ _ _ _ (0, 0%nat, 0) a0 s0) in Hcells; trivial.
  rewrite Hcells.
  rewrite !(nth_map2_in _ _ a0 s0 (0, 0%nat, 0)); try lia; try (rewrite Hl2; lia).
  now destruct (nth s0 (nth a0 cells []) (0, 0%nat, 0)) as [[? ?] ?].
Qed.

Lemma T_shape (v_new : list (list Q)) (policy : list (list nat))
    (gamma : list (list Q)) :
  T bcm parallel_flag v u c = Ok (v_new, policy, gamma) ->
  shape v_new (Na bcm) (Ns bcm) /\ shape policy (Na bcm) (Ns bcm) /\
  shape gamma (Na bcm) (Ns bcm).
Proof.
  unfold T. intro H. apply njit_Ok in H.
  apply bind_Ok in H as (cells & Hcells & H). inversion H; subst; clear H.
  pose proof (mapM2_seq_shape _ _ _ _ Hcells) as (Hl1 & Hl2).
  unfold shape. rewrite !length_map.
  repeat split; trivial; intros i Hi;
    rewrite (nth_map_in _ _ i []) by lia; rewrite length_map; now apply Hl2.
Qed.

Lemma T_total :
  (forall a0 s0, (a0 < Na bcm)%nat -> (s0 < Ns bcm)%nat ->
     exists r, T_cell bcm v u c a0 s0 = Ok r) ->
  exists v_new policy gamma, T bcm parallel_flag v u c = Ok (v_new, policy, gamma).
Proof.
  intro H. unfold T.
  destruct (mapM2_seq_total (T_cell bcm v u c) (Na bcm) (Ns bcm) H) as (cells & E).
  rewrite E. simpl. eauto.
Qed.

End Bellman.

Lemma util_rates_nonzero (lib : Library) (bcm : BusinessCycleModel)
    (parallel_flag : bool)
    (c u : list (list (list Q))) (a0 s0 a1 : nat) :
  util lib bcm parallel_flag = Ok (c, u) ->
  (a0 < Na bcm)%nat -> (s0 < Ns bcm)%nat -> (a1 < Na bcm)%nat ->
  ~ R_func bcm (nth a1 (a_vals bcm) 0) == 0.
Proof.
  intros E Ha0 Hs0 Ha1.
  pose proof (util_cells lib bcm parallel_flag c u a0 s0 a1 E Ha0 Hs0 Ha1) as H.
  now apply util_cell_Ok in H.
Qed.

(** C2.  On the tables of [util], for a value function [v] over the grid
    and whenever every cell has some next asset with positive consumption,
    [T] returns; in each cell [(a0, s0)] the new value is the maximum, over
    the next-asset indices from 0 to the last one [a1_max] with positive
    consumption, of [u[a0,s0,a1] + beta * (P[s0] . v[a1,:])]; the policy is
    the first index attaining it; [gamma] is the budget identity at that
    index.  Each cell of the result is [T_cell] applied to the old [v]: no
    cell reads the new value of another. *)
Theorem T_is_the_bellman_update (lib : Library) (bcm : BusinessCycleModel)
    (parallel_flag : bool)
    (v : list (list Q)) (c u : list (list (list Q))) :
  util lib bcm parallel_flag = Ok (c, u) ->
  shape v (Na bcm) (Ns bcm) ->
  shape (P bcm) (Ns bcm) (Ns bcm) ->
  (forall a0 s0, (a0 < Na bcm)%nat -> (s0 < Ns bcm)%nat ->
     exists a1, (a1 < Na bcm)%nat /\ 0 < nth a1 (nth s0 (nth a0 c []) []) 0) ->
  exists v_new policy gamma,
    T bcm parallel_flag v u c = Ok (v_new, policy, gamma) /\
    forall a0 s0, (a0 < Na bcm)%nat -> (s0 < Ns bcm)%nat ->
      let a1 := nth s0 (nth a0 policy []) 0%nat in
      let new := nth s0 (nth a0 v_new []) 0 in
      exists a1_max,
        (a1_max < Na bcm)%nat /\
        0 < nth a1_max (nth s0 (nth a0 c []) []) 0 /\
        (forall j, (j < Na bcm)%nat ->
           0 < nth j (nth s0 (nth a0 c []) []) 0 -> (j <= a1_max)%nat) /\
        (a1 <= a1_max)%nat /\
        new == candidate bcm v u a0 s0 a1 /\
        (forall j, (j <= a1_max)%nat -> candidate bcm v u a0 s0 j <= new) /\
        (forall j, (j < a1)%nat -> candidate bcm v u a0 s0 j < new) /\
        nth s0 (nth a0 gamma []) 0 = budget bcm a0 s0 a1 /\
        T_cell bcm v u c a0 s0 = Ok (new, a1, nth s0 (nth a0 gamma []) 0).
Proof.
  intros Eu (Hv1 & Hv2) (HP1 & HP2) Hfeas.
  pose proof (util_shape lib bcm parallel_flag c u Eu) as (_ & Hrow).
  destruct (T_total bcm parallel_flag v u c) as (v_new & policy & gamma & ET).
  { intros a0 s0 Ha0 Hs0. apply T_cell_total.
    - destruct (Hfeas a0 s0 Ha0 Hs0) as (a1 & Ha1 & Hpos).
      exists a1. rewrite Hrow by trivial. auto.
    - intros a1 Ha1. rewrite Hrow in Ha1 by trivial.
      now apply (util_rates_nonzero lib bcm parallel_flag c u a0 s0 a1). }
  exists v_new, policy, gamma. split; trivial.
  intros a0 s0 Ha0 Hs0 a1 new.
  pose proof (T_cells bcm parallel_flag v u c v_new policy gamma a0 s0
                ET Ha0 Hs0) as Hcell.
  pose proof Hcell as Hsame. fold a1 new in Hsame.
  apply T_cell_Ok in Hcell
    as (Na1 & HNa1 & Hle1 & Hnew & Hmax & Hfirst & _ & Hg).
  fold a1 new in Hle1, Hnew, Hmax, Hfirst, Hg.
  apply argwhere_max_Ok in HNa1 as (Hlt & Hpos & Hlast).
  rewrite Hrow in Hlt, Hlast by trivial.
  assert (Hcand : forall j, (j <= Na1)%nat ->
    nth j (nth s0 (nth a0 u []) []) 0
    + dot (map (Qmult (beta bcm)) (nth s0 (P bcm) [])) (nth j v [])
    == candidate bcm v u a0 s0 j).
  { intros j Hj. unfold candidate.
    rewrite dot_scaled_row; [reflexivity | now apply HP2 | apply Hv2; lia]. }
  exists Na1. repeat split; trivial.
  - rewrite Hnew. apply Hcand. lia.
  - intros j Hj. rewrite <- Hcand by trivial. now apply Hmax.
  - intros j Hj. rewrite <- Hcand by lia. now apply Hfirst.
Qed.

Lemma T_is_the_bellman_update_witness :
  exists v_new policy gamma,
    T toy true (zeros 3 2) toy_u toy_c = Ok (v_new, policy, gamma) /\
    nth 0 (nth 2 policy []) 7%nat = 0%nat /\
    nth 0 (nth 2 v_new []) 0 == - (1 # 3).
Proof.
  destruct (T_is_the_bellman_update lib0 toy true (zeros 3 2) toy_c toy_u)
    as (v_new & policy & gamma & ET & H).
  - vm_compute. reflexivity.
  - split; [reflexivity|]. intros [|[|[|i]]] Hi; simpl in *; trivial; lia.
  - split; [reflexivity|]. intros [|[|i]] Hi; simpl in *; trivial; lia.
  - intros a0 s0 Ha0 Hs0. exists 0%nat. split; [simpl; lia|].
    destruct a0 as [|[|[|a0]]]; [| | |simpl in Ha0; lia];
      (destruct s0 as [|[|s0]]; [| |simpl in Hs0; lia]); reflexivity.
  - exists v_new, policy, gamma. split; trivial.
    pose proof ET as E. vm_compute in E.
    inversion E; subst. split; vm_compute; reflexivity.
Defined.

(** ** Feasible choices *)

Lemma Qdiv_lt_compat_pos (x y r : Q) : 0 < r -> x < y -> x / r < y / r.
Proof.
  intros Hr H. unfold Qdiv. apply Qmult_lt_compat_r; trivial.
  now apply Qinv_lt_0_compat.
Qed.

Lemma Qdiv_pos_sign (x r : Q) : 0 < r -> (0 <= x -> 0 <= x / r) /\ (x < 0 -> x / r < 0).
Proof.
  intro Hr. pose proof (Qinv_lt_0_compat _ Hr) as Hi. unfold Qdiv. split; intro H.
  - apply Qmult_le_0_compat; trivial. now apply Qlt_le_weak.
  - setoid_replace 0 with (0 * / r) by ring. now apply Qmult_lt_compat_r.
Qed.

(** The present cost [x / R(x)] of next assets [x] increases with [x]. *)
Lemma discounted_increasing (bcm : BusinessCycleModel) (x y : Q) :
  0 < R_save bcm -> 0 < R_borrow bcm -> x < y ->
  x / R_func bcm x < y / R_func bcm y.
Proof.
  intros Hs Hb Hxy.
  destruct (Qlt_le_dec x 0) as [Hx|Hx], (Qlt_le_dec y 0) as [Hy|Hy].
  - rewrite (proj2 (R_func_cases bcm x) Hx), (proj2 (R_func_cases bcm y) Hy).
    now apply Qdiv_lt_compat_pos.
  - rewrite (proj2 (R_func_cases bcm x) Hx), (proj1 (R_func_cases bcm y) Hy).
    apply Qlt_le_trans with 0.
    + now apply (Qdiv_pos_sign x).
    + now apply (Qdiv_pos_sign y).
  - exfalso. apply (Qlt_irrefl 0).
    apply Qle_lt_trans with x; trivial. now apply Qlt_trans with y.
  - rewrite (proj1 (R_func_cases bcm x) Hx), (proj1 (R_func_cases bcm y) Hy).
    now apply Qdiv_lt_compat_pos.
Qed.

Lemma util_consumption (lib : Library) (bcm : BusinessCycleModel)
    (parallel_flag : bool)
    (c u : list (list (list Q))) (a0 s0 a1 : nat) :
  util lib bcm parallel_flag = Ok (c, u) ->
  (a0 < Na bcm)%nat -> (s0 < Ns bcm)%nat -> (a1 < Na bcm)%nat ->
  nth a1 (nth s0 (nth a0 c []) []) 0 = budget bcm a0 s0 a1.
Proof.
  intros E Ha0 Hs0 Ha1.
  pose proof (util_cells lib bcm parallel_flag c u a0 s0 a1 E Ha0 Hs0 Ha1) as H.
  now apply util_cell_Ok in H.
Qed.

(** C9.  With an ascending asset grid and positive gross rates, tabulated
    consumption is strictly decreasing in the next-asset index; so a
    positive consumption at [j] gives a positive consumption at every
    [i < j], and the indices of positive consumption are exactly those from
    0 up to the last one, which is what the scan of [T] computes. *)
Theorem feasible_choices_are_contiguous (lib : Library) (bcm : BusinessCycleModel)
    (parallel_flag : bool)
    (c u : list (list (list Q))) :
  util lib bcm parallel_flag = Ok (c, u) ->
  (forall i j, (i < j)%nat -> (j < Na bcm)%nat ->
     nth i (a_vals bcm) 0 < nth j (a_vals bcm) 0) ->
  0 < R_save bcm -> 0 < R_borrow bcm ->
  forall a0 s0, (a0 < Na bcm)%nat -> (s0 < Ns bcm)%nat ->
    let row := nth s0 (nth a0 c []) [] in
    (forall i j, (i < j)%nat -> (j < Na bcm)%nat -> nth j row 0 < nth i row 0) /\
    (forall i j, (i < j)%nat -> (j < Na bcm)%nat ->
       0 < nth j row 0 -> 0 < nth i row 0) /\
    (forall a1_max, argwhere_max row = Ok a1_max ->
       forall a1, (a1 < Na bcm)%nat -> (0 < nth a1 row 0 <-> (a1 <= a1_max)%nat)).
Proof.
  intros E Hasc Hs Hb a0 s0 Ha0 Hs0 row.
  assert (Hdec : forall i j, (i < j)%nat -> (j < Na bcm)%nat ->
                             nth j row 0 < nth i row 0).
  { intros i j Hij Hj. unfold row.
    rewrite (util_consumption lib bcm parallel_flag c u a0 s0 j E),
      (util_consumption lib bcm parallel_flag c u a0 s0 i E);
      trivial; try lia.
    unfold budget.
    pose proof (discounted_increasing bcm _ _ Hs Hb (Hasc i j Hij Hj)) as Hd.
    revert Hd.
    generalize (nth i (a_vals bcm) 0 / R_func bcm (nth i (a_vals bcm) 0)).
    generalize (nth j (a_vals bcm) 0 / R_func bcm (nth j (a_vals bcm) 0)).
    intros qj qi Hd. lra. }
  split; trivial. split.
  - intros i j Hij Hj Hpos. apply Qlt_trans with (nth j row 0); auto.
  - intros a1_max Hmax a1 Ha1.
    pose proof (util_shape lib bcm parallel_flag c u E) as (_ & Hrow).
    apply argwhere_max_Ok in Hmax as (Hlt & Hpos & Hlast).
    specialize (Hrow a0 s0 Ha0 Hs0). fold row in Hrow. rewrite Hrow in Hlt, Hlast.
    split; intro H.
    + now apply Hlast.
    + destruct (Nat.eq_dec a1 a1_max) as [->|Hne]; trivial.
      apply Qlt_trans with (nth a1_max row 0); trivial.
      apply Hdec; lia.
Qed.

Lemma feasible_choices_are_contiguous_witness :
  let row := nth 1 (nth 1 toy_c []) [] in
  argwhere_max row = Ok 1%nat /\
  0 < nth 0 row 0 /\ 0 < nth 1 row 0 /\ ~ 0 < nth 2 row 0.
Proof.
  intro row.
  assert (Hmax : argwhere_max row = Ok 1%nat) by (vm_compute; reflexivity).
  destruct (feasible_choices_are_contiguous lib0 toy true toy_c toy_u)
    with (a0 := 1%nat) (s0 := 1%nat) as (_ & _ & H).
  - vm_compute. reflexivity.
  - intros i j Hij Hj. simpl in Hj.
    destruct j as [|[|[|j]]]; [lia| | |lia].
    + assert (i = 0)%nat as -> by lia. reflexivity.
    + destruct i as [|[|i]]; [reflexivity|reflexivity|lia].
  - reflexivity.
  - reflexivity.
  - simpl; lia.
  - simpl; lia.
  - fold row in H. split; trivial.
    split; [apply (H 1%nat Hmax 0%nat); simpl; lia|].
    split; [apply (H 1%nat Hmax 1%nat); simpl; lia|].
    intro H2. apply (H 1%nat Hmax 2%nat) in H2; simpl; lia.
Defined.

(** ** The asset grid *)

Lemma linspace_cases (start stop : Q) (num : Z) (l : list Q) :
  linspace start stop num = Ok l ->
  let step := (stop - start) / inject_Z (num - 1) in
  let f := fun i => inject_Z (Z.of_nat i) * step + start in
  l = [] /\ num = 0%Z \/
  l = [f 0%nat] /\ num = 1%Z \/
  exists k, l = map f (seq 0 (S k)) ++ [stop] /\ num = Z.of_nat (S (S k)).
Proof.
  intros H step f. unfold linspace in H.
  destruct (num <? 0)%Z eqn:E; [discriminate|].
  apply Z.ltb_ge in E. inversion H as [Hl]. clear H.
  fold step. fold f.
  destruct (Z.to_nat num) as [|[|k]] eqn:En.
  - left. assert (num = 0%Z) as -> by lia. auto.
  - right; left. assert (num = 1%Z) as -> by lia. auto.
  - right; right. exists k.
    assert (Hnum : num = Z.of_nat (S (S k))) by lia.
    split; trivial.
    assert ((1 <? num)%Z = true) as -> by (apply Z.ltb_lt; lia).
    rewrite (seq_S (S k)), map_app. simpl map at 2.
    now rewrite removelast_last.
Qed.

Lemma linspace_length (start stop : Q) (num : Z) (l : list Q) :
  linspace start stop num = Ok l -> length l = Z.to_nat num.
Proof.
  intro H. destruct (linspace_cases _ _ _ _ H) as [[-> ->]|[[-> ->]|(k & -> & ->)]];
    trivial.
  rewrite length_app, length_map, length_seq. simpl length. lia.
Qed.

Lemma linspace_first (start stop : Q) (num : Z) (l : list Q) :
  linspace start stop num = Ok l -> (0 < num)%Z -> nth 0 l 0 == start.
Proof.
  intros H Hn.
  destruct (linspace_cases _ _ _ _ H) as [[-> ->]|[[-> ->]|(k & -> & ->)]].
  - lia.
  - simpl. ring.
  - simpl. ring.
Qed.

Lemma linspace_lower_bound (start stop : Q) (num : Z) (l : list Q) (i : nat) :
  linspace start stop num = Ok l -> start <= stop ->
  (i < length l)%nat -> start <= nth i l 0.
Proof.
  intros H Hle Hi.
  destruct (linspace_cases _ _ _ _ H) as [[-> ->]|[[-> ->]|(k & -> & ->)]].
  - simpl in Hi. lia.
  - destruct i as [|i]; [|simpl in Hi; lia]. simpl.
    setoid_replace (inject_Z 0 * ((stop - start) / inject_Z (1 - 1)) + start)
      with start by ring.
    apply Qle_refl.
  - rewrite length_app, length_map, length_seq in Hi. simpl length in Hi.
    destruct (Nat.eq_dec i (S k)) as [->|Hne].
    + rewrite app_nth2; rewrite length_map, length_seq; [|lia].
      now rewrite Nat.sub_diag.
    + rewrite app_nth1 by (rewrite length_map, length_seq; lia).
      rewrite (nth_map_in _ _ i 0%nat) by (rewrite length_seq; lia).
      rewrite seq_nth by lia. simpl Nat.add.
      set (d := inject_Z (Z.of_nat (S (S k)) - 1)).
      assert (Hd : 0 < d).
      { unfold d, Qlt, inject_Z. cbn [Qnum Qden]. lia. }
      assert (Hstep : 0 <= (stop - start) / d).
      { apply Qle_shift_div_l; trivial. lra. }
      assert (Hi0 : 0 <= inject_Z (Z.of_nat i)).
      { unfold Qle, inject_Z. cbn [Qnum Qden]. lia. }
      pose proof (Qmult_le_0_compat _ _ Hi0 Hstep) as Hprod. revert Hprod.
      fold d. generalize (inject_Z (Z.of_nat i) * ((stop - start) / d)).
      intros q Hq. lra.
Qed.

Lemma R_func_Qeq (bcm : BusinessCycleModel) (x y : Q) :
  x == y -> R_func bcm x = R_func bcm y.
Proof.
  intro E. unfold R_func.
  destruct (Qle_bool 0 x) eqn:Ex, (Qle_bool 0 y) eqn:Ey; trivial.
  - apply Qle_bool_iff in Ex. apply Qle_bool_false in Ey. lra.
  - apply Qle_bool_iff in Ey. apply Qle_bool_false in Ex. lra.
Qed.

(** C10 (as amended).  For a constructed model whose bounds satisfy
    [a_min <= a_max], and under the precondition
    [y_vals[s0] + a_min * (1 - 1 / R(a_min)) > 0] in every state,
    next-asset index 0 yields a positive consumption in every cell, so the
    scan of [T] never meets an empty set and [T], however it was compiled,
    returns on every value function over the grid. *)
Theorem T_total_on_ascending_grids (lib : Library) (o : Options)
    (m : BusinessCycleModel)
    (parallel_flag : bool) (c u : list (list (list Q))) :
  outcome (__init__ lib o) = Ok m ->
  o_a_min o <= o_a_max o ->
  util lib m parallel_flag = Ok (c, u) ->
  (forall s0, (s0 < Ns m)%nat ->
     0 < nth s0 (y_vals m) 0 + a_min m * (1 - 1 / R_func m (a_min m))) ->
  (forall a0 s0, (a0 < Na m)%nat -> (s0 < Ns m)%nat ->
     0 < nth 0 (nth s0 (nth a0 c []) []) 0) /\
  (forall v, shape v (Na m) (Ns m) ->
     exists v_new policy gamma, T m parallel_flag v u c = Ok (v_new, policy, gamma)).
Proof.
  intros Hm Hle Hu Hpre.
  apply init_fields in Hm as (Hgrid & Hmin & _ & HNa & _).
  pose proof (linspace_length _ _ _ _ Hgrid) as Hlen. rewrite <- HNa in Hlen.
  pose proof (util_shape lib m parallel_flag c u Hu) as (_ & Hrow).
  assert (Hpos : forall a0 s0, (a0 < Na m)%nat -> (s0 < Ns m)%nat ->
                   0 < nth 0 (nth s0 (nth a0 c []) []) 0).
  { intros a0 s0 Ha0 Hs0.
    rewrite (util_consumption lib m parallel_flag c u a0 s0 0 Hu) by (trivial; lia).
    unfold budget.
    assert (H0 : nth 0 (a_vals m) 0 == a_min m).
    { rewrite Hmin. apply (linspace_first _ _ _ _ Hgrid). lia. }
    rewrite (R_func_Qeq m _ _ H0), H0.
    assert (Hlow : a_min m <= nth a0 (a_vals m) 0).
    { rewrite Hmin. apply (linspace_lower_bound _ _ _ _ _ Hgrid Hle). lia. }
    specialize (Hpre s0 Hs0).
    setoid_replace (a_min m * (1 - 1 / R_func m (a_min m)))
      with (a_min m - a_min m / R_func m (a_min m)) in Hpre
      by (unfold Qdiv; ring).
    revert Hpre. generalize (a_min m / R_func m (a_min m)). intros q Hpre.
    lra. }
  split; trivial.
  intros v _. apply T_total. intros a0 s0 Ha0 Hs0.
  apply T_cell_total.
  - exists 0%nat. rewrite Hrow by trivial. split; [lia | auto].
  - intros a1 Ha1. rewrite Hrow in Ha1 by trivial.
    now apply (util_rates_nonzero lib m parallel_flag c u a0 s0 a1).
Qed.

Lemma T_total_on_ascending_grids_witness :
  exists m c u v_new policy gamma,
    outcome (__init__ lib0 toy_options) = Ok m /\
    util lib0 m true = Ok (c, u) /\
    T m true (zeros 3 2) u c = Ok (v_new, policy, gamma).
Proof.
  pose (m := from_Ok toy (outcome (__init__ lib0 toy_options))).
  pose (cu := from_Ok ([], []) (util lib0 m true)).
  destruct (T_total_on_ascending_grids lib0 toy_options m true (fst cu) (snd cu))
    as (_ & H).
  - vm_compute. reflexivity.
  - vm_compute. discriminate.
  - vm_compute. reflexivity.
  - intros s0 Hs0.
    destruct s0 as [|[|s0]]; [| |simpl in Hs0; lia]; reflexivity.
  - destruct (H (zeros 3 2)) as (v_new & policy & gamma & E).
    + split; [reflexivity|]. intros [|[|[|i]]] Hi; simpl in *; trivial; lia.
    + exists m, (fst cu), (snd cu), v_new, policy, gamma.
      split; [vm_compute; reflexivity|].
      split; [vm_compute; reflexivity|]. exact E.
Defined.

(** With [a_min = 0 > a_max = -8] the precondition holds in both states,
    yet in the cell of the second grid point and the first state no next
    asset has a positive consumption, index 0 included: the set whose
    maximum the scan of [T] takes is empty there. *)
Lemma descending_grid_has_an_empty_feasible_set :
  exists m c u,
    outcome (__init__ lib0 reversed_options) = Ok m /\
    (forall parallel_flag, util lib0 m parallel_flag = Ok (c, u)) /\
    (forall s0, (s0 < Ns m)%nat ->
       0 < nth s0 (y_vals m) 0 + a_min m * (1 - 1 / R_func m (a_min m))) /\
    nth 0 (nth 0 (nth 1 c []) []) 0 <= 0 /\
    (forall a1, (a1 < Na m)%nat -> nth a1 (nth 0 (nth 1 c []) []) 0 <= 0) /\
    argwhere (nth 0 (nth 1 c []) []) = [].
Proof.
  pose (m := from_Ok toy (outcome (__init__ lib0 reversed_options))).
  pose (cu := from_Ok ([], []) (util lib0 m true)).
  exists m, (fst cu), (snd cu).
  split; [vm_compute; reflexivity|].
  split; [intros [|]; vm_compute; reflexivity|].
  split.
  - intros s0 Hs0.
    destruct s0 as [|[|s0]]; [| |simpl in Hs0; lia]; reflexivity.
  - split; [vm_compute; discriminate|]. split; [|vm_compute; reflexivity].
    intros [|[|a1]] Ha1; [| |simpl in Ha1; lia]; vm_compute; discriminate.
Qed.

(** ** The stationary-distribution sweep *)

Lemma update_length {A} (l : list A) (i : nat) (f : A -> A) :
  length (update l i f) = length l.
Proof.
  revert i. induction l as [|x t IH]; intros [|i]; simpl; auto.
Qed.

Lemma update_nth {A} (l : list A) (i j : nat) (f : A -> A) (d : A) :
  (i < length l)%nat ->
  nth j (update l i f) d = if Nat.eq_dec j i then f (nth i l d) else nth j l d.
Proof.
  revert i j. induction l as [|x t IH]; intros i j Hi; simpl in Hi; [lia|].
  destruct i as [|i], j as [|j]; simpl; trivial.
  rewrite IH by lia.
  destruct (Nat.eq_dec j i), (Nat.eq_dec (S j) (S i)); trivial; lia.
Qed.

Lemma Qsum_update (row : list Q) (j : nat) (x : Q) :
  (j < length row)%nat ->
  Qsum (update row j (fun y => y + x)) == Qsum row + x.
Proof.
  revert j. induction row as [|a t IH]; intros j Hj; simpl in Hj; [lia|].
  destruct j as [|j]; simpl.
  - ring.
  - rewrite IH by lia. ring.
Qed.

Lemma mass_update_row (m : list (list Q)) (i : nat) (f : list Q -> list Q) (x : Q) :
  (i < length m)%nat ->
  Qsum (f (nth i m [])) == Qsum (nth i m []) + x ->
  mass (update m i f) == mass m + x.
Proof.
  unfold mass, np_sum.
  revert i. induction m as [|r t IH]; intros i Hi H; simpl in Hi; [lia|].
  destruct i as [|i]; simpl in *.
  - rewrite H. ring.
  - rewrite IH; trivial; [ring | lia].
Qed.

Lemma add_at_spec (m : list (list Q)) (n k i j : nat) (x : Q) :
  shape m n k -> (i < n)%nat -> (j < k)%nat ->
  shape (add_at m i j x) n k /\ mass (add_at m i j x) == mass m + x.
Proof.
  intros (Hn & Hk) Hi Hj. unfold add_at. split.
  - split; [now rewrite update_length|].
    intros i' Hi'. rewrite update_nth by lia.
    destruct (Nat.eq_dec i' i); [rewrite update_length|]; auto.
  - apply mass_update_row; [lia|].
    apply Qsum_update. rewrite Hk; trivial.
Qed.

(** A loop that adds [w i] to the mass at each index [i] of [l]. *)
Lemma fold_mass (g : list (list Q) -> nat -> list (list Q)) (w : nat -> Q)
    (n k : nat) (l : list nat) (acc : list (list Q)) :
  (forall acc i, In i l -> shape acc n k ->
     shape (g acc i) n k /\ mass (g acc i) == mass acc + w i) ->
  shape acc n k ->
  shape (fold_left g l acc) n k /\
  mass (fold_left g l acc) == mass acc + Qsum (map w l).
Proof.
  revert acc. induction l as [|i t IH]; intros acc Hg Hacc; simpl.
  - split; trivial. ring.
  - destruct (Hg acc i (or_introl eq_refl) Hacc) as (Hs & Hm).
    destruct (IH (g acc i)) as (Hs' & Hm'); trivial.
    + intros acc' i' Hi'. apply Hg. now right.
    + split; trivial. rewrite Hm', Hm. ring.
Qed.

Lemma Qsum_ext (f g : nat -> Q) (l : list nat) :
  (forall i, In i l -> f i == g i) -> Qsum (map f l) == Qsum (map g l).
Proof.
  induction l as [|i t IH]; intro H; simpl; [reflexivity|].
  rewrite (H i) by (simpl; auto). rewrite IH; [reflexivity|].
  intros j Hj. apply H. simpl; auto.
Qed.

Lemma Qsum_by_index (row : list Q) :
  Qsum (map (fun s => nth s row 0) (seq 0 (length row))) = Qsum row.
Proof.
  induction row as [|a t IH]; simpl; trivial.
  rewrite <- seq_shift, map_map. now rewrite IH.
Qed.

Lemma Qsum_scale_r (f : nat -> Q) (p : Q) (l : list nat) :
  Qsum (map (fun s => f s * p) l) == Qsum (map f l) * p.
Proof.
  induction l as [|i t IH]; simpl; [ring|]. rewrite IH. ring.
Qed.

Lemma mass_by_index (m : list (list Q)) :
  Qsum (map (fun a => Qsum (nth a m [])) (seq 0 (length m))) = mass m.
Proof.
  unfold mass, np_sum.
  induction m as [|r t IH]; simpl; trivial.
  rewrite <- seq_shift, map_map. now rewrite IH.
Qed.

Lemma zeros_like_spec (m : list (list Q)) (n k : nat) :
  shape m n k -> shape (zeros_like m) n k /\ mass (zeros_like m) == 0.
Proof.
  intros (Hn & Hk). unfold zeros_like. split.
  - split; [now rewrite length_map|].
    intros i Hi. rewrite (nth_map_in _ _ i []) by lia.
    rewrite length_map. auto.
  - unfold mass, np_sum. clear. induction m as [|r t IH]; simpl; [reflexivity|].
    rewrite IH.
    assert (E : Qsum (map (fun _ : Q => 0) r) == 0)
      by (induction r as [|a r IHr]; simpl; [reflexivity | rewrite IHr; ring]).
    rewrite E. ring.
Qed.

Section Sweep.

Variable bcm : BusinessCycleModel.
Variable policy : list (list nat).

Hypothesis P_shape : shape (P bcm) (Ns bcm) (Ns bcm).
Hypothesis P_rows : forall s0, (s0 < Ns bcm)%nat -> Qsum (nth s0 (P bcm) []) == 1.
Hypothesis policy_valid : forall a0 s0, (a0 < Na bcm)%nat -> (s0 < Ns bcm)%nat ->
  (nth s0 (nth a0 policy []) 0 < Na bcm)%nat.

Lemma dist_iter_spec (pmf : list (list Q)) :
  shape pmf (Na bcm) (Ns bcm) ->
  shape (dist_iter bcm policy pmf) (Na bcm) (Ns bcm) /\
  mass (dist_iter bcm policy pmf) == mass pmf.
Proof.
  intro Hpmf. unfold dist_iter.
  destruct (zeros_like_spec pmf _ _ Hpmf) as (Hz & Hz0).
  destruct (fold_mass
    (fun pmf_new a0 =>
       fold_left (fun pmf_new s0 =>
         let a1 := nth s0 (nth a0 policy []) 0%nat in
         fold_left (fun pmf_new s1 =>
           add_at pmf_new a1 s1
             (nth s1 (nth s0 (P bcm) []) 0 * nth s0 (nth a0 pmf []) 0))
           (seq 0 (Ns bcm)) pmf_new)
         (seq 0 (Ns bcm)) pmf_new)
    (fun a0 => Qsum (nth a0 pmf []))
    (Na bcm) (Ns bcm) (seq 0 (Na bcm)) (zeros_like pmf)) as (Hs & Hm); trivial.
  - intros acc a0 Ha0 Hacc. apply in_seq in Ha0.
    destruct (fold_mass
      (fun pmf_new s0 =>
         let a1 := nth s0 (nth a0 policy []) 0%nat in
         fold_left (fun pmf_new s1 =>
           add_at pmf_new a1 s1
             (nth s1 (nth s0 (P bcm) []) 0 * nth s0 (nth a0 pmf []) 0))
           (seq 0 (Ns bcm)) pmf_new)
      (fun s0 => nth s0 (nth a0 pmf []) 0)
      (Na bcm) (Ns bcm) (seq 0 (Ns bcm)) acc) as (Hs & Hm); trivial.
    + intros acc' s0 Hs0 Hacc'. apply in_seq in Hs0. cbv zeta.
      destruct (fold_mass
        (fun pmf_new s1 =>
           add_at pmf_new (nth s0 (nth a0 policy []) 0%nat) s1
             (nth s1 (nth s0 (P bcm) []) 0 * nth s0 (nth a0 pmf []) 0))
        (fun s1 => nth s1 (nth s0 (P bcm) []) 0 * nth s0 (nth a0 pmf []) 0)
        (Na bcm) (Ns bcm) (seq 0 (Ns bcm)) acc') as (Hs & Hm); trivial.
      * intros acc'' s1 Hs1 Hacc''. apply in_seq in Hs1.
        apply add_at_spec; trivial; [apply policy_valid; lia | lia].
      * split; trivial. rewrite Hm, Qsum_scale_r.
        destruct P_shape as (_ & HPk).
        rewrite <- (HPk s0) at 1 by lia.
        rewrite Qsum_by_index, P_rows by lia. ring.
    + split; trivial. rewrite Hm.
      destruct Hpmf as (_ & Hk).
      rewrite <- (Hk a0) at 1 by lia. now rewrite Qsum_by_index.
  - split; trivial. rewrite Hm, Hz0.
    destruct Hpmf as (Hn & _). rewrite <- Hn at 1.
    rewrite mass_by_index. ring.
Qed.

Lemma dist_iter_iterates (pmf : list (list Q)) (n : nat) :
  shape pmf (Na bcm) (Ns bcm) ->
  shape (Nat.iter n (dist_iter bcm policy) pmf) (Na bcm) (Ns bcm) /\
  mass (Nat.iter n (dist_iter bcm policy) pmf) == mass pmf.
Proof.
  intro Hpmf. induction n as [|n (Hs & Hm)]; simpl.
  - split; [trivial | reflexivity].
  - destruct (dist_iter_spec _ Hs) as (Hs' & Hm').
    split; trivial. now rewrite Hm'.
Qed.

End Sweep.

(** ** The fixed-point loop *)

Lemma In_stdout_bind {A B} (m : io A) (k : A -> io B) (a : A) (l : line) :
  outcome m = Ok a -> In l (stdout (k a)) -> In l (stdout (io_bind m k)).
Proof.
  intros E H. rewrite stdout_bind, E. apply in_or_app. now right.
Qed.

Lemma outcome_bind_Ok {A B} (m : io A) (k : A -> io B) (a : A) :
  outcome m = Ok a -> outcome (io_bind m k) = outcome (k a).
Proof.
  intro E. now rewrite outcome_bind, E.
Qed.

Lemma outcome_bind_Raise {A B} (m : io A) (k : A -> io B) (e : exn) :
  outcome m = Raise e -> outcome (io_bind m k) = Raise e.
Proof.
  intro E. now rewrite outcome_bind, E.
Qed.

Section Loop.

Context {X Y : Type}.
Variable step : X -> result (X * Y).
Variable err : X -> X -> result Q.
Variable tol : Q.
Variable verbose : bool.
Variable print_skip : Z.

Local Abbreviation loop := (while_loop step err tol verbose print_skip).
Local Abbreviation pass := (pass step err tol).
Local Abbreviation passes := (passes step err tol).

Lemma loop_S (r i : nat) (error : Q) (x : X) (last : option (X * Y)) :
  loop (S r) i error x last =
  if Qlt_bool tol error then
    ' (x_new, y) <~ lift (step x) ;;
    error' <~ lift (err x x_new) ;;
    progress verbose print_skip (S i) error' ;;;
    loop r (S i) error' x_new (Some (x_new, y))
  else io_ret (i, x, last).
Proof. reflexivity. Qed.

Lemma progress_Ok (i : nat) (error : Q) :
  verbose = false \/ print_skip <> 0%Z ->
  outcome (progress verbose print_skip i error) = Ok tt.
Proof.
  unfold progress. intros [->|H]; trivial.
  destruct verbose; trivial.
  apply Z.eqb_neq in H. rewrite H.
  now destruct (Z.of_nat i mod print_skip =? 0)%Z.
Qed.

Lemma loop_exit (r i : nat) (error : Q) (x : X) (last : option (X * Y)) :
  error <= tol -> loop r i error x last = io_ret (i, x, last).
Proof.
  intro H. apply Qlt_bool_false in H.
  destruct r; trivial. now rewrite loop_S, H.
Qed.

Lemma loop_pass (r i i' : nat) (error error' : Q) (x x' : X)
    (last last' : option (X * Y)) :
  verbose = false \/ print_skip <> 0%Z ->
  pass (i, error, x, last) (i', error', x', last') ->
  outcome (loop (S r) i error x last) = outcome (loop r i' error' x' last').
Proof.
  intros Hq H. inversion H as [? ? ? ? ? y ? Htol Hstep Herr]; subst.
  apply Qlt_bool_iff in Htol. rewrite loop_S, Htol.
  rewrite (outcome_bind_Ok _ _ (x', y)) by now rewrite outcome_lift.
  rewrite (outcome_bind_Ok _ _ error') by now rewrite outcome_lift.
  now rewrite (outcome_bind_Ok _ _ tt) by now apply progress_Ok.
Qed.

Lemma loop_step_raises (r i : nat) (error : Q) (x : X)
    (last : option (X * Y)) (e : exn) :
  tol < error -> step x = Raise e ->
  outcome (loop (S r) i error x last) = Raise e.
Proof.
  intros Htol Hstep. apply Qlt_bool_iff in Htol. rewrite loop_S, Htol.
  apply outcome_bind_Raise. now rewrite outcome_lift.
Qed.

Lemma loop_passes (n r : nat) (st st' : loop_state) :
  verbose = false \/ print_skip <> 0%Z ->
  passes n st st' ->
  let '(i, error, x, last) := st in
  let '(i', error', x', last') := st' in
  outcome (loop (n + r) i error x last) = outcome (loop r i' error' x' last').
Proof.
  intros Hq H. induction H as [st|n st st' st'' H _ IH].
  - now destruct st as [[[i error] x] last].
  - destruct st as [[[i error] x] last], st' as [[[i' error'] x'] last'],
      st'' as [[[i'' error''] x''] last''].
    simpl Nat.add. now rewrite (loop_pass _ _ _ _ _ _ _ _ _ Hq H).
Qed.

(** A property of the loop variables [x] and [last] that the body
    preserves holds when the loop returns. *)
Lemma loop_invariant (I : X -> option (X * Y) -> Prop)
    (r i : nat) (error : Q) (x : X) (last : option (X * Y))
    (i' : nat) (x' : X) (last' : option (X * Y)) :
  (forall x last x_new y, I x last -> step x = Ok (x_new, y) ->
     I x_new (Some (x_new, y))) ->
  I x last ->
  outcome (loop r i error x last) = Ok (i', x', last') ->
  I x' last' /\ (i' <= i + r)%nat /\
  (i' = i /\ x' = x /\ last' = last \/
   (i < i')%nat /\ exists y, last' = Some (x', y)).
Proof.
  intro Hpres. revert i error x last.
  induction r as [|r IH]; intros i error x last HI H.
  - inversion H; subst. repeat split; trivial; [lia | auto].
  - rewrite loop_S in H. destruct (Qlt_bool tol error).
    + rewrite outcome_bind, outcome_lift in H.
      destruct (step x) as [[x_new y]|e|] eqn:Es; [|discriminate|discriminate].
      rewrite outcome_bind, outcome_lift in H.
      destruct (err x x_new) as [error'|e|]; [|discriminate|discriminate].
      rewrite outcome_bind in H.
      destruct (outcome (progress verbose print_skip (S i) error'));
        [|discriminate|discriminate].
      apply IH in H as (H1 & H2 & H3); [|eauto].
      split; trivial. split; [lia|]. right.
      destruct H3 as [(-> & -> & ->)|(H3 & y' & ->)]; split; eauto; lia.
    + inversion H; subst. repeat split; trivial; [lia | auto].
Qed.

End Loop.

Lemma outcome_bind_inv {A B} (m : io A) (k : A -> io B) (b : B) :
  outcome (io_bind m k) = Ok b ->
  exists a, outcome m = Ok a /\ outcome (k a) = Ok b.
Proof.
  rewrite outcome_bind.
  destruct (outcome m) as [a|e|]; [eauto | discriminate | discriminate].
Qed.

Lemma Qsum_const (x : Q) {A} (l : list A) :
  Qsum (map (fun _ => x) l) == inject_Z (Z.of_nat (length l)) * x.
Proof.
  induction l as [|a t IH].
  - simpl. ring.
  - cbn [map Qsum fold_right length]. fold (Qsum (map (fun _ => x) t)).
    rewrite IH, Nat2Z.inj_succ. unfold Z.succ. rewrite inject_Z_plus. ring.
Qed.

Lemma mass_const_rows (m : list (list Q)) (n : nat) (x : Q) :
  length m = n -> (forall i, (i < n)%nat -> Qsum (nth i m []) == x) ->
  mass m == inject_Z (Z.of_nat n) * x.
Proof.
  intros Hn Hrow. rewrite <- mass_by_index, Hn.
  rewrite (Qsum_ext _ (fun _ => x)).
  - rewrite Qsum_const, length_seq. reflexivity.
  - intros i Hi. apply in_seq in Hi. apply Hrow. lia.
Qed.

Lemma uniform_pmf_spec (bcm : BusinessCycleModel) (policy : list (list nat))
    (pmf : list (list Q)) :
  shape policy (Na bcm) (Ns bcm) ->
  uniform_pmf bcm policy = Ok pmf ->
  shape pmf (Na bcm) (Ns bcm) /\ mass pmf == 1.
Proof.
  intros (Hn & Hk) H. unfold uniform_pmf in H.
  apply bind_Ok in H as (w & Hw & H). inversion H; subst pmf; clear H.
  apply fdiv_Ok_inv in Hw as (Hnz & ->).
  assert (Hshape : shape (map (map (fun _ : nat =>
             1 * (1 / inject_Z (Z.of_nat (Na bcm * Ns bcm))))) policy)
             (Na bcm) (Ns bcm)).
  { split; [now rewrite length_map|].
    intros i Hi. rewrite (nth_map_in _ _ i []) by lia.
    rewrite length_map. auto. }
  split; trivial.
  rewrite (mass_const_rows _ (Na bcm)
             (inject_Z (Z.of_nat (Ns bcm))
              * (1 * (1 / inject_Z (Z.of_nat (Na bcm * Ns bcm)))))).
  - rewrite Nat2Z.inj_mul, inject_Z_mult in *. field.
    split; intro E; apply Hnz; rewrite E; ring.
  - now rewrite length_map.
  - intros i Hi. rewrite (nth_map_in _ _ i []) by lia.
    rewrite Qsum_const, Hk by trivial. reflexivity.
Qed.

Lemma constructed_P (lib : Library) (o : Options) (bcm : BusinessCycleModel) :
  outcome (__init__ lib o) = Ok bcm ->
  shape (P bcm) (Ns bcm) (Ns bcm) /\
  forall s0, (s0 < Ns bcm)%nat -> Qsum (nth s0 (P bcm) []) == 1.
Proof.
  intro H. apply init_fields in H as (_ & _ & _ & _ & _ & -> & -> & _).
  destruct (o_business_cycle o); (split; [split; [reflexivity|]|]).
  - intros [|[|[|[|i]]]] Hi; trivial; lia.
  - intros [|[|[|[|i]]]] Hi; try reflexivity; lia.
  - intros [|[|i]] Hi; trivial; lia.
  - intros [|[|i]] Hi; try reflexivity; lia.
Qed.

(** C5.  On a constructed model (the rows of whose transition matrix sum
    to 1) and with a policy of valid asset-grid indices, one sweep of
    [dist_iter] leaves the total mass of any distribution over the grid
    unchanged; from the uniform initialisation the mass is 1 after any
    number of sweeps, and so is the mass of the distribution that
    [solve_invariant_dist] returns. *)
Theorem dist_iter_conserves_mass (lib : Library) (o : Options)
    (bcm : BusinessCycleModel) (policy : list (list nat)) :
  outcome (__init__ lib o) = Ok bcm ->
  shape policy (Na bcm) (Ns bcm) ->
  (forall a0 s0, (a0 < Na bcm)%nat -> (s0 < Ns bcm)%nat ->
     (nth s0 (nth a0 policy []) 0 < Na bcm)%nat) ->
  (forall pmf, shape pmf (Na bcm) (Ns bcm) ->
     mass (dist_iter bcm policy pmf) == mass pmf) /\
  (forall pmf0 n, uniform_pmf bcm policy = Ok pmf0 ->
     mass (Nat.iter n (dist_iter bcm policy) pmf0) == 1) /\
  (forall tol max_iter verbose print_skip pmf,
     outcome (solve_invariant_dist lib bcm policy tol max_iter verbose print_skip)
       = Ok pmf ->
     mass pmf == 1).
Proof.
  intros Hinit Hpol Hvalid.
  destruct (constructed_P lib o bcm Hinit) as (HP & Hrows).
  split; [|split].
  - intros pmf Hpmf. now apply dist_iter_spec.
  - intros pmf0 n H0.
    destruct (uniform_pmf_spec bcm policy pmf0 Hpol H0) as (Hs & Hm).
    destruct (dist_iter_iterates bcm policy HP Hrows Hvalid pmf0 n Hs)
      as (_ & Hn).
    now rewrite Hn.
  - intros tol max_iter verbose print_skip pmf H.
    unfold solve_invariant_dist in H.
    apply outcome_bind_inv in H as (pmf0 & H0 & H).
    rewrite outcome_lift in H0.
    apply outcome_bind_inv in H as ([[i pmf'] last] & Hloop & H).
    apply outcome_bind_inv in H as (_ & _ & H).
    apply outcome_bind_inv in H as (_ & _ & H).
    inversion H; subst pmf'; clear H.
    apply (loop_invariant _ _ _ _ _
             (fun x _ => shape x (Na bcm) (Ns bcm) /\ mass x == 1)) in Hloop.
    + now destruct Hloop as ((_ & Hm) & _).
    + intros x l x_new y (Hs & Hm) Hstep.
      inversion Hstep; subst.
      destruct (dist_iter_spec bcm policy HP Hrows Hvalid x Hs) as (Hs' & Hm').
      split; trivial. now rewrite Hm'.
    + now apply (uniform_pmf_spec bcm policy).
Qed.

Lemma dist_iter_conserves_mass_witness :
  let bcm := from_Ok toy (outcome (__init__ lib0 toy_options)) in
  mass (dist_iter bcm toy_policy toy_pmf) == 1 /\
  mass (Nat.iter 2 (dist_iter bcm toy_policy)
          (from_Ok [] (uniform_pmf bcm toy_policy))) == 1.
Proof.
  intro bcm.
  destruct (dist_iter_conserves_mass lib0 toy_options bcm toy_policy)
    as (H1 & H2 & _).
  - vm_compute. reflexivity.
  - split; [reflexivity|]. intros [|[|[|i]]] Hi; simpl in *; trivial; lia.
  - intros a0 s0 Ha0 Hs0.
    destruct a0 as [|[|[|a0]]]; [| | |simpl in Ha0; lia];
      (destruct s0 as [|[|s0]]; [| |simpl in Hs0; lia]); simpl; lia.
  - split.
    + rewrite H1; [reflexivity|].
      split; [reflexivity|]. intros [|[|[|i]]] Hi; simpl in *; trivial; lia.
    + apply H2. vm_compute. reflexivity.
Defined.

(** ** Running out of iterations *)

Ltac bind_ok E := rewrite (outcome_bind_Ok _ _ _ E); cbv beta iota.

Lemma when_Ok (b : bool) (l : line) : outcome (when b (print l)) = Ok tt.
Proof. now destruct b. Qed.

Section Exhaustion.

Variable lib : Library.
Variable bcm : BusinessCycleModel.
Variable parallel_flag : bool.
Variable tol : Q.
Variable max_iter : Z.
Variable verbose : bool.
Variable print_skip : Z.

Hypothesis some_iterations : (0 < max_iter)%Z.
Hypothesis printing_safe : verbose = false \/ print_skip <> 0%Z.

Lemma value_iteration_exhausted (c u : list (list (list Q)))
    (v : list (list Q)) (error : Q) (policy : list (list nat))
    (gamma : list (list Q)) :
  util lib bcm parallel_flag = Ok (c, u) ->
  passes (T_step bcm parallel_flag u c) sup_error tol (Z.to_nat max_iter)
         (0%nat, float_add lib tol 1, zeros (Na bcm) (Ns bcm), None)
         (Z.to_nat max_iter, error, v, Some (v, (policy, gamma))) ->
  let run := solve_model_value_iteration lib bcm parallel_flag
        tol max_iter verbose print_skip in
  outcome run = Ok (v, policy, gamma) /\ In FailedToConverge (stdout run).
Proof.
  intros Hu Hp run.
  pose proof (loop_passes _ _ _ verbose print_skip _ 0 _ _ printing_safe Hp) as Hloop.
  cbv beta iota in Hloop. rewrite Nat.add_0_r in Hloop.
  change (outcome (while_loop _ _ _ _ _ 0 _ _ _ _))
    with (Ok (A := nat * list (list Q) * option (list (list Q) * (list (list nat) * list (list Q))))
             (Z.to_nat max_iter, v, Some (v, (policy, gamma)))) in Hloop.
  assert (Hu' : outcome (lift (util lib bcm parallel_flag)) = Ok (c, u)) by exact Hu.
  assert (Ei : (Z.of_nat (Z.to_nat max_iter) =? max_iter)%Z = true)
    by (apply Z.eqb_eq; lia).
  unfold run, solve_model_value_iteration. split.
  - bind_ok (when_Ok verbose SolveValueIteration).
    bind_ok Hu'. bind_ok Hloop.
    bind_ok (when_Ok (Z.of_nat (Z.to_nat max_iter) =? max_iter)%Z FailedToConverge).
    bind_ok (when_Ok ((Z.of_nat (Z.to_nat max_iter) <? max_iter)%Z && verbose)
                     (ConvergedIn (Z.to_nat max_iter))).
    reflexivity.
  - apply (In_stdout_bind _ _ _ _ (when_Ok verbose SolveValueIteration)).
    apply (In_stdout_bind _ _ _ _ Hu'). cbv beta iota.
    apply (In_stdout_bind _ _ _ _ Hloop). cbv beta iota.
    rewrite stdout_bind, Ei. simpl. auto.
Qed.

Lemma time_iteration_exhausted (gamma_new : list (list Q)) (error : Q)
    (asset_policy : list (list Q)) :
  passes (K lib bcm) sup_error tol (Z.to_nat max_iter)
         (0%nat, float_add lib tol 1, gamma_init bcm, None)
         (Z.to_nat max_iter, error, gamma_new, Some (gamma_new, asset_policy)) ->
  let run := solve_model_time_iter lib bcm tol max_iter verbose print_skip in
  outcome run = Ok (gamma_new, asset_policy) /\ In FailedToConverge (stdout run).
Proof.
  intros Hp run.
  pose proof (loop_passes _ _ _ verbose print_skip _ 0 _ _ printing_safe Hp) as Hloop.
  cbv beta iota in Hloop. rewrite Nat.add_0_r in Hloop.
  change (outcome (while_loop _ _ _ _ _ 0 _ _ _ _))
    with (Ok (A := nat * list (list Q) * option (list (list Q) * list (list Q)))
             (Z.to_nat max_iter, gamma_new, Some (gamma_new, asset_policy))) in Hloop.
  assert (Ei : (Z.of_nat (Z.to_nat max_iter) =? max_iter)%Z = true)
    by (apply Z.eqb_eq; lia).
  unfold run, solve_model_time_iter. split.
  - bind_ok (when_Ok verbose SolvePolicyIteration).
    bind_ok Hloop.
    bind_ok (when_Ok (Z.of_nat (Z.to_nat max_iter) =? max_iter)%Z FailedToConverge).
    bind_ok (when_Ok verbose (ConvergedIn (Z.to_nat max_iter))).
    reflexivity.
  - apply (In_stdout_bind _ _ _ _ (when_Ok verbose SolvePolicyIteration)).
    apply (In_stdout_bind _ _ _ _ Hloop). cbv beta iota.
    rewrite stdout_bind, Ei. simpl. auto.
Qed.

End Exhaustion.

(** C7 (as amended).  With at least one iteration allowed and a usable
    progress interval, a solver whose loop runs [max_iter] sweeps with the
    error above the tolerance to the end does not raise: it prints
    'Failed to converge!' and returns the last iterate with the by-products
    of the last sweep.  What it returns is that tuple alone. *)
Theorem exhausted_solvers_return_the_last_iterate (lib : Library)
    (bcm : BusinessCycleModel)
    (parallel_flag : bool) (tol : Q) (max_iter : Z) (verbose : bool)
    (print_skip : Z) :
  (0 < max_iter)%Z ->
  verbose = false \/ print_skip <> 0%Z ->
  (forall c u v error policy gamma,
     util lib bcm parallel_flag = Ok (c, u) ->
     passes (T_step bcm parallel_flag u c) sup_error tol (Z.to_nat max_iter)
            (0%nat, float_add lib tol 1, zeros (Na bcm) (Ns bcm), None)
            (Z.to_nat max_iter, error, v, Some (v, (policy, gamma))) ->
     tol < error ->
     let run := solve_model_value_iteration lib bcm parallel_flag
           tol max_iter verbose print_skip in
     outcome run = Ok (v, policy, gamma) /\ In FailedToConverge (stdout run)) /\
  (forall gamma_new error asset_policy,
     passes (K lib bcm) sup_error tol (Z.to_nat max_iter)
            (0%nat, float_add lib tol 1, gamma_init bcm, None)
            (Z.to_nat max_iter, error, gamma_new, Some (gamma_new, asset_policy)) ->
     tol < error ->
     let run := solve_model_time_iter lib bcm tol max_iter verbose print_skip in
     outcome run = Ok (gamma_new, asset_policy) /\ In FailedToConverge (stdout run)).
Proof.
  intros Hmax Hprint. split.
  - intros c u v error policy gamma Hu Hp _.
    now apply (value_iteration_exhausted lib bcm parallel_flag tol max_iter
                     verbose print_skip
                 Hmax Hprint c u v error).
  - intros gamma_new error asset_policy Hp _.
    now apply (time_iteration_exhausted lib bcm tol max_iter verbose print_skip
                 Hmax Hprint gamma_new error).
Qed.

Lemma exhausted_solvers_return_the_last_iterate_witness :
  (exists r, solve_model_value_iteration lib0 toy true 0 1 false 100
             = ([FailedToConverge], Ok r)) /\
  (exists r, solve_model_time_iter lib0 rich 0.5 1 false 100
             = ([FailedToConverge], Ok r)).
Proof.
  pose (r1 := from_Ok ([], ([], [])) (T_step toy true toy_u toy_c (zeros 3 2))).
  pose (e1 := from_Ok 0 (sup_error (zeros 3 2) (fst r1))).
  pose (r2 := from_Ok ([], []) (K lib0 rich (gamma_init rich))).
  pose (e2 := from_Ok 0 (sup_error (gamma_init rich) (fst r2))).
  destruct (exhausted_solvers_return_the_last_iterate lib0 toy true 0 1 false 100)
    as (H1 & _); [lia | now left |].
  destruct (exhausted_solvers_return_the_last_iterate lib0 rich true 0.5 1 false 100)
    as (_ & H2); [lia | now left |].
  split.
  - destruct (H1 toy_c toy_u (fst r1) e1 (fst (snd r1)) (snd (snd r1))) as (E & _).
    + vm_compute. reflexivity.
    + eapply passes_S; [|apply passes_O].
      apply (pass_body _ _ _ 0%nat (0 + 1) e1 (zeros 3 2) (fst r1) (snd r1));
        vm_compute; reflexivity.
    + vm_compute. reflexivity.
    + eexists. vm_compute. reflexivity.
  - destruct (H2 (fst r2) e2 (snd r2)) as (E & _).
    + eapply passes_S; [|apply passes_O].
      apply (pass_body _ _ _ 0%nat (0.5 + 1) e2 (gamma_init rich) (fst r2) (snd r2));
        vm_compute; reflexivity.
    + vm_compute. reflexivity.
    + eexists. vm_compute. reflexivity.
Defined.

(** A run that used up its single iteration and a run that converged
    before its limit hand the caller the same value: nothing in what is
    returned tells them apart. *)
Lemma no_convergence_flag_is_returned :
  exists r,
    solve_model_value_iteration lib0 toy true 0 1 false 100
      = ([FailedToConverge], Ok r) /\
    solve_model_value_iteration lib0 toy true 1000 2 false 100 = ([], Ok r).
Proof.
  eexists. split; vm_compute; reflexivity.
Qed.

(** With no iteration allowed the value-iteration driver does raise: its
    return statement reads variables that only the loop body binds. *)
Lemma no_iteration_is_fatal :
  solve_model_value_iteration lib0 toy true 0 0 false 100
    = ([FailedToConverge], Raise (UnboundLocalError "policy")).
Proof. vm_compute. reflexivity. Qed.

(** ** The Euler operator *)



Section Euler.

Variable lib : Library.
Variable bcm : BusinessCycleModel.
Variable gamma : list (list Q).





(** The first cell, in the order of the two loops, at which the root
    finder raises decides what [K] raises. *)
Lemma K_first_raise (i s : nat) (e : exn) :
  (i < length (a_vals bcm))%nat -> (s < Ns bcm)%nat ->
  (forall i' s', (i' < length (a_vals bcm))%nat -> (s' < Ns bcm)%nat ->
     (i' < i)%nat \/ i' = i /\ (s' < s)%nat ->
     exists c, brentq lib (fun c => euler_diff lib bcm c (nth i' (a_vals bcm) 0) s' gamma)
                 1e-8 (nth i' (a_vals bcm) 0 + nth s' (y_vals bcm) 0) = Ok c) ->
  brentq lib (fun c => euler_diff lib bcm c (nth i (a_vals bcm) 0) s gamma)
         1e-8 (nth i (a_vals bcm) 0 + nth s (y_vals bcm) 0) = Raise e ->
  K lib bcm gamma = Raise e.
Proof.
  intros Hi Hs Hbefore Hraise. unfold K.
  assert (Hrow : mapM (fun s => K_cell lib bcm gamma (nth i (a_vals bcm) 0) s)
                      (seq 0 (Ns bcm)) = Raise e).
  { replace (Ns bcm) with (s + S (Ns bcm - S s))%nat by lia.
    rewrite seq_app. simpl seq. apply mapM_first_raise.
    - intros s' Hs'. apply in_seq in Hs'.
      destruct (Hbefore i s') as (c & Hc); [trivial | lia | right; lia |].
      unfold K_cell. rewrite Hc. simpl. eauto.
    - unfold K_cell. now rewrite Hraise. }
  rewrite <- (firstn_skipn i (a_vals bcm)).
  assert (Hskip : skipn i (a_vals bcm)
                  = nth i (a_vals bcm) 0 :: skipn (S i) (a_vals bcm)).
  { clear - Hi. revert i Hi.
    induction (a_vals bcm) as [|x t IH]; intros i Hi; simpl in Hi; [lia|].
    destruct i as [|i]; trivial. simpl. apply IH. lia. }
  rewrite Hskip, mapM_first_raise with (e := e); trivial.
  intros a Ha. apply (In_nth _ _ 0) in Ha as (i' & Hi' & <-).
  rewrite length_firstn in Hi'.
  rewrite nth_firstn.
  assert (Hlt : (i' <? i)%nat = true) by (apply Nat.ltb_lt; lia).
  rewrite Hlt.
  apply mapM_total. intros s' Hs'. apply in_seq in Hs'.
  destruct (Hbefore i' s') as (c & Hc); [lia | lia | left; lia |].
  unfold K_cell. rewrite Hc. simpl. eauto.
Qed.

End Euler.




Lemma time_iteration_raises (lib : Library) (bcm : BusinessCycleModel)
    (tol : Q) (max_iter : Z) (verbose : bool) (print_skip : Z)
    (n : nat) (error : Q) (gamma : list (list Q))
    (last : option (list (list Q) * list (list Q))) (e : exn) :
  verbose = false \/ print_skip <> 0%Z ->
  passes (K lib bcm) sup_error tol n
         (0%nat, float_add lib tol 1, gamma_init bcm, None) (n, error, gamma, last) ->
  tol < error -> (Z.of_nat n < max_iter)%Z ->
  K lib bcm gamma = Raise e ->
  outcome (solve_model_time_iter lib bcm tol max_iter verbose print_skip) = Raise e.
Proof.
  intros Hprint Hp Htol Hn HK.
  pose proof (loop_passes _ _ _ verbose print_skip _ (S (Z.to_nat max_iter - S n))
                _ _ Hprint Hp) as Hloop.
  cbv beta iota in Hloop.
  replace (n + S (Z.to_nat max_iter - S n))%nat with (Z.to_nat max_iter) in Hloop by lia.
  rewrite (loop_step_raises _ _ _ _ _ _ _ _ _ _ e Htol HK) in Hloop.
  unfold solve_model_time_iter.
  bind_ok (when_Ok verbose SolvePolicyIteration).
  now apply outcome_bind_Raise.
Qed.

(** C8 (as amended).  When the root finder raises at a grid point, every
    earlier point of the sweep having been solved, [K] raises that very
    exception, and so does the solve call whose loop has reached that
    sweep: the failure is fatal and handed on as the root finder made it. *)
Theorem root_finder_failure_is_fatal (lib : Library) (bcm : BusinessCycleModel)
    (gamma : list (list Q)) (i s : nat) (e : exn) :
  (i < length (a_vals bcm))%nat -> (s < Ns bcm)%nat ->
  (forall i' s', (i' < length (a_vals bcm))%nat -> (s' < Ns bcm)%nat ->
     (i' < i)%nat \/ i' = i /\ (s' < s)%nat ->
     exists c, brentq lib (fun c => euler_diff lib bcm c (nth i' (a_vals bcm) 0) s' gamma)
                 1e-8 (nth i' (a_vals bcm) 0 + nth s' (y_vals bcm) 0) = Ok c) ->
  brentq lib (fun c => euler_diff lib bcm c (nth i (a_vals bcm) 0) s gamma)
         1e-8 (nth i (a_vals bcm) 0 + nth s (y_vals bcm) 0) = Raise e ->
  K lib bcm gamma = Raise e /\
  forall tol max_iter verbose print_skip n error last,
    verbose = false \/ print_skip <> 0%Z ->
    passes (K lib bcm) sup_error tol n
           (0%nat, float_add lib tol 1, gamma_init bcm, None) (n, error, gamma, last) ->
    tol < error -> (Z.of_nat n < max_iter)%Z ->
    outcome (solve_model_time_iter lib bcm tol max_iter verbose print_skip) = Raise e.
Proof.
  intros Hi Hs Hbefore Hraise.
  pose proof (K_first_raise lib bcm gamma i s e Hi Hs Hbefore Hraise) as HK.
  split; trivial.
  intros tol max_iter verbose print_skip n error last Hprint Hp Htol Hn.
  now apply (time_iteration_raises lib bcm tol max_iter verbose print_skip
               n error gamma last e).
Qed.

Lemma root_finder_failure_is_fatal_witness :
  K lib0 tiny (gamma_init tiny) = Raise no_sign_change /\
  outcome (solve_model_time_iter lib0 tiny 1e-4 1000 false 25) = Raise no_sign_change.
Proof.
  destruct (root_finder_failure_is_fatal lib0 tiny (gamma_init tiny) 0 0 no_sign_change)
    as (HK & Hsolve).
  - simpl. lia.
  - simpl. lia.
  - intros i' s' _ _ [H|[_ H]]; lia.
  - vm_compute. reflexivity.
  - split; [exact HK|].
    apply (Hsolve 1e-4 1000%Z false 25%Z 0%nat (1e-4 + 1) None).
    + now left.
    + apply passes_O.
    + reflexivity.
    + lia.
Defined.

(** The exception of a failed solve names no grid point: it is the same
    value when the offending point is the first of the grid (the tiny
    economy) and when it is the third in loop order (the wide one, whose
    first two points are solved). *)
Lemma failure_carries_no_coordinates :
  outcome (solve_model_time_iter lib0 tiny 1e-4 1000 false 25) = Raise no_sign_change /\
  K_cell lib0 tiny (gamma_init tiny) 1e-9 0 = Raise no_sign_change /\
  K lib0 wide wide_gamma = Raise no_sign_change /\
  K_cell lib0 wide wide_gamma 0 0 = Ok (1, 1 * (0 - 1 + 1)) /\
  K_cell lib0 wide wide_gamma 0 1 = Ok (0 + 0.25, 1 * (0 - (0 + 0.25) + 0.25)) /\
  K_cell lib0 wide wide_gamma 200 0 = Raise no_sign_change.
Proof.
  repeat split; vm_compute; reflexivity.
Qed.

(** ** The welfare comparison *)

Lemma update_rows_length (m : list (list Q)) (i j i' : nat) (g : Q -> Q) :
  length (nth i' (update m i (fun row => update row j g)) []) = length (nth i' m []).
Proof.
  revert i i'. induction m as [|r t IH]; intros i i'; simpl.
  - reflexivity.
  - destruct i as [|i], i' as [|i']; simpl; trivial.
    apply update_length.
Qed.

Lemma add_at_shape (m : list (list Q)) (n k i j : nat) (x : Q) :
  shape m n k -> shape (add_at m i j x) n k.
Proof.
  intros (Hn & Hk). unfold add_at. split.
  - now rewrite update_length.
  - intros i' Hi'. rewrite update_rows_length. auto.
Qed.

Lemma fold_left_inv {A B} (I : A -> Prop) (f : A -> B -> A) (l : list B) (a : A) :
  (forall a b, I a -> I (f a b)) -> I a -> I (fold_left f l a).
Proof.
  intro Hf. revert a. induction l as [|b t IH]; intros a Ha; simpl; auto.
Qed.

Lemma dist_iter_shape (bcm : BusinessCycleModel) (policy : list (list nat))
    (pmf : list (list Q)) (n k : nat) :
  shape pmf n k -> shape (dist_iter bcm policy pmf) n k.
Proof.
  intro H. unfold dist_iter.
  apply fold_left_inv; [|now apply zeros_like_spec].
  intros acc a0 Hacc. apply fold_left_inv; trivial.
  intros acc' s0 Hacc'. cbv zeta. apply fold_left_inv; trivial.
  intros acc'' s1 Hacc''. now apply add_at_shape.
Qed.

Lemma np_sum_product_by_index (pmf v : list (list Q)) (n k : nat) :
  shape pmf n k -> shape v n k ->
  np_sum (map2 (map2 Qmult) pmf v) = expected_lifetime_utility pmf v n k.
Proof.
  unfold np_sum, expected_lifetime_utility, shape.
  revert v n. induction pmf as [|r t IH]; intros [|r' t'] n (Hn & Hk) (Hn' & Hk');
    simpl in *; subst n; try discriminate; trivial.
  rewrite <- cons_seq, <- seq_shift. cbn [map Qsum fold_right].
  rewrite map_map. f_equal.
  - pose proof (Hk 0%nat ltac:(lia)) as E. pose proof (Hk' 0%nat ltac:(lia)) as E'.
    simpl in E, E'. rewrite Qsum_map2_index by congruence. now rewrite E.
  - apply IH.
    + split; trivial. intros i Hi. apply (Hk (S i)). lia.
    + split; [lia|]. intros i Hi. apply (Hk' (S i)). lia.
Qed.

Lemma value_iteration_shape (lib : Library) (bcm : BusinessCycleModel)
    (parallel_flag : bool)
    (tol : Q) (max_iter : Z) (verbose : bool) (print_skip : Z)
    (v : list (list Q)) (policy : list (list nat)) (gamma : list (list Q)) :
  outcome (solve_model_value_iteration lib bcm parallel_flag
        tol max_iter verbose print_skip)
    = Ok (v, policy, gamma) ->
  shape v (Na bcm) (Ns bcm) /\ shape policy (Na bcm) (Ns bcm).
Proof.
  unfold solve_model_value_iteration. intro H.
  apply outcome_bind_inv in H as (_ & _ & H).
  apply outcome_bind_inv in H as ([c u] & Hu & H).
  apply outcome_bind_inv in H as ([[i v'] l] & Hloop & H).
  apply outcome_bind_inv in H as (_ & _ & H).
  apply outcome_bind_inv in H as (_ & _ & H).
  apply (loop_invariant _ _ _ _ _
    (fun x l => shape x (Na bcm) (Ns bcm) /\
                match l with
                | Some (_, (pol, _)) => shape pol (Na bcm) (Ns bcm)
                | None => True
                end)) in Hloop.
  - destruct Hloop as ((Hv & Hl) & _).
    destruct l as [[x [pol g]]|]; [|discriminate].
    inversion H; subst. auto.
  - intros x l' x_new [pol g] _ Hstep. unfold T_step in Hstep.
    apply bind_Ok in Hstep as ([[vn pn] gn] & HT & Hstep).
    inversion Hstep; subst.
    apply T_shape in HT as (H1 & H2 & _). auto.
  - split; trivial. unfold zeros, shape. rewrite repeat_length. split; trivial.
    intros j Hj. rewrite nth_repeat_lt by trivial. apply repeat_length.
Qed.

Lemma invariant_dist_shape (lib : Library) (bcm : BusinessCycleModel)
    (policy : list (list nat))
    (tol : Q) (max_iter : Z) (verbose : bool) (print_skip : Z)
    (pmf : list (list Q)) :
  shape policy (Na bcm) (Ns bcm) ->
  outcome (solve_invariant_dist lib bcm policy tol max_iter verbose print_skip)
    = Ok pmf ->
  shape pmf (Na bcm) (Ns bcm).
Proof.
  unfold solve_invariant_dist. intros Hpol H.
  apply outcome_bind_inv in H as (pmf0 & H0 & H).
  rewrite outcome_lift in H0.
  apply outcome_bind_inv in H as ([[i pmf'] l] & Hloop & H).
  apply outcome_bind_inv in H as (_ & _ & H).
  apply outcome_bind_inv in H as (_ & _ & H).
  inversion H; subst pmf'; clear H.
  apply (loop_invariant _ _ _ _ _ (fun x _ => shape x (Na bcm) (Ns bcm))) in Hloop.
  - now destruct Hloop.
  - intros x l' x_new y Hx Hstep. inversion Hstep; subst.
    now apply dist_iter_shape.
  - now apply (uniform_pmf_spec bcm policy).
Qed.

Lemma lifetime_utility_economy (lib : Library) (o : Options) :
  outcome (lifetime_utility lib o) = economy lib o.
Proof.
  unfold lifetime_utility, economy.
  rewrite outcome_bind.
  destruct (outcome (__init__ lib o)) as [bc|e|]; simpl; trivial.
  rewrite outcome_bind.
  destruct (outcome (solve_model_value_iteration lib bc true 1e-5 5000 false 100))
    as [[[v policy] g]|e|] eqn:Ev; simpl; trivial.
  rewrite outcome_bind.
  destruct (outcome (solve_invariant_dist lib bc policy 1e-7 2000 false 50))
    as [pmf|e|] eqn:Ep; simpl; trivial.
  apply value_iteration_shape in Ev as (Hv & Hpol).
  apply invariant_dist_shape in Ep; trivial.
  now rewrite (np_sum_product_by_index pmf v (Na bc) (Ns bc)).
Qed.

(** C4.  The comparator returns exactly when both economies are built and
    solved; each lifetime utility is the sum over the whole grid of
    [pmf(a, s) * v(a, s)]; and the compensation is
    [(V_no_risk / V_risk) ** (1 / (1 - sigma)) - 1] for [sigma <> 1] and
    [e ** ((V_no_risk - V_risk) * (1 - beta)) - 1] for [sigma = 1]. *)
Theorem consumption_loss_is_the_welfare_compensation (lib : Library)
    (sigma a_max : Q) (Na : Z) :
  outcome (compute_consumption_loss lib sigma a_max Na) =
    (' (bc, V_risk) <- economy lib (loss_options sigma a_max Na true) ;;
     ' (_, V_no_risk) <- economy lib (loss_options sigma a_max Na false) ;;
     Ok (welfare_loss lib sigma (beta bc) V_no_risk V_risk)) /\
  (forall b V_no_risk V_risk, sigma == 1 ->
     welfare_loss lib sigma b V_no_risk V_risk
     = pow lib np_e ((V_no_risk - V_risk) * (1 - b)) - 1) /\
  (forall b V_no_risk V_risk, ~ sigma == 1 ->
     welfare_loss lib sigma b V_no_risk V_risk
     = pow lib (V_no_risk / V_risk) (1 / (1 - sigma)) - 1).
Proof.
  split; [|split].
  - unfold compute_consumption_loss.
    rewrite outcome_bind, lifetime_utility_economy.
    destruct (economy lib (loss_options sigma a_max Na true)) as [[bc V_risk]|e|];
      simpl; trivial.
    rewrite outcome_bind, lifetime_utility_economy.
    now destruct (economy lib (loss_options sigma a_max Na false)) as [[nbc V]|e|].
  - intros b Vn Vr H. unfold welfare_loss.
    apply Qeq_bool_iff in H. now rewrite H.
  - intros b Vn Vr H. unfold welfare_loss.
    apply Qeq_bool_false in H. now rewrite H.
Qed.

(** * Further properties of the notebook *)

(** ** Constructed models *)

Lemma constructed_P_nonneg (lib : Library) (o : Options) (bcm : BusinessCycleModel) :
  outcome (__init__ lib o) = Ok bcm ->
  forall s0 s1, 0 <= nth s1 (nth s0 (P bcm) []) 0.
Proof.
  intro H. apply init_fields in H as (_ & _ & _ & _ & _ & -> & _).
  destruct (o_business_cycle o); intros s0 s1.
  - do 5 (try destruct s0 as [|s0]); do 5 (try destruct s1 as [|s1]);
      simpl; try (intro E; discriminate E); destruct s1; intro E; discriminate E.
  - do 3 (try destruct s0 as [|s0]); do 3 (try destruct s1 as [|s1]);
      simpl; try (intro E; discriminate E); destruct s1; intro E; discriminate E.
Qed.

Lemma init_beta (lib : Library) (o : Options) (bcm : BusinessCycleModel) :
  outcome (__init__ lib o) = Ok bcm -> beta bcm = o_beta o.
Proof.
  rewrite init_outcome. intro H.
  apply bind_Ok in H as (periods & _ & H).
  apply bind_Ok in H as (e & _ & H).
  apply bind_Ok in H as (av & _ & H).
  now inversion H.
Qed.

Lemma concat_repeat_pair_length {A} (x y : A) (n : nat) :
  length (concat (repeat [x; y] n)) = (2 * n)%nat.
Proof.
  induction n as [|n IH]; simpl; trivial. rewrite IH. lia.
Qed.

(** X1.  A model that the constructor returns is well shaped: the grid has
    [Na] points, there is one income per state, and the transition matrix
    is [Ns] by [Ns] with non-negative entries and rows that sum to 1. *)
Theorem constructed_model_is_well_shaped (lib : Library) (o : Options)
    (bcm : BusinessCycleModel) :
  outcome (__init__ lib o) = Ok bcm ->
  length (a_vals bcm) = Na bcm /\
  length (y_vals bcm) = Ns bcm /\
  shape (P bcm) (Ns bcm) (Ns bcm) /\
  (forall s0 s1, 0 <= nth s1 (nth s0 (P bcm) []) 0) /\
  (forall s0, (s0 < Ns bcm)%nat -> Qsum (nth s0 (P bcm) []) == 1).
Proof.
  intro H.
  destruct (constructed_P lib o bcm H) as (HP & Hrows).
  pose proof (constructed_P_nonneg lib o bcm H) as Hnn.
  pose proof H as Hf.
  apply init_fields in Hf as (Hgrid & _ & _ & HNa & _ & _ & HNs & Hy).
  split; [|split; [|auto]].
  - rewrite HNa. now apply linspace_length in Hgrid.
  - rewrite Hy, HNs, concat_repeat_pair_length.
    now destruct (o_business_cycle o).
Qed.

Lemma constructed_model_is_well_shaped_witness :
  let bcm := from_Ok toy (outcome (__init__ lib0 toy_options)) in
  length (a_vals bcm) = 3%nat /\ length (y_vals bcm) = 2%nat.
Proof.
  intro bcm.
  destruct (constructed_model_is_well_shaped lib0 toy_options bcm)
    as (H1 & H2 & _).
  - vm_compute. reflexivity.
  - split; [exact H1 | exact H2].
Defined.

Lemma inject_Z_nat_lt (i j : nat) :
  (i < j)%nat -> inject_Z (Z.of_nat i) < inject_Z (Z.of_nat j).
Proof.
  intro H. unfold Qlt, inject_Z. cbn [Qnum Qden]. lia.
Qed.

Lemma linspace_points (start stop : Q) (num : Z) (l : list Q) (i : nat) :
  linspace start stop num = Ok l -> (i < length l)%nat ->
  nth i l 0 == start + inject_Z (Z.of_nat i) * ((stop - start) / inject_Z (num - 1)).
Proof.
  intros H Hi.
  destruct (linspace_cases _ _ _ _ H) as [[-> ->]|[[-> ->]|(k & -> & ->)]].
  - simpl in Hi. lia.
  - destruct i as [|i]; [|simpl in Hi; lia]. simpl. ring.
  - rewrite length_app, length_map, length_seq in Hi. simpl length in Hi.
    destruct (Nat.eq_dec i (S k)) as [->|Hne].
    + rewrite app_nth2; rewrite length_map, length_seq; [|lia].
      rewrite Nat.sub_diag. simpl nth.
      replace (Z.of_nat (S (S k)) - 1)%Z with (Z.of_nat (S k)) by lia.
      field. intro E.
      assert (Hpos : 0 < inject_Z (Z.of_nat (S k)))
        by (unfold Qlt, inject_Z; cbn [Qnum Qden]; lia).
      rewrite E in Hpos. now apply Qlt_irrefl in Hpos.
    + rewrite app_nth1 by (rewrite length_map, length_seq; lia).
      rewrite (nth_map_in _ _ i 0%nat) by (rewrite length_seq; lia).
      rewrite seq_nth by lia. simpl Nat.add. ring.
Qed.

(** X2.  The asset grid of a constructed model is evenly spaced from
    [a_min]: its [i]-th point is [a_min + i * (a_max - a_min) / (Na - 1)];
    with at least two points the last one is [a_max] itself; and the grid
    is strictly ascending when [a_min < a_max]. *)
Theorem constructed_grid_is_evenly_spaced (lib : Library) (o : Options)
    (bcm : BusinessCycleModel) :
  outcome (__init__ lib o) = Ok bcm ->
  (forall i, (i < Na bcm)%nat ->
     nth i (a_vals bcm) 0
     == a_min bcm + inject_Z (Z.of_nat i)
                    * ((a_max bcm - a_min bcm) / inject_Z (Z.of_nat (Na bcm) - 1))) /\
  ((2 <= Na bcm)%nat -> nth (Na bcm - 1) (a_vals bcm) 0 = a_max bcm) /\
  (a_min bcm < a_max bcm ->
   forall i j, (i < j)%nat -> (j < Na bcm)%nat ->
     nth i (a_vals bcm) 0 < nth j (a_vals bcm) 0).
Proof.
  intro H. apply init_fields in H as (Hgrid & Hmin & Hmax & HNa & _).
  pose proof (linspace_length _ _ _ _ Hgrid) as Hlen. rewrite <- HNa in Hlen.
  assert (HNaZ : (0 < Na bcm)%nat -> Z.of_nat (Na bcm) = o_Na o) by lia.
  assert (Hpt : forall i, (i < Na bcm)%nat ->
     nth i (a_vals bcm) 0
     == a_min bcm + inject_Z (Z.of_nat i)
                    * ((a_max bcm - a_min bcm) / inject_Z (Z.of_nat (Na bcm) - 1))).
  { intros i Hi. rewrite Hmin, Hmax, HNaZ by lia.
    apply (linspace_points _ _ _ _ _ Hgrid). lia. }
  split; trivial. split.
  - intro H2. rewrite Hmax.
    destruct (linspace_cases _ _ _ _ Hgrid) as [[E Ek]|[[E Ek]|(k & E & Ek)]].
    + lia.
    + lia.
    + rewrite E. rewrite HNa, Ek, Nat2Z.id.
      rewrite app_nth2; rewrite length_map, length_seq; [|lia].
      replace (S (S k) - 1 - S k)%nat with 0%nat by lia. reflexivity.
  - intros Hlt i j Hij Hj. rewrite (Hpt i), (Hpt j) by lia.
    set (d := inject_Z (Z.of_nat (Na bcm) - 1)).
    assert (Hd : 0 < d) by (unfold d, Qlt, inject_Z; cbn [Qnum Qden]; lia).
    assert (Hstep : 0 < (a_max bcm - a_min bcm) / d).
    { apply Qlt_shift_div_l; trivial. lra. }
    pose proof (inject_Z_nat_lt i j Hij) as Hinj.
    apply Qplus_lt_r. now apply Qmult_lt_compat_r.
Qed.

Lemma constructed_grid_is_evenly_spaced_witness :
  let bcm := from_Ok toy (outcome (__init__ lib0 toy_options)) in
  nth 2 (a_vals bcm) 0 = 2 /\ nth 0 (a_vals bcm) 0 < nth 1 (a_vals bcm) 0.
Proof.
  intro bcm.
  destruct (constructed_grid_is_evenly_spaced lib0 toy_options bcm)
    as (_ & H2 & H3).
  - vm_compute. reflexivity.
  - split.
    + apply H2. simpl. lia.
    + apply H3; [reflexivity | lia | simpl; lia].
Defined.

(** ** The Bellman operator as a map on value functions *)

Lemma consumption_decreasing (lib : Library) (bcm : BusinessCycleModel)
    (parallel_flag : bool)
    (c u : list (list (list Q))) (a0 s0 i j : nat) :
  util lib bcm parallel_flag = Ok (c, u) ->
  (forall i j, (i < j)%nat -> (j < Na bcm)%nat ->
     nth i (a_vals bcm) 0 < nth j (a_vals bcm) 0) ->
  0 < R_save bcm -> 0 < R_borrow bcm ->
  (a0 < Na bcm)%nat -> (s0 < Ns bcm)%nat -> (i < j)%nat -> (j < Na bcm)%nat ->
  nth j (nth s0 (nth a0 c []) []) 0 < nth i (nth s0 (nth a0 c []) []) 0.
Proof.
  intros E Hasc Hs Hb Ha0 Hs0 Hij Hj.
  rewrite (util_consumption lib bcm parallel_flag c u a0 s0 j E),
    (util_consumption lib bcm parallel_flag c u a0 s0 i E);
    trivial; try lia.
  unfold budget.
  pose proof (discounted_increasing bcm _ _ Hs Hb (Hasc i j Hij Hj)) as Hd.
  revert Hd.
  generalize (nth i (a_vals bcm) 0 / R_func bcm (nth i (a_vals bcm) 0)).
  generalize (nth j (a_vals bcm) 0 / R_func bcm (nth j (a_vals bcm) 0)).
  intros qj qi Hd. lra.
Qed.

(** X3.  The greedy policy that [T] returns is a valid asset-grid index,
    the consumption it returns is the tabulated consumption at that index
    and, on an ascending grid with positive gross rates, that consumption
    is strictly positive. *)
Theorem T_policy_is_feasible (lib : Library) (bcm : BusinessCycleModel)
    (parallel_flag : bool)
    (v : list (list Q)) (c u : list (list (list Q)))
    (v_new : list (list Q)) (policy : list (list nat)) (gamma : list (list Q)) :
  util lib bcm parallel_flag = Ok (c, u) ->
  (forall i j, (i < j)%nat -> (j < Na bcm)%nat ->
     nth i (a_vals bcm) 0 < nth j (a_vals bcm) 0) ->
  0 < R_save bcm -> 0 < R_borrow bcm ->
  T bcm parallel_flag v u c = Ok (v_new, policy, gamma) ->
  forall a0 s0, (a0 < Na bcm)%nat -> (s0 < Ns bcm)%nat ->
    let a1 := nth s0 (nth a0 policy []) 0%nat in
    (a1 < Na bcm)%nat /\
    nth s0 (nth a0 gamma []) 0 = nth a1 (nth s0 (nth a0 c []) []) 0 /\
    0 < nth s0 (nth a0 gamma []) 0.
Proof.
  intros Eu Hasc Hs Hb ET a0 s0 Ha0 Hs0 a1.
  pose proof (util_shape lib bcm parallel_flag c u Eu) as (_ & Hrow).
  pose proof (T_cells bcm parallel_flag v u c v_new policy gamma a0 s0
                ET Ha0 Hs0) as Hcell.
  apply T_cell_Ok in Hcell as (Na1 & HNa1 & Hle & _ & _ & _ & _ & Hg).
  fold a1 in Hle, Hg.
  apply argwhere_max_Ok in HNa1 as (Hlt & Hpos & _).
  rewrite Hrow in Hlt by trivial.
  assert (Ha1 : (a1 < Na bcm)%nat) by lia.
  assert (Hc : nth s0 (nth a0 gamma []) 0 = nth a1 (nth s0 (nth a0 c []) []) 0).
  { rewrite Hg. symmetry. now apply (util_consumption lib bcm parallel_flag c u). }
  split; [trivial | split; [trivial|]].
  rewrite Hc.
  destruct (Nat.eq_dec a1 Na1) as [->|Hne]; trivial.
  apply Qlt_trans with (nth Na1 (nth s0 (nth a0 c []) []) 0); trivial.
  apply (consumption_decreasing lib bcm parallel_flag c u); trivial. lia.
Qed.

Lemma T_policy_is_feasible_witness :
  exists v_new policy gamma,
    T toy true (zeros 3 2) toy_u toy_c = Ok (v_new, policy, gamma) /\
    0 < nth 1 (nth 0 gamma []) 0.
Proof.
  pose (r := from_Ok ([], [], []) (T toy true (zeros 3 2) toy_u toy_c)).
  exists (fst (fst r)), (snd (fst r)), (snd r).
  assert (E : T toy true (zeros 3 2) toy_u toy_c = Ok (fst (fst r), snd (fst r), snd r))
    by (vm_compute; reflexivity).
  split; trivial.
  apply (T_policy_is_feasible lib0 toy true (zeros 3 2) toy_c toy_u
           (fst (fst r)) (snd (fst r)) (snd r)).
  - vm_compute. reflexivity.
  - intros i j Hij Hj. simpl in Hj.
    destruct j as [|[|[|j]]]; [lia| | |lia].
    + assert (i = 0)%nat as -> by lia. reflexivity.
    + destruct i as [|[|i]]; [reflexivity|reflexivity|lia].
  - reflexivity.
  - reflexivity.
  - exact E.
  - simpl; lia.
  - simpl; lia.
Defined.

Lemma Qsum_le (f g : nat -> Q) (l : list nat) :
  (forall i, In i l -> f i <= g i) -> Qsum (map f l) <= Qsum (map g l).
Proof.
  induction l as [|i t IH]; intro H; simpl; [apply Qle_refl|].
  apply Qplus_le_compat; [apply H; simpl; auto|].
  apply IH. intros j Hj. apply H. simpl; auto.
Qed.

Lemma Qsum_affine (p w : nat -> Q) (d : Q) (l : list nat) :
  Qsum (map (fun s => p s * (w s + d)) l)
  == Qsum (map (fun s => p s * w s) l) + Qsum (map p l) * d.
Proof.
  induction l as [|i t IH]; simpl; [ring|]. rewrite IH. ring.
Qed.

Section Blackwell.

Variable bcm : BusinessCycleModel.

Hypothesis P_shape : shape (P bcm) (Ns bcm) (Ns bcm).
Hypothesis P_nonneg : forall s0 s1, 0 <= nth s1 (nth s0 (P bcm) []) 0.
Hypothesis P_rows : forall s0, (s0 < Ns bcm)%nat -> Qsum (nth s0 (P bcm) []) == 1.
Hypothesis beta_nonneg : 0 <= beta bcm.

Lemma expectation_shift (v w : list (list Q)) (d : Q) (s0 j : nat) :
  (s0 < Ns bcm)%nat ->
  (forall s1, (s1 < Ns bcm)%nat ->
     nth s1 (nth j v []) 0 <= nth s1 (nth j w []) 0 + d) ->
  expectation bcm v s0 j <= expectation bcm w s0 j + d.
Proof.
  intros Hs0 H. unfold expectation.
  apply Qle_trans with
    (Qsum (map (fun s1 => nth s1 (nth s0 (P bcm) []) 0 * (nth s1 (nth j w []) 0 + d))
               (seq 0 (Ns bcm)))).
  - apply Qsum_le. intros s1 Hs1. apply in_seq in Hs1.
    rewrite !(Qmult_comm (nth s1 (nth s0 (P bcm) []) 0)).
    apply Qmult_le_compat_r; [apply H; lia | apply P_nonneg].
  - rewrite Qsum_affine.
    destruct P_shape as (_ & Hk).
    rewrite <- (Hk s0 Hs0) at 2.
    rewrite Qsum_by_index, P_rows by trivial.
    rewrite Qmult_1_l. apply Qle_refl.
Qed.

(** If [v] is nowhere more than [d] above [w], then [T v] is nowhere more
    than [beta * d] above [T w]. *)
Lemma T_shift_bound (lib : Library) (parallel_flag : bool) (v w : list (list Q))
    (c u : list (list (list Q))) (d : Q)
    (v_new w_new : list (list Q)) (pv pw : list (list nat))
    (gv gw : list (list Q)) :
  util lib bcm parallel_flag = Ok (c, u) ->
  shape v (Na bcm) (Ns bcm) -> shape w (Na bcm) (Ns bcm) ->
  (forall a s, (a < Na bcm)%nat -> (s < Ns bcm)%nat ->
     nth s (nth a v []) 0 <= nth s (nth a w []) 0 + d) ->
  T bcm parallel_flag v u c = Ok (v_new, pv, gv) ->
  T bcm parallel_flag w u c = Ok (w_new, pw, gw) ->
  forall a0 s0, (a0 < Na bcm)%nat -> (s0 < Ns bcm)%nat ->
    nth s0 (nth a0 v_new []) 0 <= nth s0 (nth a0 w_new []) 0 + beta bcm * d.
Proof.
  intros Eu (_ & Hv) (_ & Hw) Hvw ETv ETw a0 s0 Ha0 Hs0.
  pose proof (util_shape lib bcm parallel_flag c u Eu) as (_ & Hrow).
  pose proof (T_cells bcm parallel_flag v u c _ _ _ a0 s0 ETv Ha0 Hs0) as Hcv.
  pose proof (T_cells bcm parallel_flag w u c _ _ _ a0 s0 ETw Ha0 Hs0) as Hcw.
  apply T_cell_Ok in Hcv as (Nv & HNv & Hlev & Hnewv & _).
  apply T_cell_Ok in Hcw as (Nw & HNw & _ & _ & Hmaxw & _).
  rewrite HNv in HNw. inversion HNw; subst Nw. clear HNw.
  apply argwhere_max_Ok in HNv as (Hlt & _ & _).
  rewrite Hrow in Hlt by trivial.
  set (a1 := nth s0 (nth a0 pv []) 0%nat) in *.
  assert (Ha1 : (a1 < Na bcm)%nat) by lia.
  destruct P_shape as (_ & HPk).
  rewrite Hnewv.
  apply Qle_trans with
    (nth a1 (nth s0 (nth a0 u []) []) 0
     + dot (map (Qmult (beta bcm)) (nth s0 (P bcm) [])) (nth a1 w []) + beta bcm * d).
  - rewrite !dot_scaled_row by auto.
    pose proof (expectation_shift v w d s0 a1 Hs0
                  (fun s1 Hs1 => Hvw a1 s1 Ha1 Hs1)) as He.
    pose proof (Qmult_le_compat_r _ _ (beta bcm) He beta_nonneg) as Hb.
    rewrite !(Qmult_comm _ (beta bcm)) in Hb.
    revert Hb. generalize (expectation bcm v s0 a1), (expectation bcm w s0 a1).
    intros ev ew Hb.
    setoid_replace (beta bcm * (ew + d)) with (beta bcm * ew + beta bcm * d) in Hb
      by ring.
    lra.
  - apply Qplus_le_compat; [|apply Qle_refl]. now apply Hmaxw.
Qed.

End Blackwell.

(** X4.  [T] is monotone: on a constructed model with [beta >= 0], if
    [v <= w] in every cell then [T v <= T w] in every cell. *)
Theorem T_is_monotone (lib : Library) (o : Options) (bcm : BusinessCycleModel)
    (parallel_flag : bool)
    (v w : list (list Q)) (c u : list (list (list Q)))
    (v_new w_new : list (list Q)) (pv pw : list (list nat))
    (gv gw : list (list Q)) :
  outcome (__init__ lib o) = Ok bcm ->
  0 <= beta bcm ->
  util lib bcm parallel_flag = Ok (c, u) ->
  shape v (Na bcm) (Ns bcm) -> shape w (Na bcm) (Ns bcm) ->
  (forall a s, (a < Na bcm)%nat -> (s < Ns bcm)%nat ->
     nth s (nth a v []) 0 <= nth s (nth a w []) 0) ->
  T bcm parallel_flag v u c = Ok (v_new, pv, gv) ->
  T bcm parallel_flag w u c = Ok (w_new, pw, gw) ->
  forall a0 s0, (a0 < Na bcm)%nat -> (s0 < Ns bcm)%nat ->
    nth s0 (nth a0 v_new []) 0 <= nth s0 (nth a0 w_new []) 0.
Proof.
  intros Hinit Hbeta Eu Hv Hw Hvw ETv ETw a0 s0 Ha0 Hs0.
  destruct (constructed_P lib o bcm Hinit) as (HP & Hrows).
  pose proof (constructed_P_nonneg lib o bcm Hinit) as Hnn.
  pose proof (T_shift_bound bcm HP Hnn Hrows Hbeta lib parallel_flag v w c u 0
                v_new w_new pv pw gv gw Eu Hv Hw) as H.
  setoid_replace (nth s0 (nth a0 w_new []) 0)
    with (nth s0 (nth a0 w_new []) 0 + beta bcm * 0) by ring.
  apply H; trivial.
  intros a s Ha Hs. rewrite Qplus_0_r. now apply Hvw.
Qed.

Lemma T_is_monotone_witness :
  let bcm := from_Ok toy (outcome (__init__ lib0 toy_options)) in
  let cu := from_Ok ([], []) (util lib0 bcm true) in
  let Tv := from_Ok ([], [], []) (T bcm true (zeros 3 2) (snd cu) (fst cu)) in
  let Tw := from_Ok ([], [], []) (T bcm true toy_ones (snd cu) (fst cu)) in
  nth 0 (nth 0 (fst (fst Tv)) []) 0 <= nth 0 (nth 0 (fst (fst Tw)) []) 0.
Proof.
  intros bcm cu Tv Tw.
  apply (T_is_monotone lib0 toy_options bcm true (zeros 3 2) toy_ones (fst cu) (snd cu)
           (fst (fst Tv)) (fst (fst Tw)) (snd (fst Tv)) (snd (fst Tw))
           (snd Tv) (snd Tw)).
  - vm_compute. reflexivity.
  - vm_compute. discriminate.
  - vm_compute. reflexivity.
  - vm_compute. split; [reflexivity|]. intros [|[|[|i]]] Hi; trivial; lia.
  - vm_compute. split; [reflexivity|]. intros [|[|[|i]]] Hi; trivial; lia.
  - intros a s Ha Hs. vm_compute in Ha, Hs.
    destruct a as [|[|[|a]]]; [| | |lia];
      (destruct s as [|[|s]]; [| |lia]); vm_compute; discriminate.
  - vm_compute. reflexivity.
  - vm_compute. reflexivity.
  - vm_compute. lia.
  - vm_compute. lia.
Defined.

(** X5.  [T] is a contraction of modulus [beta] in the sup norm: on a
    constructed model with [beta >= 0], two value functions that differ by
    at most [d] in every cell are sent to value functions that differ by at
    most [beta * d] in every cell. *)
Theorem T_is_a_contraction (lib : Library) (o : Options) (bcm : BusinessCycleModel)
    (parallel_flag : bool)
    (v w : list (list Q)) (c u : list (list (list Q))) (d : Q)
    (v_new w_new : list (list Q)) (pv pw : list (list nat))
    (gv gw : list (list Q)) :
  outcome (__init__ lib o) = Ok bcm ->
  0 <= beta bcm ->
  util lib bcm parallel_flag = Ok (c, u) ->
  shape v (Na bcm) (Ns bcm) -> shape w (Na bcm) (Ns bcm) ->
  within d v w (Na bcm) (Ns bcm) ->
  T bcm parallel_flag v u c = Ok (v_new, pv, gv) ->
  T bcm parallel_flag w u c = Ok (w_new, pw, gw) ->
  within (beta bcm * d) v_new w_new (Na bcm) (Ns bcm).
Proof.
  intros Hinit Hbeta Eu Hv Hw Hvw ETv ETw a0 s0 Ha0 Hs0.
  destruct (constructed_P lib o bcm Hinit) as (HP & Hrows).
  pose proof (constructed_P_nonneg lib o bcm Hinit) as Hnn.
  pose proof (T_shift_bound bcm HP Hnn Hrows Hbeta lib parallel_flag v w c u d
                v_new w_new pv pw gv gw Eu Hv Hw) as H1.
  pose proof (T_shift_bound bcm HP Hnn Hrows Hbeta lib parallel_flag w v c u d
                w_new v_new pw pv gw gv Eu Hw Hv) as H2.
  assert (Hup : nth s0 (nth a0 v_new []) 0
                <= nth s0 (nth a0 w_new []) 0 + beta bcm * d).
  { apply H1; trivial. intros a s Ha Hs.
    specialize (Hvw a s Ha Hs). apply Qabs_Qle_condition in Hvw. lra. }
  assert (Hdown : nth s0 (nth a0 w_new []) 0
                  <= nth s0 (nth a0 v_new []) 0 + beta bcm * d).
  { apply H2; trivial. intros a s Ha Hs.
    specialize (Hvw a s Ha Hs). apply Qabs_Qle_condition in Hvw. lra. }
  apply Qabs_Qle_condition.
  revert Hup Hdown. generalize (beta bcm * d). intros bd Hup Hdown.
  split; lra.
Qed.

Lemma T_is_a_contraction_witness :
  let bcm := from_Ok toy (outcome (__init__ lib0 toy_options)) in
  let cu := from_Ok ([], []) (util lib0 bcm true) in
  let Tv := from_Ok ([], [], []) (T bcm true (zeros 3 2) (snd cu) (fst cu)) in
  let Tw := from_Ok ([], [], []) (T bcm true toy_ones (snd cu) (fst cu)) in
  within (beta bcm * 1) (fst (fst Tv)) (fst (fst Tw)) 3 2.
Proof.
  intros bcm cu Tv Tw.
  apply (T_is_a_contraction lib0 toy_options bcm true (zeros 3 2) toy_ones
           (fst cu) (snd cu) 1
           (fst (fst Tv)) (fst (fst Tw)) (snd (fst Tv)) (snd (fst Tw))
           (snd Tv) (snd Tw)).
  - vm_compute. reflexivity.
  - vm_compute. discriminate.
  - vm_compute. reflexivity.
  - vm_compute. split; [reflexivity|]. intros [|[|[|i]]] Hi; trivial; lia.
  - vm_compute. split; [reflexivity|]. intros [|[|[|i]]] Hi; trivial; lia.
  - intros a s Ha Hs. vm_compute in Ha, Hs.
    destruct a as [|[|[|a]]]; [| | |lia];
      (destruct s as [|[|s]]; [| |lia]); vm_compute; discriminate.
  - vm_compute. reflexivity.
  - vm_compute. reflexivity.
Defined.

(** ** The distribution sweep as a Markov operator *)

Lemma update_beyond {A} (l : list A) (i : nat) (f : A -> A) :
  (length l <= i)%nat -> update l i f = l.
Proof.
  revert i. induction l as [|x t IH]; intros i Hi; simpl in *; trivial.
  destruct i as [|i]; [lia|]. f_equal. apply IH. lia.
Qed.

Lemma add_at_cell (m : list (list Q)) (n k i j i' j' : nat) (x : Q) :
  shape m n k -> (i < n)%nat -> (j < k)%nat ->
  nth j' (nth i' (add_at m i j x) []) 0
  == nth j' (nth i' m []) 0 + (if Nat.eqb i' i && Nat.eqb j' j then x else 0).
Proof.
  intros (Hn & Hk) Hi Hj. unfold add_at.
  rewrite update_nth by lia.
  destruct (Nat.eq_dec i' i) as [->|Hne].
  - rewrite Nat.eqb_refl. cbv beta iota delta [andb].
    rewrite update_nth by (rewrite Hk; trivial).
    destruct (Nat.eq_dec j' j) as [->|Hne'].
    + rewrite Nat.eqb_refl. reflexivity.
    + apply Nat.eqb_neq in Hne'. rewrite Hne'. cbv iota. ring.
  - apply Nat.eqb_neq in Hne. rewrite Hne. cbv beta iota delta [andb]. ring.
Qed.

Lemma add_at_nonneg (m : list (list Q)) (i j : nat) (x : Q) :
  0 <= x -> nonneg m -> nonneg (add_at m i j x).
Proof.
  intros Hx Hm i' j'. unfold add_at.
  destruct (Nat.lt_ge_cases i (length m)) as [Hi|Hi];
    [|rewrite update_beyond by trivial; apply Hm].
  rewrite update_nth by trivial.
  destruct (Nat.eq_dec i' i) as [->|Hne]; [|apply Hm].
  destruct (Nat.lt_ge_cases j (length (nth i m []))) as [Hj|Hj];
    [|rewrite update_beyond by trivial; apply Hm].
  rewrite update_nth by trivial.
  destruct (Nat.eq_dec j' j) as [->|Hne']; [|apply Hm].
  specialize (Hm i j). lra.
Qed.

(** A loop that adds [w i] to a measure [mu] of the array at each index
    [i] of [l]. *)
Lemma fold_measure (mu : list (list Q) -> Q)
    (g : list (list Q) -> nat -> list (list Q)) (w : nat -> Q)
    (n k : nat) (l : list nat) (acc : list (list Q)) :
  (forall acc i, In i l -> shape acc n k ->
     shape (g acc i) n k /\ mu (g acc i) == mu acc + w i) ->
  shape acc n k ->
  shape (fold_left g l acc) n k /\
  mu (fold_left g l acc) == mu acc + Qsum (map w l).
Proof.
  revert acc. induction l as [|i t IH]; intros acc Hg Hacc; simpl.
  - split; trivial. ring.
  - destruct (Hg acc i (or_introl eq_refl) Hacc) as (Hs & Hm).
    destruct (IH (g acc i)) as (Hs' & Hm'); trivial.
    + intros acc' i' Hi'. apply Hg. now right.
    + split; trivial. rewrite Hm', Hm. ring.
Qed.

Lemma Qsum_zero (f : nat -> Q) (l : list nat) :
  (forall i, In i l -> f i == 0) -> Qsum (map f l) == 0.
Proof.
  induction l as [|i t IH]; intro H; simpl; [reflexivity|].
  rewrite (H i) by (simpl; auto). rewrite IH; [ring|].
  intros j Hj. apply H. simpl; auto.
Qed.

Lemma Qsum_app (l l' : list Q) : Qsum (l ++ l') == Qsum l + Qsum l'.
Proof.
  induction l as [|x t IH]; simpl; [ring|]. rewrite IH. ring.
Qed.

Lemma Qsum_indicator (f : nat -> Q) (n s1 : nat) :
  (s1 < n)%nat ->
  Qsum (map (fun s => if Nat.eqb s s1 then f s else 0) (seq 0 n)) == f s1.
Proof.
  induction n as [|n IH]; intro H; [lia|].
  rewrite seq_S, map_app, Qsum_app. simpl.
  destruct (Nat.eq_dec s1 n) as [->|Hne].
  - rewrite Nat.eqb_refl, Qsum_zero; [ring|].
    intros i Hi. apply in_seq in Hi.
    assert (E : Nat.eqb i n = false) by (apply Nat.eqb_neq; lia).
    now rewrite E.
  - assert (E : Nat.eqb n s1 = false) by (apply Nat.eqb_neq; lia).
    rewrite E, IH by lia. ring.
Qed.

Lemma zeros_like_cell (m : list (list Q)) (i j : nat) :
  nth j (nth i (zeros_like m) []) 0 = 0.
Proof.
  unfold zeros_like.
  destruct (Nat.lt_ge_cases i (length m)) as [Hi|Hi].
  - rewrite (nth_map_in _ _ i []) by trivial.
    destruct (Nat.lt_ge_cases j (length (nth i m []))) as [Hj|Hj].
    + now rewrite (nth_map_in _ _ j 0).
    + apply nth_overflow. now rewrite length_map.
  - rewrite (nth_overflow _ [] ) by (now rewrite length_map). now destruct j.
Qed.

(** X6.  One sweep of [dist_iter] applies the Markov operator induced by
    [P] and the policy: the new mass of a cell [(a1, s1)] is the sum, over
    the cells [(a0, s0)] whose policy is [a1], of [P[s0, s1] * pmf[a0, s0]]. *)
Theorem dist_iter_is_the_markov_operator (bcm : BusinessCycleModel)
    (policy : list (list nat)) (pmf : list (list Q)) :
  shape pmf (Na bcm) (Ns bcm) ->
  (forall a0 s0, (a0 < Na bcm)%nat -> (s0 < Ns bcm)%nat ->
     (nth s0 (nth a0 policy []) 0 < Na bcm)%nat) ->
  forall a1 s1, (a1 < Na bcm)%nat -> (s1 < Ns bcm)%nat ->
    nth s1 (nth a1 (dist_iter bcm policy pmf) []) 0 == inflow bcm policy pmf a1 s1.
Proof.
  intros Hpmf Hvalid a1 s1 Ha1 Hs1. unfold dist_iter, inflow.
  pose (mu := fun m : list (list Q) => nth s1 (nth a1 m []) 0).
  destruct (zeros_like_spec pmf _ _ Hpmf) as (Hz & _).
  destruct (fold_measure mu
    (fun pmf_new a0 =>
       fold_left (fun pmf_new s0 =>
         let a1 := nth s0 (nth a0 policy []) 0%nat in
         fold_left (fun pmf_new s1 =>
           add_at pmf_new a1 s1
             (nth s1 (nth s0 (P bcm) []) 0 * nth s0 (nth a0 pmf []) 0))
           (seq 0 (Ns bcm)) pmf_new)
         (seq 0 (Ns bcm)) pmf_new)
    (fun a0 => Qsum (map (fun s0 =>
        if Nat.eqb (nth s0 (nth a0 policy []) 0%nat) a1
        then nth s1 (nth s0 (P bcm) []) 0 * nth s0 (nth a0 pmf []) 0
        else 0) (seq 0 (Ns bcm))))
    (Na bcm) (Ns bcm) (seq 0 (Na bcm)) (zeros_like pmf)) as (_ & Hm); trivial.
  - intros acc a0 Ha0 Hacc. apply in_seq in Ha0.
    apply (fold_measure mu); trivial.
    intros acc' s0 Hs0 Hacc'. apply in_seq in Hs0. cbv zeta.
    destruct (fold_measure mu
      (fun pmf_new s1' =>
         add_at pmf_new (nth s0 (nth a0 policy []) 0%nat) s1'
           (nth s1' (nth s0 (P bcm) []) 0 * nth s0 (nth a0 pmf []) 0))
      (fun s1' =>
         if Nat.eqb a1 (nth s0 (nth a0 policy []) 0%nat) && Nat.eqb s1 s1'
         then nth s1' (nth s0 (P bcm) []) 0 * nth s0 (nth a0 pmf []) 0 else 0)
      (Na bcm) (Ns bcm) (seq 0 (Ns bcm)) acc') as (Hs & Hm); trivial.
    + intros acc'' s1' Hs1' Hacc''. apply in_seq in Hs1'.
      split.
      * apply add_at_shape; trivial.
      * unfold mu. apply (add_at_cell _ (Na bcm) (Ns bcm)); trivial;
          [apply Hvalid; lia | lia].
    + split; trivial. rewrite Hm. apply Qplus_comp; [reflexivity|].
      rewrite (Nat.eqb_sym (nth s0 (nth a0 policy []) 0%nat) a1).
      destruct (Nat.eqb a1 (nth s0 (nth a0 policy []) 0%nat));
        cbv beta iota delta [andb].
      * rewrite (Qsum_ext _ (fun s =>
          if Nat.eqb s s1
          then nth s (nth s0 (P bcm) []) 0 * nth s0 (nth a0 pmf []) 0 else 0)).
        -- now apply Qsum_indicator.
        -- intros s _. now rewrite Nat.eqb_sym.
      * apply Qsum_zero. reflexivity.
  - unfold mu in Hm. rewrite Hm, zeros_like_cell. ring.
Qed.

Lemma dist_iter_is_the_markov_operator_witness :
  nth 0 (nth 0 (dist_iter toy toy_policy toy_pmf) []) 0
  == inflow toy toy_policy toy_pmf 0 0.
Proof.
  apply dist_iter_is_the_markov_operator.
  - split; [reflexivity|]. intros [|[|[|i]]] Hi; simpl in *; trivial; lia.
  - intros a0 s0 Ha0 Hs0.
    destruct a0 as [|[|[|a0]]]; [| | |simpl in Ha0; lia];
      (destruct s0 as [|[|s0]]; [| |simpl in Hs0; lia]); simpl; lia.
  - simpl; lia.
  - simpl; lia.
Defined.

(** ** What a driver returns *)

Lemma stdout_lift {A} (r : result A) : stdout (lift r) = [].
Proof. reflexivity. Qed.

Section LoopRuns.

Context {X Y : Type}.
Variable step : X -> result (X * Y).
Variable err : X -> X -> result Q.
Variable tol : Q.
Variable verbose : bool.
Variable print_skip : Z.

Local Abbreviation loop := (while_loop step err tol verbose print_skip).
Local Abbreviation pass := (pass step err tol).
Local Abbreviation passes := (passes step err tol).

(** A returning loop has made [i' - i] passes, and has stopped either on
    the tolerance or on the iteration limit. *)
Lemma loop_runs (r i : nat) (error : Q) (x : X) (last : option (X * Y))
    (i' : nat) (x' : X) (last' : option (X * Y)) :
  outcome (loop r i error x last) = Ok (i', x', last') ->
  (i <= i')%nat /\
  exists error',
    passes (i' - i) (i, error, x, last) (i', error', x', last') /\
    (error' <= tol \/ i' = (i + r)%nat).
Proof.
  revert i error x last. induction r as [|r IH]; intros i error x last H.
  - inversion H; subst. split; [lia|]. exists error.
    rewrite Nat.sub_diag. split; [constructor | right; lia].
  - rewrite loop_S in H. destruct (Qlt_bool tol error) eqn:Et.
    + apply Qlt_bool_iff in Et.
      apply outcome_bind_inv in H as ([x_new y] & Hs & H).
      apply outcome_bind_inv in H as (error1 & He & H).
      apply outcome_bind_inv in H as (_ & _ & H).
      change (step x = Ok (x_new, y)) in Hs.
      change (err x x_new = Ok error1) in He.
      apply IH in H as (Hle & error' & Hp & Hstop).
      split; [lia|]. exists error'. split.
      * replace (i' - i)%nat with (S (i' - S i)) by lia.
        eapply passes_S; [|exact Hp]. now constructor.
      * destruct Hstop as [Hstop|Hstop]; [now left | right; lia].
    + apply Qlt_bool_false in Et. inversion H; subst.
      split; [lia|]. exists error.
      rewrite Nat.sub_diag. split; [constructor | now left].
Qed.

Lemma passes_last (n : nat) (st st' : loop_state) :
  passes (S n) st st' -> exists mid, passes n st mid /\ pass mid st'.
Proof.
  revert st. induction n as [|n IH]; intros st H.
  - inversion H as [|? ? mid ? Hp Hrest]; subst.
    inversion Hrest; subst. exists st. split; [constructor | trivial].
  - inversion H as [|? ? mid ? Hp Hrest]; subst.
    apply IH in Hrest as (mid' & Hq & Hlast).
    exists mid'. split; trivial. eapply passes_S; eauto.
Qed.

Lemma passes_invariant (I : X -> Prop) (n : nat) (st st' : loop_state) :
  (forall x x_new y, I x -> step x = Ok (x_new, y) -> I x_new) ->
  passes n st st' ->
  I (snd (fst st)) -> I (snd (fst st')).
Proof.
  intros Hpres H. induction H as [st|n st st' st'' Hp _ IH]; trivial.
  intro HI. apply IH. inversion Hp; subst; simpl in *. eauto.
Qed.

(** The last pass of a loop that returns after at least one pass. *)
Lemma loop_last_sweep (I : X -> Prop) (r : nat) (error0 : Q) (x0 : X)
    (i' : nat) (x' : X) (y : Y) (x_last : X) :
  (forall x x_new y, I x -> step x = Ok (x_new, y) -> I x_new) ->
  I x0 ->
  outcome (loop r 0 error0 x0 None) = Ok (i', x', Some (x_last, y)) ->
  exists x_prev error',
    I x_prev /\ step x_prev = Ok (x', y) /\ err x_prev x' = Ok error' /\
    x_last = x' /\ (0 < i')%nat /\ (error' <= tol \/ i' = r).
Proof.
  intros Hpres HI H.
  apply loop_runs in H as (_ & error' & Hp & Hstop).
  rewrite Nat.sub_0_r in Hp.
  destruct i' as [|n]; [inversion Hp|].
  apply passes_last in Hp as ([[[im em] xm] lm] & Hq & Hlast).
  pose proof (passes_invariant I _ _ _ Hpres Hq HI) as HIm. simpl in HIm.
  inversion Hlast; subst.
  exists xm, error'. repeat split; trivial; lia.
Qed.

(** The loop itself prints progress lines only. *)
Lemma loop_stdout (r i : nat) (error : Q) (x : X) (last : option (X * Y))
    (ln : line) :
  In ln (stdout (loop r i error x last)) ->
  exists k e, ln = ErrorAtIteration k e.
Proof.
  revert i error x last. induction r as [|r IH]; intros i error x last H.
  - destruct H.
  - rewrite loop_S in H. destruct (Qlt_bool tol error); [|destruct H].
    rewrite stdout_bind, stdout_lift, outcome_lift, app_nil_l in H.
    destruct (step x) as [[x_new y]|e|]; [|destruct H|destruct H].
    rewrite stdout_bind, stdout_lift, outcome_lift, app_nil_l in H.
    destruct (err x x_new) as [error'|e|]; [|destruct H|destruct H].
    rewrite stdout_bind in H. apply in_app_or in H as [H|H].
    + unfold progress in H. destruct verbose; [|destruct H].
      destruct (print_skip =? 0)%Z; [destruct H|].
      destruct (Z.of_nat (S i) mod print_skip =? 0)%Z; [|destruct H].
      destruct H as [<-|[]]. eauto.
    + destruct (outcome (progress verbose print_skip (S i) error'));
        [|destruct H|destruct H].
      now apply IH in H.
Qed.

End LoopRuns.

Lemma np_max_bounds (l : list Q) (m : Q) :
  np_max l = Ok m -> forall z, In z l -> z <= m.
Proof.
  intros H z Hz.
  destruct l as [|x t]; [destruct Hz|].
  destruct (np_max_argmax (x :: t)) as (m' & k & Em & _ & _ & _ & Hle & _);
    [discriminate|].
  rewrite Em in H. inversion H; subst.
  apply (In_nth _ _ 0) in Hz as (j & Hj & <-). now apply Hle.
Qed.

Lemma nth_map2 {A B C} (f : A -> B -> C) (l : list A) (l' : list B)
    (i : nat) (a : A) (b : B) (d : C) :
  (i < length l)%nat -> (i < length l')%nat ->
  nth i (map2 f l l') d = f (nth i l a) (nth i l' b).
Proof.
  revert l' i. induction l as [|x t IH]; intros [|y t'] i Hi Hi'; simpl in *; try lia.
  destruct i as [|i]; trivial. apply IH; lia.
Qed.

Lemma map2_length {A B C} (f : A -> B -> C) (l : list A) (l' : list B) :
  length l = length l' -> length (map2 f l l') = length l.
Proof.
  revert l'. induction l as [|x t IH]; intros [|y t'] H; simpl in *; try lia.
  f_equal. apply IH. lia.
Qed.

(** [sup_error] bounds the difference in every cell. *)
Lemma sup_error_within (x y : list (list Q)) (n k : nat) (e : Q) :
  shape x n k -> shape y n k -> sup_error x y = Ok e -> within e x y n k.
Proof.
  intros (Hxn & Hxk) (Hyn & Hyk) H i j Hi Hj. unfold sup_error in H.
  apply (np_max_bounds _ _ H). apply in_concat.
  exists (map2 (fun a b => Qabs (a - b)) (nth i x []) (nth i y [])). split.
  - rewrite <- (nth_map2 (map2 (fun a b => Qabs (a - b))) x y i [] [] []) by lia.
    apply nth_In. rewrite map2_length; lia.
  - rewrite <- (nth_map2 (fun a b => Qabs (a - b)) (nth i x []) (nth i y []) j 0 0 0)
      by (rewrite ?Hxk, ?Hyk; trivial).
    apply nth_In. rewrite map2_length; rewrite Hxk, ?Hyk; trivial.
Qed.

Lemma within_weaken (d d' : Q) (x y : list (list Q)) (n k : nat) :
  d <= d' -> within d x y n k -> within d' x y n k.
Proof.
  intros Hd H i j Hi Hj. apply Qle_trans with d; auto.
Qed.

Lemma T_step_Ok (bcm : BusinessCycleModel)
    (parallel_flag : bool) (u c : list (list (list Q)))
    (v v_new : list (list Q)) (policy : list (list nat)) (gamma : list (list Q)) :
  T_step bcm parallel_flag u c v = Ok (v_new, (policy, gamma)) ->
  T bcm parallel_flag v u c = Ok (v_new, policy, gamma).
Proof.
  unfold T_step. intro H.
  apply bind_Ok in H as ([[vn pn] gn] & HT & H). now inversion H; subst.
Qed.

Lemma zeros_shape (n k : nat) : shape (zeros n k) n k.
Proof.
  unfold zeros, shape. rewrite repeat_length. split; trivial.
  intros j Hj. rewrite nth_repeat_lt by trivial. apply repeat_length.
Qed.

Section ValueIterationRun.

Variable lib : Library.
Variable bcm : BusinessCycleModel.
Variable parallel_flag : bool.
Variable tol : Q.
Variable max_iter : Z.
Variable verbose : bool.
Variable print_skip : Z.

Local Abbreviation run :=
  (solve_model_value_iteration lib bcm parallel_flag tol max_iter verbose print_skip).

(** The pieces of a returning run: the tables, the number of sweeps and
    the final loop variables. *)
Lemma value_iteration_inv (v : list (list Q)) (policy : list (list nat))
    (gamma : list (list Q)) :
  outcome run = Ok (v, policy, gamma) ->
  exists c u i x_last,
    util lib bcm parallel_flag = Ok (c, u) /\
    outcome (while_loop (T_step bcm parallel_flag u c) sup_error tol verbose print_skip
               (Z.to_nat max_iter) 0 (float_add lib tol 1)
               (zeros (Na bcm) (Ns bcm)) None)
      = Ok (i, v, Some (x_last, (policy, gamma))) /\
    stdout run
      = (if verbose then [SolveValueIteration] else [])
        ++ stdout (while_loop (T_step bcm parallel_flag u c) sup_error tol
                     verbose print_skip
                     (Z.to_nat max_iter) 0 (float_add lib tol 1)
                     (zeros (Na bcm) (Ns bcm)) None)
        ++ (if (Z.of_nat i =? max_iter)%Z then [FailedToConverge] else [])
        ++ (if (Z.of_nat i <? max_iter)%Z && verbose then [ConvergedIn i] else []).
Proof.
  unfold solve_model_value_iteration. intro H.
  pose proof H as H0.
  apply outcome_bind_inv in H as (_ & _ & H).
  apply outcome_bind_inv in H as ([c u] & Hu & H).
  apply outcome_bind_inv in H as ([[i v'] l] & Hloop & H).
  apply outcome_bind_inv in H as (_ & _ & H).
  apply outcome_bind_inv in H as (_ & _ & H).
  destruct l as [[x_last [pol g]]|]; [|discriminate].
  inversion H; subst v' pol g. clear H.
  change (util lib bcm parallel_flag = Ok (c, u)) in Hu.
  exists c, u, i, x_last. split; [exact Hu|]. split; [exact Hloop|].
  rewrite stdout_bind, (when_Ok verbose SolveValueIteration).
  rewrite stdout_bind, stdout_lift, outcome_lift, Hu, app_nil_l.
  rewrite stdout_bind, Hloop. cbv beta iota.
  rewrite stdout_bind, when_Ok, stdout_bind, when_Ok.
  f_equal; [now destruct verbose|]. f_equal.
  f_equal; [now destruct (Z.of_nat i =? max_iter)%Z|].
  destruct ((Z.of_nat i <? max_iter)%Z && verbose); reflexivity.
Qed.

End ValueIterationRun.

(** X7.  What value iteration returns is one application of the Bellman
    operator: [(v, policy, gamma) = T(v_prev, u, c)] for the previous
    iterate [v_prev]; so the policy is greedy for [v_prev], and [v] is
    within the tolerance of [v_prev] in every cell unless
    'Failed to converge!' was printed. *)
Theorem value_iteration_returns_a_bellman_update (lib : Library)
    (bcm : BusinessCycleModel)
    (parallel_flag : bool) (tol : Q) (max_iter : Z) (verbose : bool)
    (print_skip : Z) (v : list (list Q)) (policy : list (list nat))
    (gamma : list (list Q)) :
  let run := solve_model_value_iteration lib bcm parallel_flag
        tol max_iter verbose print_skip in
  outcome run = Ok (v, policy, gamma) ->
  exists c u v_prev,
    util lib bcm parallel_flag = Ok (c, u) /\
    shape v_prev (Na bcm) (Ns bcm) /\
    T bcm parallel_flag v_prev u c = Ok (v, policy, gamma) /\
    (within tol v_prev v (Na bcm) (Ns bcm) \/ In FailedToConverge (stdout run)).
Proof.
  intros run H.
  destruct (value_iteration_inv lib bcm parallel_flag tol max_iter verbose print_skip
              v policy gamma H) as (c & u & i & x_last & Hu & Hloop & Hout).
  apply (loop_last_sweep _ _ _ _ _ (fun x => shape x (Na bcm) (Ns bcm))) in Hloop
    as (v_prev & e & Hshape & Hstep & Herr & _ & Hi & Hstop).
  - apply T_step_Ok in Hstep.
    exists c, u, v_prev. repeat split; trivial; try apply Hshape.
    destruct Hstop as [Hle|Hmax].
    + left. apply within_weaken with e; trivial.
      apply sup_error_within; trivial.
      now apply T_shape in Hstep.
    + right. unfold run. rewrite Hout.
      assert (Ei : (Z.of_nat i =? max_iter)%Z = true) by (apply Z.eqb_eq; lia).
      rewrite Ei. apply in_or_app. right. apply in_or_app. right.
      simpl. auto.
  - intros x x_new [pol g] _ Hs. apply T_step_Ok in Hs.
    now apply T_shape in Hs.
  - apply zeros_shape.
Qed.

Lemma value_iteration_returns_a_bellman_update_witness :
  exists v policy gamma v_prev,
    outcome (solve_model_value_iteration lib0 toy true 1000 2 false 100)
      = Ok (v, policy, gamma) /\
    T toy true v_prev toy_u toy_c = Ok (v, policy, gamma).
Proof.
  pose (r := from_Ok ([], [], [])
               (outcome (solve_model_value_iteration lib0 toy true 1000 2 false 100))).
  assert (E : outcome (solve_model_value_iteration lib0 toy true 1000 2 false 100)
              = Ok (fst (fst r), snd (fst r), snd r)) by (vm_compute; reflexivity).
  destruct (value_iteration_returns_a_bellman_update lib0 toy true 1000 2 false 100
              (fst (fst r)) (snd (fst r)) (snd r) E)
    as (c & u & v_prev & Hu & _ & HT & _).
  exists (fst (fst r)), (snd (fst r)), (snd r), v_prev. split; trivial.
  assert (Ecu : util lib0 toy true = Ok (toy_c, toy_u)) by (vm_compute; reflexivity).
  rewrite Ecu in Hu. inversion Hu; subst. exact HT.
Defined.

(** X8.  The run reports on its number of sweeps [i], not on its last
    error: 'Failed to converge!' is printed exactly when [i = max_iter]
    (also when that last sweep met the tolerance) and 'Converged in [i]
    iterations.' exactly when [i < max_iter] and [verbose]; and a run that
    stopped short of [max_iter] did meet the tolerance. *)
Theorem value_iteration_reports_the_sweep_count (lib : Library)
    (bcm : BusinessCycleModel)
    (parallel_flag : bool) (tol : Q) (max_iter : Z) (verbose : bool)
    (print_skip : Z) (v : list (list Q)) (policy : list (list nat))
    (gamma : list (list Q)) :
  let run := solve_model_value_iteration lib bcm parallel_flag
        tol max_iter verbose print_skip in
  outcome run = Ok (v, policy, gamma) ->
  exists c u i error v_last,
    util lib bcm parallel_flag = Ok (c, u) /\
    passes (T_step bcm parallel_flag u c) sup_error tol i
           (0%nat, float_add lib tol 1, zeros (Na bcm) (Ns bcm), None)
           (i, error, v, Some (v_last, (policy, gamma))) /\
    (In FailedToConverge (stdout run) <-> Z.of_nat i = max_iter) /\
    (In (ConvergedIn i) (stdout run) <-> (Z.of_nat i < max_iter)%Z /\ verbose = true) /\
    ((Z.of_nat i < max_iter)%Z -> error <= tol).
Proof.
  intros run H.
  destruct (value_iteration_inv lib bcm parallel_flag tol max_iter verbose print_skip
              v policy gamma H) as (c & u & i & x_last & Hu & Hloop & Hout).
  pose proof (fun ln =>
    loop_stdout (T_step bcm parallel_flag u c) sup_error tol verbose print_skip
      (Z.to_nat max_iter) 0%nat (float_add lib tol 1) (zeros (Na bcm) (Ns bcm)) None ln)
    as Hlines.
  apply loop_runs in Hloop as (_ & error & Hp & Hstop).
  rewrite Nat.sub_0_r in Hp.
  exists c, u, i, error, x_last. split; [trivial|]. split; [trivial|].
  unfold run. rewrite Hout. split; [|split].
  - split.
    + intro Hin. apply in_app_or in Hin as [Hin|Hin].
      { destruct verbose; [destruct Hin as [E|[]]; discriminate E | destruct Hin]. }
      apply in_app_or in Hin as [Hin|Hin].
      { apply Hlines in Hin as (k & e & E). discriminate E. }
      apply in_app_or in Hin as [Hin|Hin].
      * destruct (Z.of_nat i =? max_iter)%Z eqn:Ei; [|destruct Hin].
        now apply Z.eqb_eq in Ei.
      * destruct ((Z.of_nat i <? max_iter)%Z && verbose);
          [destruct Hin as [E|[]]; discriminate E | destruct Hin].
    + intro Ei. apply Z.eqb_eq in Ei. rewrite Ei.
      apply in_or_app. right. apply in_or_app. right. simpl. auto.
  - split.
    + intro Hin. apply in_app_or in Hin as [Hin|Hin].
      { destruct verbose; [destruct Hin as [E|[]]; discriminate E | destruct Hin]. }
      apply in_app_or in Hin as [Hin|Hin].
      { apply Hlines in Hin as (k & e & E). discriminate E. }
      apply in_app_or in Hin as [Hin|Hin].
      * destruct (Z.of_nat i =? max_iter)%Z;
          [destruct Hin as [E|[]]; discriminate E | destruct Hin].
      * destruct (Z.of_nat i <? max_iter)%Z eqn:Ei; [|destruct Hin].
        destruct verbose; [|destruct Hin].
        apply Z.ltb_lt in Ei. auto.
    + intros (Ei & ->). apply Z.ltb_lt in Ei. rewrite Ei.
      apply in_or_app. right. apply in_or_app. right.
      apply in_or_app. right. simpl. auto.
  - intro Hlt. destruct Hstop as [Hle|Hmax]; trivial. lia.
Qed.

Lemma value_iteration_reports_the_sweep_count_witness :
  exists c u i error v v_last policy gamma,
    passes (T_step toy true u c) sup_error 1000 i
           (0%nat, 1000 + 1, zeros 3 2, None)
           (i, error, v, Some (v_last, (policy, gamma))) /\
    Z.of_nat i = 1%Z.
Proof.
  pose (r := from_Ok ([], [], [])
               (outcome (solve_model_value_iteration lib0 toy true 1000 1 true 100))).
  assert (E : outcome (solve_model_value_iteration lib0 toy true 1000 1 true 100)
              = Ok (fst (fst r), snd (fst r), snd r)) by (vm_compute; reflexivity).
  destruct (value_iteration_reports_the_sweep_count lib0 toy true 1000 1 true 100
              (fst (fst r)) (snd (fst r)) (snd r) E)
    as (c & u & i & error & v_last & _ & Hp & Hfail & _).
  exists c, u, i, error, (fst (fst r)), v_last, (snd (fst r)), (snd r).
  split; [exact Hp|].
  apply (proj1 Hfail). vm_compute. auto.
Defined.

Section LoopStarts.

Context {X Y : Type}.
Variable step : X -> result (X * Y).
Variable err : X -> X -> result Q.
Variable tol : Q.
Variable verbose : bool.
Variable print_skip : Z.

(** A loop entered above the tolerance with iterations to spare makes at
    least one pass; its last pass is described as in [loop_last_sweep]. *)
Lemma loop_first_sweep (I : X -> Prop) (r : nat) (error0 : Q) (x0 : X)
    (i' : nat) (x' : X) (last' : option (X * Y)) :
  (forall x x_new y, I x -> step x = Ok (x_new, y) -> I x_new) ->
  I x0 -> tol < error0 -> (0 < r)%nat ->
  outcome (while_loop step err tol verbose print_skip r 0 error0 x0 None)
    = Ok (i', x', last') ->
  exists x_prev y error',
    I x_prev /\ step x_prev = Ok (x', y) /\ err x_prev x' = Ok error' /\
    last' = Some (x', y) /\ (0 < i')%nat /\ (error' <= tol \/ i' = r).
Proof.
  intros Hpres HI Htol Hr H.
  pose proof H as H0.
  apply loop_runs in H as (_ & error' & Hp & Hstop).
  rewrite Nat.sub_0_r in Hp.
  destruct i' as [|n].
  - inversion Hp; subst. destruct Hstop as [Hle|E]; [|lia].
    exfalso. apply (Qlt_not_le _ _ Htol Hle).
  - pose proof Hp as Hq. apply passes_last in Hq as ([[[im em] xm] lm] & _ & Hlast).
    inversion Hlast; subst.
    match goal with
    | Hout : outcome _ = Ok (?k, _, Some (_, ?y0)) |- _ =>
        destruct (loop_last_sweep step err tol verbose print_skip I r error0 x0
                    k x' y0 x' Hpres HI Hout)
          as (x_prev & e & Ka & Kb & Kc & _ & Kd & Ke);
        exists x_prev, y0, e
    end.
    repeat split; trivial.
Qed.

End LoopStarts.

(** ** The returned distribution *)

Lemma dist_iter_nonneg (bcm : BusinessCycleModel) (policy : list (list nat))
    (pmf : list (list Q)) :
  (forall s0 s1, 0 <= nth s1 (nth s0 (P bcm) []) 0) ->
  nonneg pmf -> nonneg (dist_iter bcm policy pmf).
Proof.
  intros HP Hpmf. unfold dist_iter.
  apply fold_left_inv.
  - intros acc a0 Hacc. apply fold_left_inv; trivial.
    intros acc' s0 Hacc'. cbv zeta. apply fold_left_inv; trivial.
    intros acc'' s1 Hacc''. apply add_at_nonneg; trivial.
    apply Qmult_le_0_compat; [apply HP | apply Hpmf].
  - intros i j. rewrite zeros_like_cell. apply Qle_refl.
Qed.

Lemma constant_nonneg {A} (x : Q) (m : list (list A)) :
  0 <= x -> nonneg (map (map (fun _ => x)) m).
Proof.
  intros Hx i j.
  destruct (Nat.lt_ge_cases i (length m)) as [Hi|Hi].
  - rewrite (nth_map_in _ _ i []) by trivial.
    destruct (Nat.lt_ge_cases j (length (nth i m []))) as [Hj|Hj].
    + destruct (nth i m []) as [|a row] eqn:E; [simpl in Hj; lia|].
      now rewrite (nth_map_in _ _ j a).
    + rewrite nth_overflow by (now rewrite length_map). apply Qle_refl.
  - rewrite (nth_overflow _ []) by (now rewrite length_map).
    destruct j; apply Qle_refl.
Qed.

Lemma uniform_pmf_nonneg (bcm : BusinessCycleModel) (policy : list (list nat))
    (pmf : list (list Q)) :
  uniform_pmf bcm policy = Ok pmf -> nonneg pmf.
Proof.
  unfold uniform_pmf. intro H.
  apply bind_Ok in H as (w & Hw & H). inversion H; subst pmf; clear H.
  apply fdiv_Ok_inv in Hw as (_ & ->).
  apply constant_nonneg.
  rewrite Qmult_1_l. unfold Qdiv. rewrite Qmult_1_l.
  apply Qinv_le_0_compat. unfold Qle, inject_Z. cbn [Qnum Qden]. lia.
Qed.

Section DistributionRun.

Variable lib : Library.
Variable bcm : BusinessCycleModel.
Variable policy : list (list nat).
Variable tol : Q.
Variable max_iter : Z.
Variable verbose : bool.
Variable print_skip : Z.

Local Abbreviation run :=
  (solve_invariant_dist lib bcm policy tol max_iter verbose print_skip).

Lemma invariant_dist_inv (pmf : list (list Q)) :
  outcome run = Ok pmf ->
  exists pmf0 i last,
    uniform_pmf bcm policy = Ok pmf0 /\
    outcome (while_loop (dist_step bcm policy) sup_error tol verbose print_skip
               (Z.to_nat max_iter) 0 (float_add lib 1 tol)
               pmf0 None) = Ok (i, pmf, last) /\
    stdout run
      = stdout (while_loop (dist_step bcm policy) sup_error tol verbose print_skip
                  (Z.to_nat max_iter) 0 (float_add lib 1 tol) pmf0 None)
        ++ (if (Z.of_nat i =? max_iter)%Z then [FailedToConverge] else [])
        ++ (if (Z.of_nat i <? max_iter)%Z && verbose then [ConvergedIn i] else []).
Proof.
  unfold solve_invariant_dist. intro H.
  apply outcome_bind_inv in H as (pmf0 & H0 & H).
  apply outcome_bind_inv in H as ([[i pmf'] l] & Hloop & H).
  apply outcome_bind_inv in H as (_ & _ & H).
  apply outcome_bind_inv in H as (_ & _ & H).
  inversion H; subst pmf'. clear H.
  change (uniform_pmf bcm policy = Ok pmf0) in H0.
  exists pmf0, i, l. split; [exact H0|]. split; [exact Hloop|].
  rewrite stdout_bind, stdout_lift, outcome_lift, H0, app_nil_l.
  rewrite stdout_bind, Hloop. cbv beta iota.
  rewrite stdout_bind, when_Ok, stdout_bind, when_Ok.
  f_equal.
  f_equal; [now destruct (Z.of_nat i =? max_iter)%Z|].
  destruct ((Z.of_nat i <? max_iter)%Z && verbose); simpl; reflexivity.
Qed.

End DistributionRun.

(** X9.  On a constructed model a sweep of [dist_iter] keeps a
    non-negative array non-negative, and the distribution that
    [solve_invariant_dist] returns has no negative entry. *)
Theorem invariant_dist_is_nonnegative (lib : Library) (o : Options)
    (bcm : BusinessCycleModel) (policy : list (list nat)) :
  outcome (__init__ lib o) = Ok bcm ->
  (forall pmf, nonneg pmf -> nonneg (dist_iter bcm policy pmf)) /\
  (forall tol max_iter verbose print_skip pmf,
     outcome (solve_invariant_dist lib bcm policy tol max_iter verbose print_skip)
       = Ok pmf ->
     nonneg pmf).
Proof.
  intro Hinit.
  pose proof (constructed_P_nonneg lib o bcm Hinit) as HP.
  split.
  - intros pmf. now apply dist_iter_nonneg.
  - intros tol max_iter verbose print_skip pmf H.
    apply invariant_dist_inv in H as (pmf0 & i & l & H0 & Hloop & _).
    apply (loop_invariant _ _ _ _ _ (fun x _ => nonneg x)) in Hloop.
    + now destruct Hloop.
    + intros x l' x_new y Hx Hstep. inversion Hstep; subst.
      now apply dist_iter_nonneg.
    + now apply (uniform_pmf_nonneg bcm policy).
Qed.

Lemma invariant_dist_is_nonnegative_witness :
  let bcm := from_Ok toy (outcome (__init__ lib0 toy_options)) in
  nonneg (dist_iter bcm toy_policy toy_pmf).
Proof.
  intro bcm.
  destruct (invariant_dist_is_nonnegative lib0 toy_options bcm toy_policy)
    as (H & _).
  - vm_compute. reflexivity.
  - apply H. intros i j.
    do 4 (try destruct i as [|i]); do 3 (try destruct j as [|j]);
      simpl; try (intro E; discriminate E); destruct j; intro E; discriminate E.
Defined.

(** X10.  With at least one iteration allowed and a tolerance that the
    float sum [1 + tol] exceeds (in binary64, any tolerance below [2^53] in
    magnitude), the distribution that [solve_invariant_dist] returns is one
    sweep [dist_iter(prev)] of a distribution [prev] over the grid, and it
    is within the tolerance of [prev] in every cell -- stationary up to
    [tol] -- unless 'Failed to converge!' was printed. *)
Theorem invariant_dist_is_nearly_stationary (lib : Library)
    (bcm : BusinessCycleModel)
    (policy : list (list nat)) (tol : Q) (max_iter : Z) (verbose : bool)
    (print_skip : Z) (pmf : list (list Q)) :
  let run := solve_invariant_dist lib bcm policy tol max_iter verbose print_skip in
  shape policy (Na bcm) (Ns bcm) ->
  (0 < max_iter)%Z ->
  tol < float_add lib 1 tol ->
  outcome run = Ok pmf ->
  exists prev,
    shape prev (Na bcm) (Ns bcm) /\
    pmf = dist_iter bcm policy prev /\
    (within tol prev pmf (Na bcm) (Ns bcm) \/ In FailedToConverge (stdout run)).
Proof.
  intros run Hpol Hmax Htol H.
  apply invariant_dist_inv in H as (pmf0 & i & l & H0 & Hloop & Hout).
  apply (loop_first_sweep _ _ _ _ _ (fun x => shape x (Na bcm) (Ns bcm))) in Hloop
    as (prev & y & e & Hshape & Hstep & Herr & _ & Hi & Hstop).
  - inversion Hstep; subst. exists prev. repeat split; try apply Hshape.
    destruct Hstop as [Hle|Hlim].
    + left. apply within_weaken with e; trivial.
      apply sup_error_within; trivial. now apply dist_iter_shape.
    + right. unfold run. rewrite Hout.
      assert (Ei : (Z.of_nat i =? max_iter)%Z = true) by (apply Z.eqb_eq; lia).
      rewrite Ei. apply in_or_app. right. simpl. auto.
  - intros x x_new y Hx Hstep. inversion Hstep; subst.
    now apply dist_iter_shape.
  - now apply (uniform_pmf_spec bcm policy).
  - exact Htol.
  - lia.
Qed.

Lemma invariant_dist_is_nearly_stationary_witness :
  exists pmf prev,
    outcome (solve_invariant_dist lib0 toy toy_policy 1 3 false 50) = Ok pmf /\
    pmf = dist_iter toy toy_policy prev.
Proof.
  pose (pmf := from_Ok []
                 (outcome (solve_invariant_dist lib0 toy toy_policy 1 3 false 50))).
  assert (E : outcome (solve_invariant_dist lib0 toy toy_policy 1 3 false 50) = Ok pmf)
    by (vm_compute; reflexivity).
  destruct (invariant_dist_is_nearly_stationary lib0 toy toy_policy 1 3 false 50 pmf)
    as (prev & _ & Hprev & _).
  - split; [reflexivity|]. intros [|[|[|i]]] Hi; simpl in Hi |- *; trivial; lia.
  - lia.
  - reflexivity.
  - exact E.
  - exists pmf, prev. split; [exact E | exact Hprev].
Defined.

(** ** The policy-iteration run *)

Lemma K_shape (lib : Library) (bcm : BusinessCycleModel)
    (gamma gamma_new asset_policy : list (list Q)) :
  K lib bcm gamma = Ok (gamma_new, asset_policy) ->
  shape gamma_new (length (a_vals bcm)) (Ns bcm) /\
  shape asset_policy (length (a_vals bcm)) (Ns bcm).
Proof.
  unfold K. intro H.
  apply bind_Ok in H as (cells & Hcells & H). inversion H; subst; clear H.
  pose proof (mapM_Ok_length _ _ _ Hcells) as Hlen.
  assert (Hrow : forall i, (i < length (a_vals bcm))%nat ->
                           length (nth i cells []) = Ns bcm).
  { intros i Hi. apply (mapM_Ok_nth _ _ _ 0 [] i) in Hcells; trivial.
    apply mapM_Ok_length in Hcells. now rewrite length_seq in Hcells. }
  unfold shape. rewrite !length_map.
  repeat split; trivial; intros i Hi;
    rewrite (nth_map_in _ _ i []) by lia; rewrite length_map; now apply Hrow.
Qed.

Lemma gamma_init_shape (bcm : BusinessCycleModel) :
  shape (gamma_init bcm) (length (a_vals bcm)) (Ns bcm).
Proof.
  unfold gamma_init, shape. rewrite length_map. split; trivial.
  intros i Hi. rewrite (nth_map_in _ _ i 0) by trivial. apply repeat_length.
Qed.

Section TimeIterationRun.

Variable lib : Library.
Variable bcm : BusinessCycleModel.
Variable tol : Q.
Variable max_iter : Z.
Variable verbose : bool.
Variable print_skip : Z.

Local Abbreviation run :=
  (solve_model_time_iter lib bcm tol max_iter verbose print_skip).

Lemma time_iteration_inv (gamma_new asset_policy : list (list Q)) :
  outcome run = Ok (gamma_new, asset_policy) ->
  exists i gamma,
    outcome (while_loop (K lib bcm) sup_error tol verbose print_skip
               (Z.to_nat max_iter) 0 (float_add lib tol 1) (gamma_init bcm) None)
      = Ok (i, gamma, Some (gamma_new, asset_policy)) /\
    stdout run
      = (if verbose then [SolvePolicyIteration] else [])
        ++ stdout (while_loop (K lib bcm) sup_error tol verbose print_skip
                     (Z.to_nat max_iter) 0 (float_add lib tol 1) (gamma_init bcm) None)
        ++ (if (Z.of_nat i =? max_iter)%Z then [FailedToConverge] else [])
        ++ (if verbose then [ConvergedIn i] else []).
Proof.
  unfold solve_model_time_iter. intro H.
  apply outcome_bind_inv in H as (_ & _ & H).
  apply outcome_bind_inv in H as ([[i g] l] & Hloop & H).
  apply outcome_bind_inv in H as (_ & _ & H).
  apply outcome_bind_inv in H as (_ & _ & H).
  destruct l as [[gn ap]|]; [|discriminate].
  inversion H; subst gn ap. clear H.
  exists i, g. split; [exact Hloop|].
  rewrite stdout_bind, (when_Ok verbose SolvePolicyIteration).
  cbv zeta. rewrite stdout_bind, Hloop. cbv beta iota.
  rewrite stdout_bind, when_Ok, stdout_bind, when_Ok.
  f_equal; [now destruct verbose|]. f_equal.
  f_equal; [now destruct (Z.of_nat i =? max_iter)%Z|].
  destruct verbose; reflexivity.
Qed.

End TimeIterationRun.

(** X11.  What policy iteration returns is one application of the Euler
    operator, [(gamma_new, asset_policy) = K(gamma_prev)], within the
    tolerance of [gamma_prev] in every cell unless 'Failed to converge!'
    was printed; and with [verbose] it prints 'Converged in [i]
    iterations.' on every return, also right after 'Failed to converge!'. *)
Theorem time_iteration_returns_an_euler_update (lib : Library)
    (bcm : BusinessCycleModel) (tol : Q) (max_iter : Z) (verbose : bool)
    (print_skip : Z) (gamma_new asset_policy : list (list Q)) :
  let run := solve_model_time_iter lib bcm tol max_iter verbose print_skip in
  outcome run = Ok (gamma_new, asset_policy) ->
  (exists gamma_prev,
     shape gamma_prev (length (a_vals bcm)) (Ns bcm) /\
     K lib bcm gamma_prev = Ok (gamma_new, asset_policy) /\
     (within tol gamma_prev gamma_new (length (a_vals bcm)) (Ns bcm)
      \/ In FailedToConverge (stdout run))) /\
  (verbose = true -> exists i, In (ConvergedIn i) (stdout run)).
Proof.
  intros run H.
  destruct (time_iteration_inv lib bcm tol max_iter verbose print_skip
              gamma_new asset_policy H) as (i & g & Hloop & Hout).
  split.
  - apply (loop_last_sweep _ _ _ _ _
             (fun x => shape x (length (a_vals bcm)) (Ns bcm))) in Hloop
      as (gamma_prev & e & Hshape & Hstep & Herr & <- & Hi & Hstop).
    + exists gamma_prev. repeat split; trivial; try apply Hshape.
      destruct Hstop as [Hle|Hlim].
      * left. apply within_weaken with e; trivial.
        apply sup_error_within; trivial. now apply K_shape in Hstep.
      * right. unfold run. rewrite Hout.
        assert (Ei : (Z.of_nat i =? max_iter)%Z = true) by (apply Z.eqb_eq; lia).
        rewrite Ei. apply in_or_app. right. apply in_or_app. right.
        simpl. auto.
    + intros x x_new y _ Hs. now apply K_shape in Hs.
    + apply gamma_init_shape.
  - intros ->. exists i. unfold run. rewrite Hout.
    apply in_or_app. right. apply in_or_app. right.
    apply in_or_app. right. simpl. auto.
Qed.

Lemma time_iteration_returns_an_euler_update_witness :
  In FailedToConverge (stdout (solve_model_time_iter lib0 rich 0.5 1 true 5)) /\
  exists i, In (ConvergedIn i) (stdout (solve_model_time_iter lib0 rich 0.5 1 true 5)).
Proof.
  pose (r := from_Ok ([], [])
               (outcome (solve_model_time_iter lib0 rich 0.5 1 true 5))).
  assert (E : outcome (solve_model_time_iter lib0 rich 0.5 1 true 5)
              = Ok (fst r, snd r)) by (vm_compute; reflexivity).
  destruct (time_iteration_returns_an_euler_update lib0 rich 0.5 1 true 5
              (fst r) (snd r) E) as (_ & Hconv).
  split.
  - vm_compute. auto.
  - now apply Hconv.
Defined.

(** ** The Euler operator and the borrowing constraint *)

Lemma py_max_ge_r (x y : Q) : y <= py_max x y.
Proof.
  unfold py_max. destruct (Qlt_bool x y) eqn:E; [apply Qle_refl|].
  now apply Qlt_bool_false in E.
Qed.

(** X12.  Whatever the current policy, the Euler residual at consumption
    [c] is at most [u'(c) - u'(a + y(s))]; at the upper end of the bracket,
    [c = a + y(s)], it is therefore never positive. *)
Theorem euler_diff_upper_end (lib : Library) (bcm : BusinessCycleModel)
    (gamma : list (list Q)) (a : Q) (s : nat) :
  (forall c, euler_diff lib bcm c a s gamma
             <= u_prime lib bcm c - u_prime lib bcm (a + nth s (y_vals bcm) 0)) /\
  euler_diff lib bcm (a + nth s (y_vals bcm) 0) a s gamma <= 0.
Proof.
  assert (H : forall c, euler_diff lib bcm c a s gamma
             <= u_prime lib bcm c - u_prime lib bcm (a + nth s (y_vals bcm) 0)).
  { intro c. unfold euler_diff. cbv zeta.
    match goal with
    | |- _ - py_max ?x ?y <= _ => pose proof (py_max_ge_r x y) as Hm;
        revert Hm; generalize (py_max x y)
    end.
    intros m Hm. lra. }
  split; trivial.
  specialize (H (a + nth s (y_vals bcm) 0)). lra.
Qed.




(** ** Degenerate runs *)

(** X14.  With [max_iter <= 0] no sweep is made: value iteration and
    policy iteration then raise [UnboundLocalError], their return
    statements reading variables that only the loop body binds, whereas
    [solve_invariant_dist] returns the uniform distribution it started
    from. *)
Theorem drivers_without_iterations (lib : Library) (bcm : BusinessCycleModel)
    (parallel_flag : bool)
    (policy : list (list nat)) (tol : Q) (max_iter : Z) (verbose : bool)
    (print_skip : Z) :
  (max_iter <= 0)%Z ->
  (forall c u, util lib bcm parallel_flag = Ok (c, u) ->
     outcome (solve_model_value_iteration lib bcm parallel_flag
           tol max_iter verbose print_skip)
     = Raise (UnboundLocalError "policy")) /\
  outcome (solve_model_time_iter lib bcm tol max_iter verbose print_skip)
  = Raise (UnboundLocalError "gamma_new") /\
  (forall pmf0, uniform_pmf bcm policy = Ok pmf0 ->
     outcome (solve_invariant_dist lib bcm policy tol max_iter verbose print_skip)
     = Ok pmf0).
Proof.
  intro Hmax.
  assert (E : Z.to_nat max_iter = 0%nat) by lia.
  split; [|split].
  - intros c u Hu. unfold solve_model_value_iteration.
    bind_ok (when_Ok verbose SolveValueIteration).
    assert (Hu' : outcome (lift (util lib bcm parallel_flag)) = Ok (c, u)) by exact Hu.
    bind_ok Hu'. rewrite E.
    rewrite (outcome_bind_Ok _ _ (0%nat, zeros (Na bcm) (Ns bcm), None))
      by reflexivity.
    cbv beta iota.
    rewrite (outcome_bind_Ok _ _ tt) by apply when_Ok.
    now rewrite (outcome_bind_Ok _ _ tt) by apply when_Ok.
  - unfold solve_model_time_iter.
    bind_ok (when_Ok verbose SolvePolicyIteration). cbv zeta. rewrite E.
    rewrite (outcome_bind_Ok _ _ (0%nat, gamma_init bcm, None)) by reflexivity.
    cbv beta iota.
    rewrite (outcome_bind_Ok _ _ tt) by apply when_Ok.
    now rewrite (outcome_bind_Ok _ _ tt) by apply when_Ok.
  - intros pmf0 H0. unfold solve_invariant_dist.
    assert (H0' : outcome (lift (uniform_pmf bcm policy)) = Ok pmf0) by exact H0.
    bind_ok H0'. rewrite E.
    rewrite (outcome_bind_Ok _ _ (0%nat, pmf0, None)) by reflexivity.
    cbv beta iota.
    rewrite (outcome_bind_Ok _ _ tt) by apply when_Ok.
    now rewrite (outcome_bind_Ok _ _ tt) by apply when_Ok.
Qed.

Lemma drivers_without_iterations_witness :
  outcome (solve_model_time_iter lib0 toy 1e-4 0 true 25)
  = Raise (UnboundLocalError "gamma_new").
Proof.
  destruct (drivers_without_iterations lib0 toy true toy_policy 1e-4 0 true 25)
    as (_ & H & _); [lia | exact H].
Defined.

(** X15.  A grid without points is accepted by the constructor and refused
    only by the solvers: on a model built with [Na = 0] and with at least one
    iteration allowed, [solve_invariant_dist] raises [ZeroDivisionError]
    before any sweep; and when the float sum [tol + 1] exceeds [tol] (in
    binary64, for any tolerance below [2^53] in magnitude), so that the
    loops are entered, value iteration -- under either compile flag -- and
    policy iteration raise the [ValueError] of a maximum over an empty array
    at their first sweep. *)
Theorem empty_grid_fails_in_the_solvers (lib : Library) (o : Options)
    (bcm : BusinessCycleModel)
    (parallel_flag : bool) (policy : list (list nat)) (tol : Q)
    (max_iter : Z) (verbose : bool) (print_skip : Z) :
  outcome (__init__ lib o) = Ok bcm ->
  o_Na o = 0%Z ->
  (0 < max_iter)%Z ->
  (tol < float_add lib tol 1 ->
   outcome (solve_model_value_iteration lib bcm parallel_flag
         tol max_iter verbose print_skip)
   = Raise empty_reduction /\
   outcome (solve_model_time_iter lib bcm tol max_iter verbose print_skip)
   = Raise empty_reduction) /\
  outcome (solve_invariant_dist lib bcm policy tol max_iter verbose print_skip)
  = Raise ZeroDivisionError.
Proof.
  intros Hinit HNa Hmax.
  apply init_fields in Hinit as (Hgrid & _ & _ & HN & _).
  rewrite HNa in HN. simpl in HN.
  assert (Hav : a_vals bcm = []).
  { apply linspace_length in Hgrid. rewrite HNa in Hgrid.
    now destruct (a_vals bcm). }
  destruct (Z.to_nat max_iter) as [|r] eqn:Er; [lia|].
  split; [intro Htol; apply Qlt_bool_iff in Htol; split|].
  - unfold solve_model_value_iteration.
    bind_ok (when_Ok verbose SolveValueIteration).
    assert (Hu : outcome (lift (util lib bcm parallel_flag)) = Ok ([], []))
      by (unfold util; rewrite HN; reflexivity).
    bind_ok Hu. rewrite Er.
    apply outcome_bind_Raise. rewrite loop_S, Htol.
    assert (Hs : outcome (lift (T_step bcm parallel_flag [] []
                                  (zeros (Na bcm) (Ns bcm))))
                 = Ok ([], ([], [])))
      by (unfold T_step, T; rewrite HN; reflexivity).
    bind_ok Hs. apply outcome_bind_Raise.
    rewrite HN. reflexivity.
  - unfold solve_model_time_iter.
    bind_ok (when_Ok verbose SolvePolicyIteration). cbv zeta. rewrite Er.
    apply outcome_bind_Raise. rewrite loop_S, Htol.
    assert (Hs : outcome (lift (K lib bcm (gamma_init bcm))) = Ok ([], []))
      by (unfold K, gamma_init; rewrite Hav; reflexivity).
    bind_ok Hs. apply outcome_bind_Raise.
    unfold gamma_init. rewrite Hav. reflexivity.
  - unfold solve_invariant_dist.
    apply outcome_bind_Raise. unfold uniform_pmf. rewrite HN. reflexivity.
Qed.

Lemma empty_grid_fails_in_the_solvers_witness :
  let o := loss_options 2 8 0 false in
  let bcm := from_Ok toy (outcome (__init__ lib0 o)) in
  outcome (solve_model_value_iteration lib0 bcm true 1e-5 5000 false 100)
  = Raise empty_reduction /\
  outcome (solve_invariant_dist lib0 bcm [] 1e-7 2000 false 50)
  = Raise ZeroDivisionError.
Proof.
  intros o bcm. split.
  - destruct (empty_grid_fails_in_the_solvers lib0 o bcm true [] 1e-5 5000 false 100)
      as (H & _).
    + vm_compute. reflexivity.
    + reflexivity.
    + lia.
    + destruct H as (H & _); [reflexivity | exact H].
  - destruct (empty_grid_fails_in_the_solvers lib0 o bcm true [] 1e-7 2000 false 50)
      as (_ & H).
    + vm_compute. reflexivity.
    + reflexivity.
    + lia.
    + exact H.
Defined.

(** ** The simulated asset path *)

Section AssetSeries.

Variable lib : Library.
Variable bcm : BusinessCycleModel.
Variable gamma_star : list (list Q).
Variable s_seq : list nat.

Local Abbreviation gamma_at :=
  (fun (a : Q) (s : nat) => interp lib (a_vals bcm) (column s gamma_star) a).
Local Abbreviation stepf := (asset_step lib bcm gamma_star s_seq).

Lemma asset_step_Some (a c a' c' : list Q) (t : nat) :
  stepf (Some (a, c)) t = Some (a', c') ->
  exists s y,
    nth_error s_seq t = Some s /\ nth_error (y_vals bcm) s = Some y /\
    c' = update c t (fun _ => gamma_at (nth t a 0) s) /\
    a' = update a (t + 1)
           (fun _ => R_save bcm * (nth t a 0 - gamma_at (nth t a 0) s + y)).
Proof.
  unfold asset_step.
  destruct (nth_error s_seq t) as [s|] eqn:Es; [|discriminate].
  destruct (nth_error (y_vals bcm) s) as [y|] eqn:Ey; [|discriminate].
  intro H. inversion H; subst. exists s, y. repeat split; trivial.
Qed.

Lemma fold_None (l : list nat) : fold_left stepf l None = None.
Proof. induction l; simpl; auto. Qed.

(** After [k] steps the first [k] periods obey the recurrence, and the
    entries that later steps will write are still at their initial zero. *)
Lemma asset_path_prefix (T k : nat) (a c : list Q) :
  (k <= T)%nat ->
  fold_left stepf (seq 0 k) (Some (repeat 0 (T + 1), repeat 0 T)) = Some (a, c) ->
  length a = (T + 1)%nat /\ length c = T /\ nth 0 a 0 = 0 /\
  forall t, (t < k)%nat ->
    exists s y,
      nth_error s_seq t = Some s /\ nth_error (y_vals bcm) s = Some y /\
      nth t c 0 = gamma_at (nth t a 0) s /\
      nth (t + 1) a 0 = R_save bcm * (nth t a 0 - nth t c 0 + y).
Proof.
  revert a c. induction k as [|k IH]; intros a c Hk H.
  - simpl in H. inversion H; subst. rewrite !repeat_length.
    repeat split; trivial.
    + now rewrite Nat.add_comm.
    + intros t Ht. lia.
  - rewrite seq_S, fold_left_app in H. simpl in H.
    destruct (fold_left stepf (seq 0 k) (Some (repeat 0 (T + 1), repeat 0 T)))
      as [[a0 c0]|] eqn:E; [|discriminate].
    destruct (IH a0 c0 ltac:(lia) eq_refl) as (Ha0 & Hc0 & Hz & Hrec).
    apply asset_step_Some in H as (s & y & Hs & Hy & -> & ->).
    rewrite !update_length. repeat split; trivial.
    + rewrite update_nth by lia.
      destruct (Nat.eq_dec 0 (k + 1)); [lia | trivial].
    + intros t Ht.
      destruct (Nat.eq_dec t k) as [->|Hne].
      * exists s, y. split; [trivial|]. split; [trivial|].
        rewrite !update_nth by lia.
        destruct (Nat.eq_dec k k); [|lia].
        destruct (Nat.eq_dec k (k + 1)); [lia|].
        destruct (Nat.eq_dec (k + 1) (k + 1)); [|lia]. auto.
      * destruct (Hrec t ltac:(lia)) as (s' & y' & Hs' & Hy' & Hc' & Ha').
        exists s', y'. split; [trivial|]. split; [trivial|].
        rewrite !update_nth by lia.
        destruct (Nat.eq_dec t k); [lia|].
        destruct (Nat.eq_dec t (k + 1)); [lia|].
        destruct (Nat.eq_dec (t + 1) (k + 1)); [lia|]. auto.
Qed.

Lemma asset_path_runs (T k : nat) :
  (k <= T)%nat -> (T <= length s_seq)%nat ->
  (forall t, (t < T)%nat -> (nth t s_seq 0 < length (y_vals bcm))%nat) ->
  exists a c,
    fold_left stepf (seq 0 k) (Some (repeat 0 (T + 1), repeat 0 T)) = Some (a, c).
Proof.
  intros Hk Hlen Hst. induction k as [|k IH].
  - simpl. eauto.
  - destruct IH as (a & c & E); [lia|].
    rewrite seq_S, fold_left_app, E. simpl. unfold asset_step.
    destruct (nth_error s_seq k) as [s|] eqn:Es.
    + assert (Hs : s = nth k s_seq 0%nat) by (symmetry; now apply nth_error_nth).
      destruct (nth_error (y_vals bcm) s) as [y|] eqn:Ey; [eauto|].
      apply nth_error_None in Ey. specialize (Hst k ltac:(lia)). lia.
    + apply nth_error_None in Es. lia.
Qed.

End AssetSeries.

(** X16.  A simulated path that [compute_asset_series] returns has [T + 1]
    asset entries and [T] consumption entries, starts from zero assets, and
    obeys in every period [t] the policy and the budget identity:
    [c_path[t] = gamma(a_path[t], s_t)] and
    [a_path[t+1] = R_save * (a_path[t] - c_path[t] + y(s_t))]. *)
Theorem asset_series_follows_the_budget (lib : Library) (bcm : BusinessCycleModel)
    (gamma_star : list (list Q)) (T : nat) (s_seq : list nat)
    (a_path c_path : list Q) (s_out : list nat) :
  compute_asset_series lib bcm gamma_star T s_seq = Some (a_path, c_path, s_out) ->
  length a_path = (T + 1)%nat /\ length c_path = T /\ s_out = s_seq /\
  nth 0 a_path 0 = 0 /\
  forall t, (t < T)%nat ->
    exists s y,
      nth_error s_seq t = Some s /\ nth_error (y_vals bcm) s = Some y /\
      nth t c_path 0
      = interp lib (a_vals bcm) (column s gamma_star) (nth t a_path 0) /\
      nth (t + 1) a_path 0
      = R_save bcm * (nth t a_path 0 - nth t c_path 0 + y).
Proof.
  unfold compute_asset_series. intro H.
  destruct (fold_left (asset_step lib bcm gamma_star s_seq) (seq 0 T)
              (Some (repeat 0 (T + 1), repeat 0 T))) as [[a c]|] eqn:E;
    [|discriminate].
  inversion H; subst.
  destruct (asset_path_prefix lib bcm gamma_star s_out T T a_path c_path
              (Nat.le_refl T) E) as (Ha & Hc & Hz & Hrec).
  repeat split; trivial.
Qed.

Lemma asset_series_follows_the_budget_witness :
  let r := compute_asset_series lib0 toy (gamma_init toy) 3 [0; 1; 0]%nat in
  exists a_path c_path, r = Some (a_path, c_path, [0; 1; 0]%nat) /\
    length a_path = 4%nat.
Proof.
  intro r.
  pose (p := match r with Some (a, c, _) => (a, c) | None => ([], []) end).
  assert (E : r = Some (fst p, snd p, [0; 1; 0]%nat)) by (vm_compute; reflexivity).
  destruct (asset_series_follows_the_budget lib0 toy (gamma_init toy) 3
              [0; 1; 0]%nat (fst p) (snd p) [0; 1; 0]%nat E) as (Hlen & _).
  exists (fst p), (snd p). split; [exact E | exact Hlen].
Defined.

(** X17.  Given a state path of at least [T] valid states and a policy
    array with a column per state the simulation returns; and if
    [R_save >= 0] and the interpolated policy never consumes more than cash
    on hand at non-negative assets, the simulated assets never become
    negative. *)
Theorem asset_series_stays_nonnegative (lib : Library) (bcm : BusinessCycleModel)
    (gamma_star : list (list Q)) (T : nat) (s_seq : list nat) :
  (T <= length s_seq)%nat ->
  (forall t, (t < T)%nat -> (nth t s_seq 0 < length (y_vals bcm))%nat) ->
  (forall row, In row gamma_star -> length row = length (y_vals bcm)) ->
  0 <= R_save bcm ->
  (forall a s, 0 <= a -> (s < length (y_vals bcm))%nat ->
     interp lib (a_vals bcm) (column s gamma_star) a <= a + nth s (y_vals bcm) 0) ->
  exists a_path c_path,
    compute_asset_series lib bcm gamma_star T s_seq = Some (a_path, c_path, s_seq) /\
    forall t, (t <= T)%nat -> 0 <= nth t a_path 0.
Proof.
  intros Hlen Hst _ HR Hpol.
  destruct (asset_path_runs lib bcm gamma_star s_seq T T (Nat.le_refl T) Hlen Hst)
    as (a & c & E).
  exists a, c. split; [unfold compute_asset_series; now rewrite E|].
  destruct (asset_path_prefix lib bcm gamma_star s_seq T T a c (Nat.le_refl T) E)
    as (_ & _ & Hz & Hrec).
  induction t as [|t IH]; intro Ht.
  - rewrite Hz. apply Qle_refl.
  - destruct (Hrec t ltac:(lia)) as (s & y & Hs & Hy & Hc & Ha).
    rewrite Nat.add_1_r in Ha. rewrite Ha.
    apply Qmult_le_0_compat; trivial.
    assert (Hsr : (s < length (y_vals bcm))%nat)
      by (apply nth_error_Some; rewrite Hy; discriminate).
    assert (Hyv : nth s (y_vals bcm) 0 = y) by now apply nth_error_nth.
    specialize (Hpol (nth t a 0) s (IH ltac:(lia)) Hsr).
    rewrite Hyv, <- Hc in Hpol. lra.
Qed.

Lemma interp_lin_zero_policy (u : Q) (s : nat) :
  interp_lin [0; 1; 2] (column s (zeros 3 2)) u == 0.
Proof.
  assert (E : column s (zeros 3 2) = [0; 0; 0]).
  { unfold column, zeros. simpl. destruct s as [|[|s]]; simpl; trivial.
    now destruct s. }
  rewrite E. simpl.
  destruct (Qle_bool u 0); [reflexivity|].
  destruct (Qle_bool u 1); [field|].
  destruct (Qle_bool u 2); [field | reflexivity].
Qed.

Lemma asset_series_stays_nonnegative_witness :
  exists a_path c_path,
    compute_asset_series lib0 toy (zeros 3 2) 3 [0; 1; 0]%nat
      = Some (a_path, c_path, [0; 1; 0]%nat) /\
    0 <= nth 3 a_path 0.
Proof.
  destruct (asset_series_stays_nonnegative lib0 toy (zeros 3 2) 3 [0; 1; 0]%nat)
    as (a & c & E & H).
  - simpl. lia.
  - intros [|[|[|t]]] Ht; simpl; lia.
  - intros row [<-|[<-|[<-|[]]]]; reflexivity.
  - vm_compute. discriminate.
  - intros a s Ha Hs. simpl in Hs.
    change (interp lib0 (a_vals toy) (column s (zeros 3 2)) a)
      with (interp_lin [0; 1; 2] (column s (zeros 3 2)) a).
    rewrite interp_lin_zero_policy.
    destruct s as [|[|s]]; [| |lia]; simpl; lra.
  - exists a, c. split; trivial. apply H. lia.
Defined.

(** ** From the value function to the stationary distribution *)

Lemma T_policy_valid (lib : Library) (bcm : BusinessCycleModel)
    (parallel_flag : bool)
    (v : list (list Q)) (c u : list (list (list Q)))
    (v_new : list (list Q)) (policy : list (list nat)) (gamma : list (list Q)) :
  util lib bcm parallel_flag = Ok (c, u) ->
  T bcm parallel_flag v u c = Ok (v_new, policy, gamma) ->
  forall a0 s0, (a0 < Na bcm)%nat -> (s0 < Ns bcm)%nat ->
    (nth s0 (nth a0 policy []) 0 < Na bcm)%nat.
Proof.
  intros Eu ET a0 s0 Ha0 Hs0.
  pose proof (util_shape lib bcm parallel_flag c u Eu) as (_ & Hrow).
  pose proof (T_cells bcm parallel_flag v u c v_new policy gamma a0 s0
                ET Ha0 Hs0) as Hcell.
  apply T_cell_Ok in Hcell as (Na1 & HNa1 & Hle & _).
  apply argwhere_max_Ok in HNa1 as (Hlt & _).
  rewrite Hrow in Hlt by trivial. lia.
Qed.

Lemma value_iteration_policy (lib : Library) (bcm : BusinessCycleModel)
    (parallel_flag : bool)
    (tol : Q) (max_iter : Z) (verbose : bool) (print_skip : Z)
    (v : list (list Q)) (policy : list (list nat)) (gamma : list (list Q)) :
  outcome (solve_model_value_iteration lib bcm parallel_flag
        tol max_iter verbose print_skip)
    = Ok (v, policy, gamma) ->
  shape policy (Na bcm) (Ns bcm) /\
  forall a0 s0, (a0 < Na bcm)%nat -> (s0 < Ns bcm)%nat ->
    (nth s0 (nth a0 policy []) 0 < Na bcm)%nat.
Proof.
  intro H.
  destruct (value_iteration_inv lib bcm parallel_flag tol max_iter verbose print_skip
              v policy gamma H) as (c & u & i & x_last & Hu & Hloop & _).
  apply (loop_last_sweep _ _ _ _ _ (fun _ => True)) in Hloop
    as (v_prev & e & _ & Hstep & _); auto.
  apply T_step_Ok in Hstep. split.
  - now apply T_shape in Hstep.
  - now apply (T_policy_valid lib bcm parallel_flag v_prev c u v policy gamma).
Qed.

Lemma invariant_dist_mass (lib : Library) (bcm : BusinessCycleModel)
    (policy : list (list nat))
    (tol : Q) (max_iter : Z) (verbose : bool) (print_skip : Z)
    (pmf : list (list Q)) :
  shape (P bcm) (Ns bcm) (Ns bcm) ->
  (forall s0, (s0 < Ns bcm)%nat -> Qsum (nth s0 (P bcm) []) == 1) ->
  shape policy (Na bcm) (Ns bcm) ->
  (forall a0 s0, (a0 < Na bcm)%nat -> (s0 < Ns bcm)%nat ->
     (nth s0 (nth a0 policy []) 0 < Na bcm)%nat) ->
  outcome (solve_invariant_dist lib bcm policy tol max_iter verbose print_skip)
    = Ok pmf ->
  shape pmf (Na bcm) (Ns bcm) /\ mass pmf == 1.
Proof.
  intros HP Hrows Hpol Hvalid H.
  apply invariant_dist_inv in H as (pmf0 & i & l & H0 & Hloop & _).
  apply (loop_invariant _ _ _ _ _
           (fun x _ => shape x (Na bcm) (Ns bcm) /\ mass x == 1)) in Hloop.
  - now destruct Hloop.
  - intros x l' x_new y (Hs & Hm) Hstep. inversion Hstep; subst.
    destruct (dist_iter_spec bcm policy HP Hrows Hvalid x Hs) as (Hs' & Hm').
    split; trivial. now rewrite Hm'.
  - now apply (uniform_pmf_spec bcm policy).
Qed.

(** X18.  The two solvers compose: on a constructed model, the policy that
    value iteration returns is an array of valid asset-grid indices over
    the grid, and the distribution that [solve_invariant_dist] returns for
    that policy is a probability mass function over the grid --
    non-negative entries that sum to 1. *)
Theorem value_iteration_feeds_the_distribution (lib : Library) (o : Options)
    (bcm : BusinessCycleModel)
    (parallel_flag : bool)
    (tol : Q) (max_iter : Z) (verbose : bool) (print_skip : Z)
    (tol' : Q) (max_iter' : Z) (verbose' : bool) (print_skip' : Z)
    (v : list (list Q)) (policy : list (list nat)) (gamma pmf : list (list Q)) :
  outcome (__init__ lib o) = Ok bcm ->
  outcome (solve_model_value_iteration lib bcm parallel_flag
        tol max_iter verbose print_skip)
    = Ok (v, policy, gamma) ->
  outcome (solve_invariant_dist lib bcm policy tol' max_iter' verbose' print_skip')
    = Ok pmf ->
  shape policy (Na bcm) (Ns bcm) /\
  (forall a0 s0, (a0 < Na bcm)%nat -> (s0 < Ns bcm)%nat ->
     (nth s0 (nth a0 policy []) 0 < Na bcm)%nat) /\
  shape pmf (Na bcm) (Ns bcm) /\ nonneg pmf /\ mass pmf == 1.
Proof.
  intros Hinit Hvi Hdist.
  destruct (constructed_P lib o bcm Hinit) as (HP & Hrows).
  pose proof (constructed_P_nonneg lib o bcm Hinit) as Hnn.
  destruct (value_iteration_policy lib bcm parallel_flag tol max_iter verbose print_skip
              v policy gamma Hvi) as (Hpol & Hvalid).
  destruct (invariant_dist_mass lib bcm policy tol' max_iter' verbose' print_skip'
              pmf HP Hrows Hpol Hvalid Hdist) as (Hs & Hm).
  repeat split; trivial; try apply Hpol; try apply Hs.
  apply invariant_dist_inv in Hdist as (pmf0 & i & l & H0 & Hloop & _).
  apply (loop_invariant _ _ _ _ _ (fun x _ => nonneg x)) in Hloop.
  - now destruct Hloop.
  - intros x l' x_new y Hx Hstep. inversion Hstep; subst.
    now apply dist_iter_nonneg.
  - now apply (uniform_pmf_nonneg bcm policy).
Qed.

Lemma value_iteration_feeds_the_distribution_witness :
  let bcm := from_Ok toy (outcome (__init__ lib0 toy_options)) in
  let r := from_Ok ([], [], [])
             (outcome (solve_model_value_iteration lib0 bcm true 1000 2 false 100)) in
  let pmf := from_Ok []
               (outcome (solve_invariant_dist lib0 bcm (snd (fst r)) 10 2 false 50)) in
  mass pmf == 1.
Proof.
  intros bcm r pmf.
  destruct (value_iteration_feeds_the_distribution lib0 toy_options bcm true
              1000 2 false 100 10 2 false 50
              (fst (fst r)) (snd (fst r)) (snd r) pmf)
    as (_ & _ & _ & _ & H).
  - vm_compute. reflexivity.
  - vm_compute. reflexivity.
  - vm_compute. reflexivity.
  - exact H.
Defined.

(** ** Compilation and rounding *)

Lemma bind_Raise {A B} (r : result A) (k : A -> result B) (e : exn) :
  bind r k = Raise e -> r = Raise e \/ exists a, r = Ok a /\ k a = Raise e.
Proof.
  destruct r as [a|e'|]; simpl; intro H.
  - right. exists a. auto.
  - inversion H. now left.
  - discriminate.
Qed.

Lemma bind_Unspecified {A B} (r : result A) (k : A -> result B) :
  bind r k = Unspecified -> r = Unspecified \/ exists a, r = Ok a /\ k a = Unspecified.
Proof.
  destruct r as [a|e'|]; simpl; intro H.
  - right. exists a. auto.
  - discriminate.
  - now left.
Qed.

(** A loop that raises does so at one of its iterations. *)
Lemma mapM_Raise {A B} (f : A -> result B) (l : list A) (e : exn) :
  mapM f l = Raise e -> exists x, In x l /\ f x = Raise e.
Proof.
  induction l as [|x t IH]; simpl; intro H; [discriminate|].
  apply bind_Raise in H as [H|(y & _ & H)]; [exists x; auto|].
  apply bind_Raise in H as [H|(ys & _ & H)]; [|discriminate].
  destruct (IH H) as (z & Hz & Hfz). exists z. auto.
Qed.

Lemma mapM_Unspecified {A B} (f : A -> result B) (l : list A) :
  mapM f l = Unspecified -> exists x, In x l /\ f x = Unspecified.
Proof.
  induction l as [|x t IH]; simpl; intro H; [discriminate|].
  apply bind_Unspecified in H as [H|(y & _ & H)]; [exists x; auto|].
  apply bind_Unspecified in H as [H|(ys & _ & H)]; [|discriminate].
  destruct (IH H) as (z & Hz & Hfz). exists z. auto.
Qed.

(** The body of [T] at one cell either completes or raises on the empty
    scan: with non-zero rates nothing else in it can fail. *)
Lemma T_cell_outcomes (bcm : BusinessCycleModel) (v : list (list Q))
    (u c : list (list (list Q))) (a0 s0 : nat) :
  (forall a1, (a1 < length (nth s0 (nth a0 c []) []))%nat ->
     ~ R_func bcm (nth a1 (a_vals bcm) 0) == 0) ->
  (exists r, T_cell bcm v u c a0 s0 = Ok r) \/
  argwhere (nth s0 (nth a0 c []) []) = [] /\
  T_cell bcm v u c a0 s0 = Raise empty_reduction.
Proof.
  intro HR.
  destruct (argwhere (nth s0 (nth a0 c []) [])) as [|i l] eqn:E.
  - right. split; trivial. unfold T_cell, argwhere_max. now rewrite E.
  - left. apply T_cell_total; trivial.
    assert (Hin : In i (argwhere (nth s0 (nth a0 c []) [])))
      by (rewrite E; simpl; auto).
    apply argwhere_In in Hin. eauto.
Qed.

(** X19.  On the tables of [util], whether [T] returns a determined value
    depends neither on the value function nor on how the kernel was
    compiled: it does exactly when every cell of the grid has a next asset
    with positive consumption.  When some cell has none, the kernel
    compiled sequentially raises the [ValueError] of a maximum over an
    empty array, and the kernel compiled in parallel does not raise: what
    it returns is not determined. *)
Theorem T_returns_iff_every_cell_is_feasible (lib : Library)
    (bcm : BusinessCycleModel) (parallel_flag : bool)
    (v : list (list Q)) (c u : list (list (list Q))) :
  util lib bcm parallel_flag = Ok (c, u) ->
  (forall compiled,
     (exists v_new policy gamma,
        T bcm compiled v u c = Ok (v_new, policy, gamma))
     <->
     (forall a0 s0, (a0 < Na bcm)%nat -> (s0 < Ns bcm)%nat ->
        exists a1, (a1 < Na bcm)%nat /\ 0 < nth a1 (nth s0 (nth a0 c []) []) 0)) /\
  ((exists a0 s0, (a0 < Na bcm)%nat /\ (s0 < Ns bcm)%nat /\
      forall a1, (a1 < Na bcm)%nat -> nth a1 (nth s0 (nth a0 c []) []) 0 <= 0) ->
   T bcm false v u c = Raise empty_reduction /\
   T bcm true v u c = Unspecified).
Proof.
  intro Eu.
  pose proof (util_shape lib bcm parallel_flag c u Eu) as (_ & Hrow).
  assert (HR : forall a0 s0, (a0 < Na bcm)%nat -> (s0 < Ns bcm)%nat ->
            forall a1, (a1 < length (nth s0 (nth a0 c []) []))%nat ->
              ~ R_func bcm (nth a1 (a_vals bcm) 0) == 0).
  { intros a0 s0 Ha0 Hs0 a1 Ha1. rewrite Hrow in Ha1 by trivial.
    now apply (util_rates_nonzero lib bcm parallel_flag c u a0 s0 a1). }
  assert (Hiff : forall compiled,
     (exists v_new policy gamma,
        T bcm compiled v u c = Ok (v_new, policy, gamma))
     <->
     (forall a0 s0, (a0 < Na bcm)%nat -> (s0 < Ns bcm)%nat ->
        exists a1, (a1 < Na bcm)%nat /\ 0 < nth a1 (nth s0 (nth a0 c []) []) 0)).
  { intro compiled. split.
    - intros (v_new & policy & gamma & ET) a0 s0 Ha0 Hs0.
      pose proof (T_cells bcm compiled v u c v_new policy gamma a0 s0 ET Ha0 Hs0)
        as Hcell.
      apply T_cell_Ok in Hcell as (Na1 & HNa1 & _).
      apply argwhere_max_Ok in HNa1 as (Hlt & Hpos & _).
      rewrite Hrow in Hlt by trivial. eauto.
    - intro Hfeas. apply T_total. intros a0 s0 Ha0 Hs0.
      apply T_cell_total; [|now apply HR].
      destruct (Hfeas a0 s0 Ha0 Hs0) as (a1 & Ha1 & Hpos).
      exists a1. rewrite Hrow by trivial. auto. }
  split; trivial.
  intros (a0 & s0 & Ha0 & Hs0 & Hnone).
  assert (Hseq : T bcm false v u c = Raise empty_reduction).
  { destruct (T bcm false v u c) as [[[v_new policy] gamma]|e|] eqn:ET.
    - exfalso.
      destruct (proj1 (Hiff false) (ex_intro _ v_new (ex_intro _ policy
                  (ex_intro _ gamma ET))) a0 s0 Ha0 Hs0) as (a1 & Ha1 & Hpos).
      apply (Qlt_not_le _ _ Hpos). now apply Hnone.
    - unfold T, njit in ET.
      destruct (mapM (fun a0 => mapM (fun s0 => T_cell bcm v u c a0 s0)
                                  (seq 0 (Ns bcm))) (seq 0 (Na bcm)))
        as [cells|e'|] eqn:Em; simpl in ET; try discriminate.
      inversion ET; subst e'. clear ET.
      apply mapM_Raise in Em as (b0 & Hb0 & Em). apply in_seq in Hb0.
      apply mapM_Raise in Em as (t0 & Ht0 & Em). apply in_seq in Ht0.
      destruct (T_cell_outcomes bcm v u c b0 t0) as [(r & Er)|(_ & Er)].
      + apply HR; lia.
      + rewrite Er in Em. discriminate.
      + rewrite Er in Em. now inversion Em.
    - exfalso. unfold T, njit in ET.
      destruct (mapM (fun a0 => mapM (fun s0 => T_cell bcm v u c a0 s0)
                                  (seq 0 (Ns bcm))) (seq 0 (Na bcm)))
        as [cells|e'|] eqn:Em; simpl in ET; try discriminate.
      apply mapM_Unspecified in Em as (b0 & Hb0 & Em). apply in_seq in Hb0.
      apply mapM_Unspecified in Em as (t0 & Ht0 & Em). apply in_seq in Ht0.
      destruct (T_cell_outcomes bcm v u c b0 t0) as [(r & Er)|(_ & Er)].
      + apply HR; lia.
      + rewrite Er in Em. discriminate.
      + rewrite Er in Em. discriminate. }
  split; trivial.
  unfold T, njit in Hseq |- *.
  destruct (mapM (fun a0 => mapM (fun s0 => T_cell bcm v u c a0 s0)
                              (seq 0 (Ns bcm))) (seq 0 (Na bcm)))
    as [cells|e'|]; simpl in Hseq |- *; [discriminate | reflexivity | discriminate].
Qed.

Lemma T_returns_iff_every_cell_is_feasible_witness :
  let m := from_Ok toy (outcome (__init__ lib0 reversed_options)) in
  let cu := from_Ok ([], []) (util lib0 m true) in
  (exists v_new policy gamma,
     T toy false (zeros 3 2) toy_u toy_c = Ok (v_new, policy, gamma)) /\
  T m false (zeros 2 2) (snd cu) (fst cu) = Raise empty_reduction /\
  T m true (zeros 2 2) (snd cu) (fst cu) = Unspecified.
Proof.
  intros m cu. split.
  - destruct (T_returns_iff_every_cell_is_feasible lib0 toy true (zeros 3 2)
                toy_c toy_u) as (H & _).
    + vm_compute. reflexivity.
    + apply (proj2 (H false)). intros a0 s0 Ha0 Hs0. exists 0%nat.
      split; [simpl; lia|].
      destruct a0 as [|[|[|a0]]]; [| | |simpl in Ha0; lia];
        (destruct s0 as [|[|s0]]; [| |simpl in Hs0; lia]); reflexivity.
  - destruct (T_returns_iff_every_cell_is_feasible lib0 m true (zeros 2 2)
                (fst cu) (snd cu)) as (_ & H).
    + vm_compute. reflexivity.
    + apply H. exists 1%nat, 0%nat.
      split; [vm_compute; lia|]. split; [vm_compute; lia|].
      intros a1 Ha1. vm_compute in Ha1.
      destruct a1 as [|[|a1]]; [| |lia]; vm_compute; discriminate.
Defined.

(** X20.  A tolerance so large that the float sum [tol + 1] does not
    exceed it keeps the loops from being entered, whatever [max_iter]:
    value iteration and policy iteration then raise [UnboundLocalError] at
    their return statements, and [solve_invariant_dist] returns the uniform
    distribution it started from. *)
Theorem absorbed_tolerance_skips_the_loop (lib : Library)
    (bcm : BusinessCycleModel) (parallel_flag : bool)
    (policy : list (list nat)) (tol : Q) (max_iter : Z) (verbose : bool)
    (print_skip : Z) :
  (float_add lib tol 1 <= tol ->
   (forall c u, util lib bcm parallel_flag = Ok (c, u) ->
      outcome (solve_model_value_iteration lib bcm parallel_flag
                 tol max_iter verbose print_skip)
      = Raise (UnboundLocalError "policy")) /\
   outcome (solve_model_time_iter lib bcm tol max_iter verbose print_skip)
   = Raise (UnboundLocalError "gamma_new")) /\
  (float_add lib 1 tol <= tol ->
   forall pmf0, uniform_pmf bcm policy = Ok pmf0 ->
     outcome (solve_invariant_dist lib bcm policy tol max_iter verbose print_skip)
     = Ok pmf0).
Proof.
  split.
  - intro Htol. split.
    + intros c u Hu. unfold solve_model_value_iteration.
      bind_ok (when_Ok verbose SolveValueIteration).
      assert (Hu' : outcome (lift (util lib bcm parallel_flag)) = Ok (c, u))
        by exact Hu.
      bind_ok Hu'. rewrite loop_exit by exact Htol.
      rewrite (outcome_bind_Ok _ _ (0%nat, zeros (Na bcm) (Ns bcm), None))
        by reflexivity.
      cbv beta iota.
      rewrite (outcome_bind_Ok _ _ tt) by apply when_Ok.
      now rewrite (outcome_bind_Ok _ _ tt) by apply when_Ok.
    + unfold solve_model_time_iter.
      bind_ok (when_Ok verbose SolvePolicyIteration). cbv zeta.
      rewrite loop_exit by exact Htol.
      rewrite (outcome_bind_Ok _ _ (0%nat, gamma_init bcm, None)) by reflexivity.
      cbv beta iota.
      rewrite (outcome_bind_Ok _ _ tt) by apply when_Ok.
      now rewrite (outcome_bind_Ok _ _ tt) by apply when_Ok.
  - intros Htol pmf0 H0. unfold solve_invariant_dist.
    assert (H0' : outcome (lift (uniform_pmf bcm policy)) = Ok pmf0) by exact H0.
    bind_ok H0'. rewrite loop_exit by exact Htol.
    rewrite (outcome_bind_Ok _ _ (0%nat, pmf0, None)) by reflexivity.
    cbv beta iota.
    rewrite (outcome_bind_Ok _ _ tt) by apply when_Ok.
    now rewrite (outcome_bind_Ok _ _ tt) by apply when_Ok.
Qed.

Lemma absorbed_tolerance_skips_the_loop_witness :
  outcome (solve_model_time_iter lib54 toy 1e17 1000 false 25)
  = Raise (UnboundLocalError "gamma_new") /\
  outcome (solve_invariant_dist lib54 toy toy_policy 1e17 2000 false 50)
  = uniform_pmf toy toy_policy.
Proof.
  destruct (absorbed_tolerance_skips_the_loop lib54 toy true toy_policy
              1e17 1000 false 25) as (H1 & _).
  destruct (absorbed_tolerance_skips_the_loop lib54 toy true toy_policy
              1e17 2000 false 50) as (_ & H2).
  split.
  - apply H1. vm_compute. discriminate.
  - pose (pmf0 := from_Ok [] (uniform_pmf toy toy_policy)).
    assert (E : uniform_pmf toy toy_policy = Ok pmf0) by (vm_compute; reflexivity).
    rewrite E. apply H2; [vm_compute; discriminate | exact E].
Defined.
